(** * Game of Life: the PlayingField engine of gameOfLife.ts

    A shallow embedding of the class [PlayingField] (src/gameOfLife.ts,
    lines 5-184) and the properties of its generation engine.

    Coordinates are JavaScript numbers, that is IEEE 754 doubles, which the
    application fills with integers ([pixelsToCoordinates] ends in
    [Math.floor]). A coordinate is modelled by the integer it holds, in
    [Z], and the sums [x + i] and [y + j] of the two neighbor loops by
    [jsAdd], which rounds the exact sum to the nearest double: from 2^53 on
    not every integer is a double. Numbers that are not integers, NaN and
    the infinities are outside the model.
    The class is embedded twice. In the value model the cell array
    [this.cells] is a [list Cell] and a method that mutates [this] returns
    the updated field. In the store model ([Module Heap]) arrays and cell
    objects are references into a store, as in JavaScript; it decides what
    depends on aliasing ([getClone]). The lemmas named [..._store] show
    that each method of the store model computes, on the cells that the
    references point to, what the value model computes. *)

From stdpp Require Import base tactics option numbers list.

Open Scope Z_scope.

(** ** Numbers

    [roundDouble z] is the double nearest to the integer [z], a tie going
    to the neighbor with the even significand, as IEEE 754 rounds the
    result of an addition. Below 2^53 every integer is a double; from
    there on the doubles are the multiples of [ulp] with a quotient of 53
    bits. A sum of the source adds -1, 0 or 1 to a finite double, which
    never overflows to an infinity. *)
Definition roundDouble (z : Z) : Z :=
  let a := Z.abs z in
  if a <? 2 ^ 53 then z
  else
    let ulp := 2 ^ (Z.log2 a - 52) in
    let q := a / ulp in
    let r := a mod ulp in
    let q' := if 2 * r <? ulp then q
              else if ulp <? 2 * r then q + 1
              else if Z.even q then q else q + 1 in
    Z.sgn z * (q' * ulp).

(** The operator [+] on two numbers that hold integers. *)
Definition jsAdd (a b : Z) : Z := roundDouble (a + b).

(** ** Type definitions (gameOfLife.ts, lines 5-13) *)

(** [type Coords = { x: number; y: number }] *)
Record Coords := mkCoords { x : Z; y : Z }.

(** [type Cell = Coords & { hasLife: boolean }]: the intersection type is a
    record extension, hence the coercion to [Coords]. *)
Record Cell := mkCell { coords :> Coords; hasLife : bool }.

#[global] Instance Coords_eq_dec : EqDecision Coords.
Proof. solve_decision. Defined.

#[global] Instance Cell_eq_dec : EqDecision Cell.
Proof. solve_decision. Defined.

(** ** The class PlayingField (gameOfLife.ts, lines 37-184) *)

(** [private cells: Cell[]] *)
Record PlayingField := mkPlayingField { cells : list Cell }.

(** [constructor(cells?: Cell[]) { this.cells = cells || []; }] *)
Definition newPlayingField (arg : option (list Cell)) : PlayingField :=
  mkPlayingField (default [] arg).

(** The test [cell.x === coords.x && cell.y === coords.y], which the source
    writes out in [hasLifeAt], [hasCellAt] and [findCellAt]. *)
Definition sameCoords (cell : Cell) (c : Coords) : bool :=
  (x cell =? x c) && (y cell =? y c).

(** [Array.prototype.filter] with a boolean callback. *)
Definition jsFilter {A} (p : A → bool) (l : list A) : list A :=
  List.filter p l.

(** [Array.prototype.findIndex]: the first index whose element satisfies
    the callback, [-1] when there is none. *)
Fixpoint findIndex {A} (p : A → bool) (l : list A) : Z :=
  match l with
  | [] => -1
  | a :: l' =>
      if p a then 0
      else let r := findIndex p l' in if r =? -1 then -1 else r + 1
  end.

(** [hasLifeAt] (lines 45-53). *)
Definition hasLifeAt (this : PlayingField) (c : Coords) : bool :=
  (0 <? Z.of_nat (length (cells this)))
  && (0 <? Z.of_nat (length
        (jsFilter (λ cell : Cell, sameCoords cell c && hasLife cell) (cells this)))).

(** [hasCellAt] (lines 56-63). *)
Definition hasCellAt (this : PlayingField) (c : Coords) : bool :=
  (0 <? Z.of_nat (length (cells this)))
  && (0 <? Z.of_nat (length
        (jsFilter (λ cell : Cell, sameCoords cell c) (cells this)))).

(** [findCellAt] (lines 66-70). *)
Definition findCellAt (this : PlayingField) (c : Coords) : Z :=
  findIndex (λ cell : Cell, sameCoords cell c) (cells this).

(** The truthiness of [this.cells.length]. *)
Definition nonEmpty (this : PlayingField) : bool :=
  negb (Z.of_nat (length (cells this)) =? 0).

(** [this.cells[i].hasLife = true] *)
Definition setLife (cell : Cell) : Cell := mkCell (coords cell) true.

(** [addLifeAt] (lines 73-79). *)
Definition addLifeAt (this : PlayingField) (c : Coords) : PlayingField :=
  if nonEmpty this && negb (findCellAt this c =? -1)
  then mkPlayingField
         (alter setLife (Z.to_nat (findCellAt this c)) (cells this))
  else mkPlayingField (cells this ++ [mkCell c true]).

(** [killLifeAt] (lines 82-86); [splice(i, 1)] removes the element at [i]. *)
Definition killLifeAt (this : PlayingField) (c : Coords) : PlayingField :=
  if nonEmpty this && negb (findCellAt this c =? -1)
  then mkPlayingField (delete (Z.to_nat (findCellAt this c)) (cells this))
  else this.

(** The bounds of both [for] loops: [i] and [j] run over -1, 0, 1. *)
Definition offsets : list Z := [-1; 0; 1].

(** The two nested loops of [cellLivesNextRound] and
    [expandCellsWithNeighbors], with their [continue] on the centre:
    [body i j] is run on the accumulator for every offset but (0, 0). *)
Definition forNeighbors {S} (body : Z → Z → S → S) (s : S) : S :=
  foldl (λ s i,
    foldl (λ s j,
      if (i =? 0) && (j =? 0) then s else body i j s) s offsets) s offsets.

(** [cellLivesNextRound] (lines 89-108). *)
Definition countNeighbors (this : PlayingField) (cell : Cell) : Z :=
  forNeighbors (λ i j neighbors,
    if hasLifeAt this (mkCoords (jsAdd (x cell) i) (jsAdd (y cell) j))
    then neighbors + 1 else neighbors) 0.

Definition cellLivesNextRound (this : PlayingField) (cell : Cell) : bool :=
  let neighbors := countNeighbors this cell in
  (neighbors =? 2) && hasLife cell || (neighbors =? 3).

(** [expandCellsWithNeighbors] (lines 112-129). [forEach] visits the
    elements that the array had when the loop started (elements pushed by
    the callback are not visited), and those elements are never changed by
    the callback; the pushes go to [this.cells], which the next [hasCellAt]
    reads. *)
Definition expandCell (cell : Cell) (this : PlayingField) : PlayingField :=
  forNeighbors (λ i j this,
    if negb (hasCellAt this (mkCoords (jsAdd (x cell) i) (jsAdd (y cell) j)))
    then mkPlayingField
           (cells this
            ++ [mkCell (mkCoords (jsAdd (x cell) i) (jsAdd (y cell) j))
                  false])
    else this) this.

Definition expandCellsWithNeighbors (this : PlayingField) : PlayingField :=
  foldl (λ this cell, expandCell cell this) this (cells this).

(** [toggleCell] (lines 132-138). *)
Definition toggleCell (this : PlayingField) (c : Coords) : PlayingField :=
  if hasLifeAt this c then killLifeAt this c else addLifeAt this c.

(** [spawnNew] (lines 141-160): the returned field, and [this] after the
    call. *)
Definition spawnNew (this : PlayingField) : PlayingField * PlayingField :=
  let this1 := expandCellsWithNeighbors this in
  let cells' :=
    jsFilter (λ cell : Cell, hasLife cell)
      (map (λ cell : Cell, mkCell (mkCoords (x cell) (y cell))
                           (cellLivesNextRound this1 cell))
           (cells this1)) in
  let this2 := mkPlayingField (jsFilter (λ cell : Cell, hasLife cell) (cells this1)) in
  (newPlayingField (Some cells'), this2).

(** [getCells] (lines 177-179): a copy of the array. *)
Definition getCells (this : PlayingField) : list Cell :=
  map (λ d : Cell, d) (cells this).

(** [getDifferenceCells] (lines 164-174). *)
Definition getDifferenceCells (this otherField : PlayingField) : list Cell :=
  foldl (λ (differenceCells : list Cell) (cell : Cell),
    if negb (hasLifeAt this cell) then differenceCells ++ [cell]
    else differenceCells) [] (getCells otherField).

(** [getClone] (lines 181-183). *)
Definition getClone (this : PlayingField) : PlayingField :=
  newPlayingField (Some (getCells this)).

(** ** The vocabulary of the specification *)

(** "No two stored entries share the same Coordinate." *)
Definition uniqueCoords (this : PlayingField) : Prop :=
  NoDup (coords <$> cells this).

(** "Stores only alive cells." *)
Definition onlyAlive (this : PlayingField) : Prop :=
  Forall (λ cell : Cell, hasLife cell = true) (cells this).

(** Two fields with the same live-cell set. *)
Definition sameLife (f g : PlayingField) : Prop :=
  ∀ c, hasLifeAt f c = hasLifeAt g c.

(** Moore neighborhood (glossary): "the 8 cells horizontally, vertically,
    and diagonally adjacent to a given coordinate". *)
Definition adjacent (c d : Coords) : Prop :=
  Z.abs (x d - x c) ≤ 1 ∧ Z.abs (y d - y c) ≤ 1 ∧ d ≠ c.

Definition mooreNeighbors (c : Coords) : list Coords :=
  [ mkCoords (x c - 1) (y c - 1); mkCoords (x c - 1) (y c);
    mkCoords (x c - 1) (y c + 1); mkCoords (x c) (y c - 1);
    mkCoords (x c) (y c + 1); mkCoords (x c + 1) (y c - 1);
    mkCoords (x c + 1) (y c); mkCoords (x c + 1) (y c + 1) ].

(** The offsets of the two neighbor loops, in the order they are run, and
    the coordinates that the loops compute around [c] with [+]. *)
Definition neighborOffsets : list (Z * Z) :=
  [(-1, -1); (-1, 0); (-1, 1); (0, -1); (0, 1); (1, -1); (1, 0); (1, 1)].

Definition probe (c : Coords) (ij : Z * Z) : Coords :=
  mkCoords (jsAdd (x c) ij.1) (jsAdd (y c) ij.2).

Definition jsNeighbors (c : Coords) : list Coords :=
  probe c <$> neighborOffsets.

(** [Number.isSafeInteger]: an integer of absolute value at most
    2^53 - 1. *)
Definition safeInteger (z : Z) : Prop := Z.abs z < 2 ^ 53.

Definition safeCoords (c : Coords) : Prop :=
  safeInteger (x c) ∧ safeInteger (y c).

(** A field whose live cells, and one whose stored cells, have safe
    integers as coordinates. *)
Definition safeLife (this : PlayingField) : Prop :=
  ∀ cell : Cell, cell ∈ cells this → hasLife cell = true → safeCoords cell.

Definition safeCells (this : PlayingField) : Prop :=
  Forall (λ cell : Cell, safeCoords cell) (cells this).

(** The number of Moore neighbors of [c] that are live in [live]. *)
Definition liveNeighbors (live : Coords → bool) (c : Coords) : nat :=
  length (List.filter live (mooreNeighbors c)).

(** The standard Conway step of a live-cell set: "a coordinate is live in
    the result if and only if it has exactly 3 live Moore neighbors in the
    original, or it has exactly 2 live Moore neighbors and is itself live
    in the original". *)
Definition conwayStep (live : Coords → bool) (c : Coords) : bool :=
  (liveNeighbors live c =? 3)%nat
  || ((liveNeighbors live c =? 2)%nat && live c).

(** The body of the inner loop of [expandCellsWithNeighbors] at one
    neighbor coordinate, and a field that extends another one by dead
    entries only. *)
Definition pushIfAbsent (this : PlayingField) (c : Coords) : PlayingField :=
  if negb (hasCellAt this c)
  then mkPlayingField (cells this ++ [mkCell c false]) else this.

Definition extendsDead (this this' : PlayingField) : Prop :=
  ∃ extra, cells this' = cells this ++ extra
           ∧ Forall (λ cell : Cell, hasLife cell = false) extra.

(** The horizontal and the vertical phase of the blinker. *)
Definition row : list Coords := [mkCoords 0 0; mkCoords 1 0; mkCoords 2 0].

Definition column : list Coords :=
  [mkCoords 1 (-1); mkCoords 1 0; mkCoords 1 1].

Definition blinkerRow : PlayingField :=
  mkPlayingField [mkCell (mkCoords 0 0) true; mkCell (mkCoords 1 0) true;
                  mkCell (mkCoords 2 0) true].

Definition inRow (c : Coords) : bool :=
  (y c =? 0) && ((x c =? 0) || (x c =? 1) || (x c =? 2)).

Definition inColumn (c : Coords) : bool :=
  (x c =? 1) && ((y c =? -1) || (y c =? 0) || (y c =? 1)).

(** "The live cells of the field are exactly [cs]." *)
Definition liveExactly (this : PlayingField) (cs : list Coords) : Prop :=
  ∀ c, hasLifeAt this c = true ↔ c ∈ cs.

(** The difference as the specification words it: "every live Cell
    present in otherField that has no life in this Field". *)
Definition liveDifference (this otherField : PlayingField) : list Cell :=
  jsFilter (λ cell : Cell, hasLife cell && negb (hasLifeAt this cell))
    (cells otherField).

(** A field that stores one dead placeholder. *)
Definition placeholder : PlayingField :=
  mkPlayingField [mkCell (mkCoords 0 0) false].

(** A field that stores a dead placeholder and an alive cell. *)
Definition placeholderAndLife : PlayingField :=
  mkPlayingField [mkCell (mkCoords 0 0) false; mkCell (mkCoords 1 0) true].

(** Two live cells, one above the other, in the column 2^53: the first
    column whose right-hand neighbor is not a double. *)
Definition beyondSafe : PlayingField :=
  mkPlayingField [mkCell (mkCoords (2 ^ 53) 0) true;
                  mkCell (mkCoords (2 ^ 53) 1) true].

(** * The store: arrays and cell objects held by reference

    A JavaScript array holds references to its elements, and a Cell is a
    mutable object. The model below keeps both in a store: [this.cells]
    is a reference to an array, the array is a list of references to cell
    objects. A method is a state transformer on the store that fails when
    it follows a reference the store does not have. A PlayingField object
    is passed by value as the array reference it holds; a method that
    assigns [this.cells] returns the updated object. *)

Module Heap.

Definition ref := nat.

Record Store := mkStore {
  arrays : list (list ref);
  objects : list Cell
}.

(** [private cells: Cell[]] *)
Record PlayingField := mkPlayingField { cells : ref }.

Definition M (A : Type) : Type := Store → option (A * Store).

Definition ret {A} (a : A) : M A := λ s, Some (a, s).

Definition bind {A B} (m : M A) (k : A → M B) : M B :=
  λ s, match m s with Some (a, s') => k a s' | None => None end.

Definition fail {A} : M A := λ _, None.

Notation "x <- m ;; k" := (bind m (λ x, k))
  (at level 100, m at next level, right associativity).
Notation "m ;;; k" := (bind m (λ _, k))
  (at level 100, right associativity).

(** Allocation takes the next free index of the store. *)
Definition newArray (l : list ref) : M ref :=
  λ s, Some (length (arrays s), mkStore (arrays s ++ [l]) (objects s)).

Definition readArray (a : ref) : M (list ref) :=
  λ s, match arrays s !! a with Some l => Some (l, s) | None => None end.

Definition writeArray (a : ref) (l : list ref) : M unit :=
  λ s, match arrays s !! a with
       | Some _ => Some ((), mkStore (<[a := l]> (arrays s)) (objects s))
       | None => None
       end.

Definition newCell (c : Cell) : M ref :=
  λ s, Some (length (objects s), mkStore (arrays s) (objects s ++ [c])).

Definition readCell (r : ref) : M Cell :=
  λ s, match objects s !! r with Some c => Some (c, s) | None => None end.

Definition writeCell (r : ref) (c : Cell) : M unit :=
  λ s, match objects s !! r with
       | Some _ => Some ((), mkStore (arrays s) (<[r := c]> (objects s)))
       | None => None
       end.

Fixpoint mapM {A B} (f : A → M B) (l : list A) : M (list B) :=
  match l with
  | [] => ret []
  | a :: l' => b <- f a ;; bs <- mapM f l' ;; ret (b :: bs)
  end.

Fixpoint foldM {A S} (f : S → A → M S) (s : S) (l : list A) : M S :=
  match l with
  | [] => ret s
  | a :: l' => s' <- f s a ;; foldM f s' l'
  end.

(** The objects an array of references points to. *)
Definition readCells (l : list ref) : M (list Cell) := mapM readCell l.

(** [this.cells.push(r)] *)
Definition push (a : ref) (r : ref) : M unit :=
  l <- readArray a ;; writeArray a (l ++ [r]).

(** [constructor(cells?: Cell[]) { this.cells = cells || []; }]: the field
    keeps the very array it is given. *)
Definition newPlayingField (arg : option ref) : M PlayingField :=
  match arg with
  | Some a => ret (mkPlayingField a)
  | None => a <- newArray [] ;; ret (mkPlayingField a)
  end.

(** [hasLifeAt] (lines 45-53). The array that [filter] builds is dropped
    once its length is read; it is not allocated in the store. *)
Definition hasLifeAt (this : PlayingField) (c : Coords) : M bool :=
  l <- readArray (cells this) ;;
  cs <- readCells l ;;
  ret ((0 <? Z.of_nat (length l))
       && (0 <? Z.of_nat (length
             (jsFilter (λ cell : Cell, sameCoords cell c && hasLife cell)
                cs)))).

(** [hasCellAt] (lines 56-63). *)
Definition hasCellAt (this : PlayingField) (c : Coords) : M bool :=
  l <- readArray (cells this) ;;
  cs <- readCells l ;;
  ret ((0 <? Z.of_nat (length l))
       && (0 <? Z.of_nat (length
             (jsFilter (λ cell : Cell, sameCoords cell c) cs)))).

(** [findCellAt] (lines 66-70). *)
Definition findCellAt (this : PlayingField) (c : Coords) : M Z :=
  l <- readArray (cells this) ;;
  cs <- readCells l ;;
  ret (findIndex (λ cell : Cell, sameCoords cell c) cs).

(** [addLifeAt] (lines 73-79): the flag is set on the object that the
    array element refers to; the pushed cell is a new object. *)
Definition addLifeAt (this : PlayingField) (c : Coords) : M unit :=
  l <- readArray (cells this) ;;
  i <- findCellAt this c ;;
  if negb (Z.of_nat (length l) =? 0) && negb (i =? -1)
  then j <- findCellAt this c ;;
       match l !! Z.to_nat j with
       | Some r => cell <- readCell r ;; writeCell r (setLife cell)
       | None => fail
       end
  else r <- newCell (mkCell c true) ;; push (cells this) r.

(** [killLifeAt] (lines 82-86): [splice] changes the array in place. *)
Definition killLifeAt (this : PlayingField) (c : Coords) : M unit :=
  l <- readArray (cells this) ;;
  i <- findCellAt this c ;;
  if negb (Z.of_nat (length l) =? 0) && negb (i =? -1)
  then j <- findCellAt this c ;;
       writeArray (cells this) (delete (Z.to_nat j) l)
  else ret ().

Definition forNeighbors {S} (body : Z → Z → S → M S) (s : S) : M S :=
  foldM (λ s i,
    foldM (λ s j,
      if (i =? 0) && (j =? 0) then ret s else body i j s) s offsets)
    s offsets.

(** [cellLivesNextRound] (lines 89-108), on a reference to the cell. *)
Definition cellLivesNextRound (this : PlayingField) (r : ref) : M bool :=
  cell <- readCell r ;;
  neighbors <- forNeighbors (λ i j neighbors,
    b <- hasLifeAt this (mkCoords (jsAdd (x cell) i) (jsAdd (y cell) j)) ;;
    ret (if b then neighbors + 1 else neighbors)) 0 ;;
  cell' <- readCell r ;;
  ret ((neighbors =? 2) && hasLife cell' || (neighbors =? 3)).

(** [expandCellsWithNeighbors] (lines 112-129): [forEach] runs over the
    elements the array has when the loop starts. *)
Definition expandCellsWithNeighbors (this : PlayingField) : M unit :=
  l <- readArray (cells this) ;;
  foldM (λ _ r,
    cell <- readCell r ;;
    forNeighbors (λ i j _,
      b <- hasCellAt this (mkCoords (jsAdd (x cell) i) (jsAdd (y cell) j)) ;;
      if negb b
      then r' <- newCell (mkCell (mkCoords (jsAdd (x cell) i)
                                    (jsAdd (y cell) j)) false) ;;
           push (cells this) r'
      else ret ()) ()) () l.

(** [toggleCell] (lines 132-138). *)
Definition toggleCell (this : PlayingField) (c : Coords) : M unit :=
  b <- hasLifeAt this c ;;
  if b then killLifeAt this c else addLifeAt this c.

(** [Array.prototype.filter] on the flag of the referenced objects; the
    result is a new array of the same references. *)
Definition filterAlive (l : list ref) : M ref :=
  cs <- readCells l ;;
  newArray (fst <$> List.filter (λ rc : ref * Cell, hasLife rc.2) (zip l cs)).

(** [spawnNew] (lines 141-160): [map] builds new cell objects in a new
    array, each [filter] builds a new array; the result is the new field
    and [this] with its reassigned [cells]. *)
Definition spawnNew (this : PlayingField) : M (PlayingField * PlayingField) :=
  expandCellsWithNeighbors this ;;;
  l <- readArray (cells this) ;;
  mapped <- mapM (λ r,
    cell <- readCell r ;;
    b <- cellLivesNextRound this r ;;
    newCell (mkCell (mkCoords (x cell) (y cell)) b)) l ;;
  am <- newArray mapped ;;
  lm <- readArray am ;;
  cells' <- filterAlive lm ;;
  l' <- readArray (cells this) ;;
  kept <- filterAlive l' ;;
  f <- newPlayingField (Some cells') ;;
  ret (f, mkPlayingField kept).

(** [getCells] (lines 177-179): a new array with the same references. *)
Definition getCells (this : PlayingField) : M ref :=
  l <- readArray (cells this) ;; newArray (map (λ d : ref, d) l).

(** [getDifferenceCells] (lines 164-174). *)
Definition getDifferenceCells (this otherField : PlayingField) : M ref :=
  differenceCells <- newArray [] ;;
  a <- getCells otherField ;;
  l <- readArray a ;;
  foldM (λ _ r,
    cell <- readCell r ;;
    b <- hasLifeAt this cell ;;
    if negb b then push differenceCells r else ret ()) () l ;;;
  ret differenceCells.

(** [getClone] (lines 181-183). *)
Definition getClone (this : PlayingField) : M PlayingField :=
  a <- getCells this ;; newPlayingField (Some a).

(** What a field stores, read through the store: the references [l] of
    its array point to the cell values [cs]. *)
Definition points (s : Store) (l : list ref) (cs : list Cell) : Prop :=
  Forall2 (λ r cell, objects s !! r = Some cell) l cs.

Definition holds (s : Store) (this : PlayingField)
    (l : list ref) (cs : list Cell) : Prop :=
  arrays s !! cells this = Some l ∧ points s l cs.

(** What a method leaves alone: a store [s'] keeps the arrays of [s]
    other than [a], and the objects of [s] other than those in [rs]. *)
Definition keepsArrays (a : ref) (s s' : Store) : Prop :=
  ∀ b l, b ≠ a → arrays s !! b = Some l → arrays s' !! b = Some l.

Definition keepsObjects (rs : list ref) (s s' : Store) : Prop :=
  ∀ r cell, r ∉ rs → objects s !! r = Some cell → objects s' !! r = Some cell.

(** The body of the inner loop of [expandCellsWithNeighbors] at one
    neighbor coordinate. *)
Definition pushIfAbsent (this : PlayingField) (_ : unit) (c : Coords)
    : M unit :=
  b <- hasCellAt this c ;;
  if negb b
  then r' <- newCell (mkCell c false) ;; push (cells this) r'
  else ret ().

(** A field over one dead placeholder at (0, 0), its clone, and a toggle
    of the original at (0, 0): the life the clone reports at (0, 0)
    before and after the toggle. *)
Definition cloneThenToggle : M (bool * bool) :=
  r <- newCell (mkCell (mkCoords 0 0) false) ;;
  a <- newArray [r] ;;
  f <- newPlayingField (Some a) ;;
  g <- getClone f ;;
  before <- hasLifeAt g (mkCoords 0 0) ;;
  toggleCell f (mkCoords 0 0) ;;;
  after <- hasLifeAt g (mkCoords 0 0) ;;
  ret (before, after).

Definition emptyStore : Store := mkStore [] [].

End Heap.

(** * The class Game (gameOfLife.ts, lines 190-727): its playing fields

    A Game object holds the history [playingFields] and
    [currentPlayingField] as references to PlayingField objects, which the
    methods of PlayingField mutate. The state below is the part of a Game
    that these methods act on: the store of arrays and cells, the table of
    PlayingField objects (a reference is an index into it), the history,
    the current field and the flag [playing]. The canvas and the controls
    are not part of the state; [draw] returns the cells it fills on the
    canvas. The pixel arithmetic of [coordsInBounds] and
    [pixelsToCoordinates] is floating point: the first is a parameter of
    the methods that call it, the second is applied by the caller and its
    result is the argument of [populationWatcher].

    [currentPlayingField] is [undefined] once [generationHandler] has read
    the history outside its bounds, and a method called on [undefined]
    throws a TypeError. A throw ends the handler and keeps the state as
    the handler has left it, so a method ends with a completion, normal or
    TypeError, and a state. The result [None] is kept for a reference
    that the tables of the model do not have, which never happens in a
    state a game reaches. *)

Module Game.

Record State := mkState {
  store : Heap.Store;
  fieldObjects : list Heap.PlayingField;
  playingFields : list nat;
  currentPlayingField : option nat;
  playing : bool
}.

Inductive Completion (A : Type) : Type :=
  | Normal (a : A)
  | TypeError.

Arguments Normal {A} a.
Arguments TypeError {A}.

Definition GM (A : Type) : Type := State → option (Completion A * State).

Definition ret {A} (a : A) : GM A := λ st, Some (Normal a, st).

Definition throw {A} : GM A := λ st, Some (TypeError, st).

Definition bind {A B} (m : GM A) (k : A → GM B) : GM B :=
  λ st, match m st with
        | Some (Normal a, st') => k a st'
        | Some (TypeError, st') => Some (TypeError, st')
        | None => None
        end.

Notation "x <- m ;; k" := (bind m (λ x, k))
  (at level 100, m at next level, right associativity).
Notation "m ;;; k" := (bind m (λ _, k))
  (at level 100, right associativity).

(** A method of PlayingField run on the store of the game. *)
Definition liftStore {A} (m : Heap.M A) : GM A :=
  λ st, match m (store st) with
        | Some (a, s') =>
            Some (Normal a,
                  mkState s' (fieldObjects st) (playingFields st)
                    (currentPlayingField st) (playing st))
        | None => None
        end.

Definition getObject (i : nat) : GM Heap.PlayingField :=
  λ st, match fieldObjects st !! i with
        | Some fo => Some (Normal fo, st)
        | None => None
        end.

Definition setObject (i : nat) (fo : Heap.PlayingField) : GM unit :=
  λ st, match fieldObjects st !! i with
        | Some _ =>
            Some (Normal (),
                  mkState (store st) (<[i := fo]> (fieldObjects st))
                    (playingFields st) (currentPlayingField st)
                    (playing st))
        | None => None
        end.

Definition newObject (fo : Heap.PlayingField) : GM nat :=
  λ st, Some (Normal (length (fieldObjects st)),
              mkState (store st) (fieldObjects st ++ [fo])
                (playingFields st) (currentPlayingField st) (playing st)).

Definition getCurrent : GM (option nat) :=
  λ st, Some (Normal (currentPlayingField st), st).

Definition setCurrent (f : option nat) : GM unit :=
  λ st, Some (Normal (),
              mkState (store st) (fieldObjects st) (playingFields st)
                f (playing st)).

Definition getHistory : GM (list nat) :=
  λ st, Some (Normal (playingFields st), st).

Definition setHistory (h : list nat) : GM unit :=
  λ st, Some (Normal (),
              mkState (store st) (fieldObjects st) h
                (currentPlayingField st) (playing st)).

Definition getPlaying : GM bool := λ st, Some (Normal (playing st), st).

Definition setPlaying (b : bool) : GM unit :=
  λ st, Some (Normal (),
              mkState (store st) (fieldObjects st) (playingFields st)
                (currentPlayingField st) b).

(** The receiver of a call [field.method(...)]: the call throws a
    TypeError when [field] is [undefined]. *)
Definition receiver (field : option nat) : GM nat :=
  match field with
  | Some i => ret i
  | None => throw
  end.

(** The calls [field.method(...)] on a PlayingField object held by
    reference. [spawnNew] assigns [this.cells] before it returns the new
    object. *)
Definition fieldNew (arg : option Heap.ref) : GM nat :=
  fo <- liftStore (Heap.newPlayingField arg) ;; newObject fo.

Definition fieldToggleCell (field : option nat) (c : Coords) : GM unit :=
  i <- receiver field ;;
  fo <- getObject i ;; liftStore (Heap.toggleCell fo c).

Definition fieldSpawnNew (field : option nat) : GM nat :=
  i <- receiver field ;;
  fo <- getObject i ;;
  r <- liftStore (Heap.spawnNew fo) ;;
  setObject i r.2 ;;;
  newObject r.1.

Definition fieldGetClone (field : option nat) : GM nat :=
  i <- receiver field ;;
  fo <- getObject i ;; g <- liftStore (Heap.getClone fo) ;; newObject g.

Definition fieldGetCells (field : option nat) : GM Heap.ref :=
  i <- receiver field ;;
  fo <- getObject i ;; liftStore (Heap.getCells fo).

Definition fieldGetDifferenceCells (field : option nat) (j : nat)
    : GM Heap.ref :=
  i <- receiver field ;;
  fo <- getObject i ;;
  otherField <- getObject j ;;
  liftStore (Heap.getDifferenceCells fo otherField).

(** [draw] (lines 685-726): the cells for which a circle is filled, in
    order. Without [oldField] nothing is drawn when the current field
    stores no cell. *)
Definition draw (coordsInBounds : Coords → bool) (oldField : option nat)
    : GM (list Cell) :=
  cur <- getCurrent ;;
  nothing <- match oldField with
             | None =>
                 a <- fieldGetCells cur ;;
                 l <- liftStore (Heap.readArray a) ;;
                 ret (Z.of_nat (length l) =? 0)
             | Some _ => ret false
             end ;;
  if nothing then ret []
  else
    a <- match oldField with
         | None => fieldGetCells cur
         | Some old => fieldGetDifferenceCells cur old
         end ;;
    l <- liftStore (Heap.readArray a) ;;
    cs <- liftStore (Heap.readCells l) ;;
    ret (jsFilter (λ cell : Cell, coordsInBounds cell) cs).

(** [stop] (lines 533-552). *)
Definition stop : GM unit := setPlaying false.

(** [initPlayingField] (lines 250-260); it ends in [initControls],
    which calls [assignControls], which calls [stop]. *)
Definition initPlayingField : GM unit :=
  setHistory [] ;;;
  f <- fieldNew None ;;
  setCurrent (Some f) ;;;
  h <- getHistory ;;
  setHistory (h ++ [f]) ;;;
  stop.

(** [populationWatcher] (lines 319-330), on the coordinate that
    [pixelsToCoordinates] gives for the click: the cells erased and the
    cells drawn. *)
Definition populationWatcher (coordsInBounds : Coords → bool) (c : Coords)
    : GM (list Cell * list Cell) :=
  cur <- getCurrent ;;
  previousField <- fieldGetClone cur ;;
  cur' <- getCurrent ;;
  fieldToggleCell cur' c ;;;
  erased <- draw coordsInBounds (Some previousField) ;;
  drawn <- draw coordsInBounds None ;;
  ret (erased, drawn).

(** [play] (lines 556-580): one generation. The result is [None] when
    the call returns at once; otherwise the cells erased and the cells
    drawn. The next call that [setTimeout] schedules when [step] is false
    is another call of [play]. *)
Definition play (coordsInBounds : Coords → bool) (step : bool)
    : GM (option (list Cell * list Cell)) :=
  isPlaying <- getPlaying ;;
  if negb isPlaying && negb step then ret None
  else
    previousField <- getCurrent ;;
    next <- fieldSpawnNew previousField ;;
    setCurrent (Some next) ;;;
    h <- getHistory ;;
    setHistory (h ++ [next]) ;;;
    erased <- draw coordsInBounds previousField ;;
    drawn <- draw coordsInBounds None ;;
    ret (Some (erased, drawn)).

(** [stepHandler] (lines 342-345). *)
Definition stepHandler (coordsInBounds : Coords → bool)
    : GM (option (list Cell * list Cell)) :=
  isPlaying <- getPlaying ;;
  if negb isPlaying then play coordsInBounds true else ret None.

(** [start] (lines 510-530). *)
Definition start (coordsInBounds : Coords → bool)
    : GM (option (list Cell * list Cell)) :=
  setPlaying true ;;; play coordsInBounds false.

(** [resetHandler] (lines 348-352). *)
Definition resetHandler : GM unit :=
  setHistory [] ;;; initPlayingField.

(** [killUnseenHandler] (lines 355-364): [filter] builds a new array of
    the same cell objects. *)
Definition killUnseenHandler (coordsInBounds : Coords → bool) : GM unit :=
  cur <- getCurrent ;;
  a <- fieldGetCells cur ;;
  l <- liftStore (Heap.readArray a) ;;
  cs <- liftStore (Heap.readCells l) ;;
  newCells <- liftStore (Heap.newArray
    (fst <$> List.filter (λ rc : Heap.ref * Cell, coordsInBounds rc.2)
               (zip l cs))) ;;
  f <- fieldNew (Some newCells) ;;
  setCurrent (Some f) ;;;
  h <- getHistory ;;
  setHistory (h ++ [f]).

(** [generationHandler] (lines 440-448), on the number that [parseInt]
    reads from the slider. [playingFields[generation - 1]] is [undefined]
    outside the history; it is assigned to [currentPlayingField] all the
    same, and the [draw] that follows throws. *)
Definition generationHandler (coordsInBounds : Coords → bool)
    (generation : Z) : GM (list Cell) :=
  h <- getHistory ;;
  setCurrent (if 0 <=? generation - 1
              then h !! Z.to_nat (generation - 1) else None) ;;;
  draw coordsInBounds None.

(** [new Game(element)]: the constructor ends in [initPlayingField]. *)
Definition blank : State := mkState (Heap.mkStore [] []) [] [] None false.

Definition newGame : option (Completion unit * State) :=
  initPlayingField blank.

(** The state that [new Game(element)] leaves: one empty field, which is
    the history and the current field. *)
Definition started : State :=
  mkState (Heap.mkStore [[]] []) [Heap.mkPlayingField 0%nat] [0%nat]
    (Some 0%nat) false.

(** What the field object [i] stores. *)
Definition viewOf (st : State) (i : nat) (cs : list Cell) : Prop :=
  ∃ fo l, fieldObjects st !! i = Some fo ∧ Heap.holds (store st) fo l cs.

(** No two PlayingField objects hold the same array; every one of them
    stores only alive cells, with pairwise-distinct coordinates; the
    current field, unless it is [undefined], is an entry of the history;
    the entries of the history are PlayingField objects. *)
Definition Inv (st : State) : Prop :=
  NoDup (Heap.cells <$> fieldObjects st)
  ∧ (∀ fo, fo ∈ fieldObjects st →
       ∃ l cs, Heap.holds (store st) fo l cs
               ∧ onlyAlive (mkPlayingField cs)
               ∧ uniqueCoords (mkPlayingField cs))
  ∧ (∀ i, currentPlayingField st = Some i → i ∈ playingFields st)
  ∧ (∀ i, i ∈ playingFields st → (i < length (fieldObjects st))%nat).

(** The first two parts of [Inv], on a store and a table of objects. *)
Definition tableOk (s : Heap.Store) (fos : list Heap.PlayingField) : Prop :=
  NoDup (Heap.cells <$> fos)
  ∧ (∀ fo, fo ∈ fos →
       ∃ l cs, Heap.holds s fo l cs
               ∧ onlyAlive (mkPlayingField cs)
               ∧ uniqueCoords (mkPlayingField cs)).

(** The handlers of the interface, from any state, whether they return
    or throw. *)
Inductive Step : State → State → Prop :=
  | Step_populationWatcher inB c st out st' :
      populationWatcher inB c st = Some (out, st') → Step st st'
  | Step_play inB step st out st' :
      play inB step st = Some (out, st') → Step st st'
  | Step_stepHandler inB st out st' :
      stepHandler inB st = Some (out, st') → Step st st'
  | Step_start inB st out st' :
      start inB st = Some (out, st') → Step st st'
  | Step_stop st out st' :
      stop st = Some (out, st') → Step st st'
  | Step_resetHandler st out st' :
      resetHandler st = Some (out, st') → Step st st'
  | Step_killUnseenHandler inB st out st' :
      killUnseenHandler inB st = Some (out, st') → Step st st'
  | Step_generationHandler inB g st out st' :
      generationHandler inB g st = Some (out, st') → Step st st'.

(** The states of a game that was not loaded from a file. *)
Inductive Reachable : State → Prop :=
  | Reachable_new out st : newGame = Some (out, st) → Reachable st
  | Reachable_step st st' : Reachable st → Step st st' → Reachable st'.

(** A store that keeps every array and every cell object of another. *)
Definition extends (s s' : Heap.Store) : Prop :=
  (∀ b l, Heap.arrays s !! b = Some l → Heap.arrays s' !! b = Some l)
  ∧ Heap.keepsObjects [] s s'.

(** A state that differs from another by allocations in the store only. *)
Definition sameGame (st st' : State) : Prop :=
  fieldObjects st' = fieldObjects st
  ∧ playingFields st' = playingFields st
  ∧ currentPlayingField st' = currentPlayingField st
  ∧ playing st' = playing st
  ∧ extends (store st) (store st').

End Game.

(** * Definitions for the further properties *)

(** A coordinate, a cell and a field moved by the vector [d]. *)
Definition shiftCoords (d c : Coords) : Coords :=
  mkCoords (x c + x d) (y c + y d).

Definition shiftCell (d : Coords) (cell : Cell) : Cell :=
  mkCell (shiftCoords d cell) (hasLife cell).

Definition shiftField (d : Coords) (this : PlayingField) : PlayingField :=
  mkPlayingField (shiftCell d <$> cells this).

(** The blinker in a store: one array over three cell objects. *)
Definition blinkerStore : Heap.Store :=
  Heap.mkStore [[0; 1; 2]%nat] (cells blinkerRow).

Definition blinkerObject : Heap.PlayingField := Heap.mkPlayingField 0%nat.

(** A run of clicks on a canvas that shows every cell. *)
Fixpoint clicks (cs : list Coords) (st : Game.State) : option Game.State :=
  match cs with
  | [] => Some st
  | c :: cs' =>
      match Game.populationWatcher (λ _, true) c st with
      | Some (_, st') => clicks cs' st'
      | None => None
      end
  end.

(** The game after clicks on the three cells of the blinker. *)
Definition blinkerGame : Game.State :=
  Eval vm_compute in
    match clicks (coords <$> cells blinkerRow) Game.started with
    | Some st => st
    | None => Game.started
    end.

(** The same game one step later: a history of two generations. *)
Definition steppedGame : Game.State :=
  Eval vm_compute in
    match Game.stepHandler (λ _, true) blinkerGame with
    | Some (_, st) => st
    | None => blinkerGame
    end.

(** That game after the generation slider was set to 5, outside its
    history of two: the handler has thrown and [currentPlayingField] is
    [undefined]. *)
Definition derailedGame : Game.State :=
  Eval vm_compute in
    match Game.generationHandler (λ _, true) 5 steppedGame with
    | Some (_, st) => st
    | None => steppedGame
    end.

(** * Properties *)

(** ** Queries *)

Lemma sameCoords_true (cell : Cell) (c : Coords) :
  sameCoords cell c = true ↔ coords cell = c.
Proof.
  unfold sameCoords. rewrite andb_true_iff, !Z.eqb_eq.
  destruct cell as [[a b] h], c as [a' b']; simpl. split.
  - intros [-> ->]. done.
  - intros [= -> ->]. done.
Qed.

Lemma someMatch_existsb {A} (p : A → bool) (l : list A) :
  (0 <? Z.of_nat (length l)) && (0 <? Z.of_nat (length (jsFilter p l)))
  = existsb p l.
Proof.
  unfold jsFilter. induction l as [|a l IH]; [done|].
  cbn [existsb List.filter]. destruct (p a) eqn:Hp; [done|].
  rewrite <- IH. cbn [orb]. destruct l as [|b l]; [done|]. done.
Qed.

Lemma hasLifeAt_existsb (this : PlayingField) (c : Coords) :
  hasLifeAt this c
  = existsb (λ cell : Cell, sameCoords cell c && hasLife cell) (cells this).
Proof. apply someMatch_existsb. Qed.

Lemma hasCellAt_existsb (this : PlayingField) (c : Coords) :
  hasCellAt this c = existsb (λ cell : Cell, sameCoords cell c) (cells this).
Proof. apply someMatch_existsb. Qed.

Lemma hasLifeAt_true (this : PlayingField) (c : Coords) :
  hasLifeAt this c = true
  ↔ ∃ cell : Cell, cell ∈ cells this ∧ coords cell = c ∧ hasLife cell = true.
Proof.
  rewrite hasLifeAt_existsb, existsb_exists. split.
  - intros (cell & Hin & Hp). apply andb_true_iff in Hp as [Hc Hl].
    exists cell. by rewrite list_elem_of_In, <- sameCoords_true.
  - intros (cell & Hin & Hc & Hl). exists cell.
    rewrite <- list_elem_of_In, andb_true_iff, sameCoords_true. done.
Qed.

Lemma hasCellAt_true (this : PlayingField) (c : Coords) :
  hasCellAt this c = true ↔ c ∈ coords <$> cells this.
Proof.
  rewrite hasCellAt_existsb, existsb_exists, list_elem_of_fmap. split.
  - intros (cell & Hin & Hp). exists cell.
    by rewrite list_elem_of_In, (symmetry_iff (=)), <- sameCoords_true.
  - intros (cell & Hc & Hin). exists cell.
    by rewrite <- list_elem_of_In, sameCoords_true.
Qed.

Lemma hasLifeAt_false (this : PlayingField) (c : Coords) :
  hasLifeAt this c = false
  ↔ ∀ cell : Cell, cell ∈ cells this → coords cell = c → hasLife cell = false.
Proof.
  rewrite <- not_true_iff_false, hasLifeAt_true. split.
  - intros Hno cell Hin Hc. destruct (hasLife cell) eqn:Hl; [|done].
    destruct Hno. eauto.
  - intros Hall (cell & Hin & Hc & Hl). rewrite (Hall cell) in Hl; done.
Qed.

Lemma hasLifeAt_empty (c : Coords) : hasLifeAt (newPlayingField None) c = false.
Proof. done. Qed.

(** ** Sums of coordinates *)

Lemma roundDouble_exact (z : Z) : Z.abs z ≤ 2 ^ 53 → roundDouble z = z.
Proof.
  intros Hz. unfold roundDouble.
  destruct (Z.ltb_spec (Z.abs z) (2 ^ 53)) as [|Hge]; [done|].
  assert (z = 2 ^ 53 ∨ z = - 2 ^ 53) as [-> | ->] by lia; by vm_compute.
Qed.

Lemma roundDouble_large (z : Z) :
  2 ^ 53 ≤ Z.abs z → 2 ^ 53 ≤ Z.abs (roundDouble z).
Proof.
  intros Hz. unfold roundDouble.
  destruct (Z.ltb_spec (Z.abs z) (2 ^ 53)) as [|_]; [lia|].
  set (a := Z.abs z) in *. set (ulp := 2 ^ (Z.log2 a - 52)).
  assert (0 < a) as Ha by lia.
  pose proof (Z.log2_spec a Ha) as [Hlo _].
  assert (53 ≤ Z.log2 a) as Hl.
  { apply Z.log2_le_pow2; [done|lia]. }
  assert (2 ^ Z.log2 a = 2 ^ 52 * ulp) as Hpow.
  { unfold ulp. rewrite <- Z.pow_add_r by lia. f_equal. lia. }
  assert (2 ≤ ulp) as Hulp.
  { unfold ulp. change 2 with (2 ^ 1) at 1. apply Z.pow_le_mono_r; lia. }
  assert (2 ^ 52 ≤ a / ulp) as Hq.
  { apply Z.div_le_lower_bound; lia. }
  set (q := a / ulp) in *. set (r := a mod ulp).
  set (q' := if 2 * r <? ulp then q
             else if ulp <? 2 * r then q + 1
             else if Z.even q then q else q + 1).
  assert (q ≤ q') as Hq' by (unfold q'; repeat case_match; lia).
  assert (2 ^ 53 ≤ q' * ulp) as Hres.
  { change (2 ^ 53) with (2 ^ 52 * 2). apply Z.mul_le_mono_nonneg; lia. }
  rewrite Z.abs_mul. assert (Z.abs (Z.sgn z) = 1) as -> by lia. lia.
Qed.

(** The doubles from 2^53 on: the multiples of a power of two with a
    quotient of 53 bits. They are fixed points of the rounding. *)
Lemma roundDouble_multiple (q e : Z) :
  1 ≤ e → 2 ^ 52 ≤ q < 2 ^ 53 → roundDouble (q * 2 ^ e) = q * 2 ^ e.
Proof.
  intros He Hq. unfold roundDouble.
  assert (2 ≤ 2 ^ e) as Hulp.
  { change 2 with (2 ^ 1) at 1. apply Z.pow_le_mono_r; lia. }
  assert (2 ^ 53 ≤ q * 2 ^ e) as Hbig.
  { change (2 ^ 53) with (2 ^ 52 * 2). apply Z.mul_le_mono_nonneg; lia. }
  rewrite (Z.abs_eq (q * 2 ^ e)) by lia.
  destruct (Z.ltb_spec (q * 2 ^ e) (2 ^ 53)) as [|_]; [lia|].
  assert (Z.log2 (q * 2 ^ e) = 52 + e) as ->.
  { apply Z.log2_unique; [lia|].
    replace (Z.succ (52 + e)) with (53 + e) by lia.
    rewrite !Z.pow_add_r by lia. split.
    - apply Z.mul_le_mono_nonneg_r; lia.
    - apply Z.mul_lt_mono_pos_r; lia. }
  replace (52 + e - 52) with e by lia.
  assert (2 ^ e ≠ 0) as Hnz by lia.
  rewrite (Z.div_mul q (2 ^ e) Hnz), (Z.mod_mul q (2 ^ e) Hnz).
  destruct (Z.ltb_spec (2 * 0) (2 ^ e)) as [_|]; [|lia].
  rewrite Z.sgn_pos by lia. lia.
Qed.

Lemma roundDouble_opp (z : Z) : roundDouble (- z) = - roundDouble z.
Proof.
  unfold roundDouble. rewrite Z.abs_opp, Z.sgn_opp.
  destruct (Z.abs z <? 2 ^ 53); lia.
Qed.

(** The result of a rounding is a double: rounding it again changes
    nothing. *)
Lemma roundDouble_idemp (z : Z) : roundDouble (roundDouble z) = roundDouble z.
Proof.
  assert (∀ a, 0 ≤ a →
            roundDouble a = a
            ∨ ∃ q e, 1 ≤ e ∧ 2 ^ 52 ≤ q < 2 ^ 53
                     ∧ roundDouble a = q * 2 ^ e) as Hshape.
  { intros a Ha. unfold roundDouble. rewrite (Z.abs_eq a) by done.
    destruct (Z.ltb_spec a (2 ^ 53)) as [|Hge]; [by left|right].
    assert (0 < a) as Ha' by lia.
    pose proof (Z.log2_spec a Ha') as [Hlo Hhi].
    assert (53 ≤ Z.log2 a) as Hl by (apply Z.log2_le_pow2; [done|lia]).
    set (e := Z.log2 a - 52) in *.
    assert (Z.log2 a = 52 + e) as Heq by (unfold e; lia).
    rewrite Heq in Hlo, Hhi.
    replace (Z.succ (52 + e)) with (53 + e) in Hhi by lia.
    rewrite Z.pow_add_r in Hlo, Hhi by lia.
    assert (0 < 2 ^ e) as Hulp by (apply Z.pow_pos_nonneg; lia).
    assert (2 ^ 52 ≤ a / 2 ^ e < 2 ^ 53) as Hq.
    { split; [apply Z.div_le_lower_bound; lia|].
      apply Z.div_lt_upper_bound; lia. }
    set (q := a / 2 ^ e) in *. set (r := a mod 2 ^ e).
    set (q' := if 2 * r <? 2 ^ e then q
               else if 2 ^ e <? 2 * r then q + 1
               else if Z.even q then q else q + 1).
    assert (q' = q ∨ q' = q + 1) as Hq'
      by (unfold q'; repeat case_match; tauto).
    rewrite Z.sgn_pos, Z.mul_1_l by done.
    destruct (decide (q' < 2 ^ 53)) as [Hlt|Hcarry].
    - exists q', e. split_and!; [lia..|done].
    - exists (2 ^ 52), (e + 1). split_and!; [lia..|].
      assert (q' = 2 ^ 53) as -> by lia.
      rewrite (Z.pow_add_r 2 e 1) by lia. lia. }
  assert (∀ a, 0 ≤ a → roundDouble (roundDouble a) = roundDouble a) as Hpos.
  { intros a Ha.
    destruct (Hshape a Ha) as [H|(q & e & He & Hq & H)]; rewrite H;
      [done|]. by apply roundDouble_multiple. }
  destruct (Z.le_ge_cases 0 z) as [Hz|Hz]; [by apply Hpos|].
  replace z with (- - z) by lia.
  by rewrite (roundDouble_opp (- z)), (roundDouble_opp (roundDouble (- z))),
       Hpos by lia.
Qed.

(** A sum that is a safe integer is exact, and only such a sum gives a
    safe integer. *)
Lemma jsAdd_exact (a b : Z) : Z.abs (a + b) ≤ 2 ^ 53 → jsAdd a b = a + b.
Proof. apply roundDouble_exact. Qed.

Lemma jsAdd_safe (a b : Z) :
  safeInteger (jsAdd a b) ↔ safeInteger (a + b).
Proof.
  unfold safeInteger, jsAdd. split; intros Hs.
  - destruct (Z.lt_ge_cases (Z.abs (a + b)) (2 ^ 53)) as [|Hge]; [done|].
    apply roundDouble_large in Hge. lia.
  - rewrite roundDouble_exact; lia.
Qed.

(** From 2^53 on the sums round: a cell there meets itself among its
    neighbors. *)
Example jsAdd_rounds :
  jsAdd (2 ^ 53) 1 = 2 ^ 53 ∧ jsAdd (2 ^ 53) (-1) = 2 ^ 53 - 1
  ∧ jsAdd (2 ^ 53 + 2) (-1) = 2 ^ 53 ∧ jsAdd (2 ^ 53 + 2) 1 = 2 ^ 53 + 4.
Proof. by vm_compute. Qed.

(** ** The neighbor loops *)

Lemma forNeighbors_probes {S} (step : S → Coords → S) (c : Coords) (s : S) :
  forNeighbors
    (λ i j s, step s (mkCoords (jsAdd (x c) i) (jsAdd (y c) j))) s
  = foldl step s (jsNeighbors c).
Proof. reflexivity. Qed.

Lemma mooreNeighbors_offsets (c : Coords) :
  mooreNeighbors c
  = (λ ij : Z * Z, mkCoords (x c + ij.1) (y c + ij.2)) <$> neighborOffsets.
Proof.
  unfold mooreNeighbors, neighborOffsets. cbn. by rewrite !Z.add_0_r.
Qed.

Lemma offsets_small (ij : Z * Z) :
  ij ∈ neighborOffsets → -1 ≤ ij.1 ≤ 1 ∧ -1 ≤ ij.2 ≤ 1.
Proof.
  unfold neighborOffsets. rewrite !elem_of_cons, elem_of_nil.
  intros H. repeat destruct H as [H|H]; try done; subst ij; simpl; lia.
Qed.

(** Around a cell with safe coordinates the loops compute the Moore
    neighborhood. *)
Lemma jsNeighbors_safe (c : Coords) :
  safeCoords c → jsNeighbors c = mooreNeighbors c.
Proof.
  intros [Hx Hy]. unfold safeInteger in *.
  rewrite mooreNeighbors_offsets. unfold jsNeighbors.
  apply list_fmap_ext. intros _ ij Hin%list_elem_of_lookup_2.
  apply offsets_small in Hin. unfold probe.
  rewrite !jsAdd_exact; [done|lia..].
Qed.

(** Where the live cells have safe coordinates, a rounded sum finds life
    exactly where the exact sum does. *)
Lemma safeLife_hasLifeAt (this : PlayingField) (c : Coords) :
  safeLife this → hasLifeAt this c = true → safeCoords c.
Proof.
  intros Hs (cell & Hin & <- & Hl)%hasLifeAt_true. by apply Hs.
Qed.

Lemma probe_life (this : PlayingField) (c : Coords) (ij : Z * Z) :
  safeLife this →
  hasLifeAt this (probe c ij)
  = hasLifeAt this (mkCoords (x c + ij.1) (y c + ij.2)).
Proof.
  intros Hs. unfold probe.
  destruct (decide (safeInteger (x c + ij.1) ∧ safeInteger (y c + ij.2)))
    as [[Hx Hy]|Hno].
  - unfold safeInteger in *. rewrite !jsAdd_exact; [done|lia..].
  - transitivity false; [|symmetry]; apply not_true_iff_false;
      intros [Hx Hy]%(safeLife_hasLifeAt this _ Hs); simpl in *.
    + apply Hno. by rewrite <- !jsAdd_safe.
    + by apply Hno.
Qed.

Lemma count_foldl {A} (p : A → bool) (l : list A) (n : Z) :
  foldl (λ n a, if p a then n + 1 else n) n l
  = n + Z.of_nat (length (List.filter p l)).
Proof.
  revert n. induction l as [|a l IH]; intros n; simpl; [lia|].
  rewrite IH. destruct (p a); simpl; lia.
Qed.

Lemma filter_fmap_length {A B} (p : B → bool) (f g : A → B) (l : list A) :
  (∀ a, a ∈ l → p (f a) = p (g a)) →
  length (List.filter p (f <$> l)) = length (List.filter p (g <$> l)).
Proof.
  induction l as [|a l IH]; intros Hfg; [done|]. cbn.
  rewrite (Hfg a) by (by left). destruct (p (g a)); simpl; rewrite IH; try done;
    intros b Hb; apply Hfg; by right.
Qed.

Lemma countNeighbors_probes (this : PlayingField) (cell : Cell) :
  countNeighbors this cell
  = Z.of_nat (length (List.filter (hasLifeAt this) (jsNeighbors cell))).
Proof.
  unfold countNeighbors.
  etrans; [exact (forNeighbors_probes
    (λ n d, if hasLifeAt this d then n + 1 else n) cell 0)|].
  by rewrite count_foldl.
Qed.

Lemma mooreNeighbors_adjacent (c d : Coords) :
  d ∈ mooreNeighbors c ↔ adjacent c d.
Proof.
  unfold mooreNeighbors, adjacent. rewrite !elem_of_cons, elem_of_nil.
  destruct c as [a b], d as [a' b']; simpl. split.
  - intros H. repeat destruct H as [H|H]; try done;
      injection H as -> ->; (split; [lia|split; [lia|]]);
      intros Heq; injection Heq; lia.
  - intros (Hx & Hy & Hne).
    assert (a' = a - 1 ∨ a' = a ∨ a' = a + 1) as Ha by lia.
    assert (b' = b - 1 ∨ b' = b ∨ b' = b + 1) as Hb by lia.
    destruct Ha as [-> | [-> | ->]], Hb as [-> | [-> | ->]]; tauto.
Qed.

Lemma mooreNeighbors_NoDup (c : Coords) : NoDup (mooreNeighbors c).
Proof.
  unfold mooreNeighbors. destruct c as [a b]; simpl.
  repeat (apply NoDup_cons; split;
          [rewrite ?elem_of_cons, elem_of_nil; intros H;
           repeat destruct H as [H|H]; try done; injection H; lia|]).
  apply NoDup_nil_2.
Qed.

Lemma adjacent_sym (c d : Coords) : adjacent c d → adjacent d c.
Proof. unfold adjacent. intros (? & ? & ?). split_and!; [lia|lia|done]. Qed.

Lemma countNeighbors_spec (this : PlayingField) (cell : Cell) :
  safeLife this →
  countNeighbors this cell
  = Z.of_nat (liveNeighbors (hasLifeAt this) cell).
Proof.
  intros Hs. rewrite countNeighbors_probes. unfold liveNeighbors. f_equal.
  rewrite mooreNeighbors_offsets. apply filter_fmap_length.
  intros ij _. by apply probe_life.
Qed.

Lemma cellLivesNextRound_spec (this : PlayingField) (cell : Cell) :
  safeLife this →
  cellLivesNextRound this cell
  = (liveNeighbors (hasLifeAt this) cell =? 2)%nat && hasLife cell
    || (liveNeighbors (hasLifeAt this) cell =? 3)%nat.
Proof.
  intros Hs. unfold cellLivesNextRound. rewrite countNeighbors_spec by done.
  set (n := liveNeighbors _ _).
  replace (Z.of_nat n =? 2) with (n =? 2)%nat
    by (destruct (Nat.eqb_spec n 2), (Z.eqb_spec (Z.of_nat n) 2); lia).
  replace (Z.of_nat n =? 3) with (n =? 3)%nat
    by (destruct (Nat.eqb_spec n 3), (Z.eqb_spec (Z.of_nat n) 3); lia).
  done.
Qed.

(** ** Expansion *)

Lemma expandCell_pushes (cell : Cell) (this : PlayingField) :
  expandCell cell this = foldl pushIfAbsent this (jsNeighbors cell).
Proof. exact (forNeighbors_probes pushIfAbsent cell this). Qed.

Lemma expandCellsWithNeighbors_pushes (this : PlayingField) :
  expandCellsWithNeighbors this
  = foldl pushIfAbsent this
      (cells this ≫= λ cell : Cell, jsNeighbors cell).
Proof.
  unfold expandCellsWithNeighbors.
  generalize (cells this) as l. intros l. revert this.
  generalize dependent l. intros l.
  induction l as [|cell l IH]; intros acc; [done|].
  cbn [foldl]. rewrite bind_cons, foldl_app, <- expandCell_pushes. apply IH.
Qed.

#[global] Instance extendsDead_refl : Reflexive extendsDead.
Proof. intros f. exists []. by rewrite app_nil_r. Qed.

#[global] Instance extendsDead_trans : Transitive extendsDead.
Proof.
  intros f g h (e1 & H1 & D1) (e2 & H2 & D2). exists (e1 ++ e2).
  rewrite H2, H1, <- app_assoc. split; [done|]. by apply Forall_app.
Qed.

Lemma pushIfAbsent_extends (this : PlayingField) (c : Coords) :
  extendsDead this (pushIfAbsent this c).
Proof.
  unfold pushIfAbsent. destruct (hasCellAt this c); simpl; [done|].
  exists [mkCell c false]. split; [done|]. by repeat constructor.
Qed.

Lemma pushAll_extends (cs : list Coords) (this : PlayingField) :
  extendsDead this (foldl pushIfAbsent this cs).
Proof.
  revert this. induction cs as [|c cs IH]; intros this; simpl; [done|].
  etrans; [apply pushIfAbsent_extends|apply IH].
Qed.

Lemma extendsDead_hasLifeAt (this this' : PlayingField) (c : Coords) :
  extendsDead this this' → hasLifeAt this' c = hasLifeAt this c.
Proof.
  intros (extra & Hc & Hdead). rewrite !hasLifeAt_existsb, Hc, existsb_app.
  rewrite <- (orb_false_r (existsb _ (cells this))) at 2. f_equal.
  clear Hc. induction Hdead as [|cell extra Hd _ IH]; [done|].
  simpl. by rewrite Hd, andb_false_r, IH.
Qed.

Lemma extendsDead_alive (this this' : PlayingField) :
  extendsDead this this' →
  jsFilter (λ cell : Cell, hasLife cell) (cells this')
  = jsFilter (λ cell : Cell, hasLife cell) (cells this).
Proof.
  intros (extra & Hc & Hdead). unfold jsFilter.
  rewrite Hc, List.filter_app.
  rewrite <- (app_nil_r (List.filter _ (cells this))) at 2. f_equal.
  clear Hc. induction Hdead as [|cell extra Hd _ IH]; [done|].
  simpl. by rewrite Hd.
Qed.

Lemma extendsDead_elem (this this' : PlayingField) (cell : Cell) :
  extendsDead this this' → cell ∈ cells this → cell ∈ cells this'.
Proof. intros (extra & -> & _) Hin. apply elem_of_app. by left. Qed.

Lemma extendsDead_live_elem (this this' : PlayingField) (cell : Cell) :
  extendsDead this this' → cell ∈ cells this' → hasLife cell = true →
  cell ∈ cells this.
Proof.
  intros (extra & -> & Hdead) Hin Hl. apply elem_of_app in Hin as [|Hin]; [done|].
  rewrite Forall_forall in Hdead. apply Hdead in Hin. congruence.
Qed.

Lemma pushIfAbsent_coords (this : PlayingField) (c : Coords) :
  coords <$> cells (pushIfAbsent this c)
  = (coords <$> cells this)
    ++ (if decide (c ∈ coords <$> cells this) then [] else [c]).
Proof.
  unfold pushIfAbsent. destruct (hasCellAt this c) eqn:H; simpl.
  - apply hasCellAt_true in H. rewrite decide_True by done.
    by rewrite app_nil_r.
  - rewrite decide_False; [by rewrite fmap_app|].
    rewrite <- hasCellAt_true. congruence.
Qed.

Lemma pushIfAbsent_unique (this : PlayingField) (c : Coords) :
  uniqueCoords this → uniqueCoords (pushIfAbsent this c).
Proof.
  unfold uniqueCoords. rewrite pushIfAbsent_coords. intros Hnd.
  case_decide; [by rewrite app_nil_r|].
  apply NoDup_app. split_and!; [done| |apply NoDup_singleton].
  intros d Hd ->%list_elem_of_singleton. done.
Qed.

Lemma pushAll_unique (cs : list Coords) (this : PlayingField) :
  uniqueCoords this → uniqueCoords (foldl pushIfAbsent this cs).
Proof.
  revert this. induction cs as [|c cs IH]; intros this Hu; simpl; [done|].
  by apply IH, pushIfAbsent_unique.
Qed.

Lemma pushAll_stored (cs : list Coords) (this : PlayingField) (c : Coords) :
  c ∈ cs ∨ c ∈ coords <$> cells this →
  c ∈ coords <$> cells (foldl pushIfAbsent this cs).
Proof.
  revert this. induction cs as [|d cs IH]; intros this; simpl.
  - rewrite elem_of_nil. tauto.
  - intros H. apply IH. rewrite pushIfAbsent_coords, elem_of_app.
    rewrite elem_of_cons in H. destruct H as [[-> | H] | H]; [|tauto..].
    case_decide; [tauto|]. right. right. by apply list_elem_of_singleton.
Qed.

(** ** One generation *)

Lemma expand_extends (this : PlayingField) :
  extendsDead this (expandCellsWithNeighbors this).
Proof. rewrite expandCellsWithNeighbors_pushes. apply pushAll_extends. Qed.

Lemma expand_hasLifeAt (this : PlayingField) (c : Coords) :
  hasLifeAt (expandCellsWithNeighbors this) c = hasLifeAt this c.
Proof. apply extendsDead_hasLifeAt, expand_extends. Qed.

Lemma expand_unique (this : PlayingField) :
  uniqueCoords this → uniqueCoords (expandCellsWithNeighbors this).
Proof. rewrite expandCellsWithNeighbors_pushes. apply pushAll_unique. Qed.

Lemma extendsDead_safeLife (this this' : PlayingField) :
  extendsDead this this' → safeLife this → safeLife this'.
Proof.
  intros Hext Hs cell Hin Hl. apply Hs; [|done].
  by apply (extendsDead_live_elem this this').
Qed.

(** Every coordinate adjacent to a stored cell with safe coordinates is
    stored after the expansion. *)
Lemma expand_candidates (this : PlayingField) (cell : Cell) (c : Coords) :
  cell ∈ cells this → safeCoords cell → adjacent cell c →
  c ∈ coords <$> cells (expandCellsWithNeighbors this).
Proof.
  intros Hin Hsafe Hadj. rewrite expandCellsWithNeighbors_pushes.
  apply pushAll_stored. left. apply list_elem_of_bind.
  exists cell. by rewrite jsNeighbors_safe, mooreNeighbors_adjacent.
Qed.

Lemma liveNeighbors_ext (f g : Coords → bool) (c : Coords) :
  (∀ d, f d = g d) → liveNeighbors f c = liveNeighbors g c.
Proof.
  intros Hfg. unfold liveNeighbors. f_equal.
  apply List.filter_ext. intros d. apply Hfg.
Qed.

Lemma liveNeighbors_pos (live : Coords → bool) (c : Coords) :
  (0 < liveNeighbors live c)%nat →
  ∃ d, adjacent c d ∧ live d = true.
Proof.
  unfold liveNeighbors. intros Hpos.
  destruct (List.filter live (mooreNeighbors c)) as [|d l] eqn:Hf;
    [simpl in Hpos; lia|].
  assert (In d (List.filter live (mooreNeighbors c))) as Hd
    by (rewrite Hf; by left).
  apply filter_In in Hd as [Hd Hl]. exists d.
  by rewrite <- mooreNeighbors_adjacent, list_elem_of_In.
Qed.

Lemma spawnNew_cells (this : PlayingField) :
  cells (spawnNew this).1
  = jsFilter (λ cell : Cell, hasLife cell)
      (map (λ cell : Cell,
              mkCell (mkCoords (x cell) (y cell))
                (cellLivesNextRound (expandCellsWithNeighbors this) cell))
         (cells (expandCellsWithNeighbors this))).
Proof. done. Qed.

Lemma spawnNew_elem (this : PlayingField) (cell' : Cell) :
  cell' ∈ cells (spawnNew this).1
  ↔ ∃ cell : Cell,
      cell ∈ cells (expandCellsWithNeighbors this)
      ∧ cellLivesNextRound (expandCellsWithNeighbors this) cell = true
      ∧ cell' = mkCell cell true.
Proof.
  rewrite spawnNew_cells. unfold jsFilter.
  rewrite list_elem_of_In, filter_In, in_map_iff. split.
  - intros ((cell & <- & Hin) & Hl). simpl in Hl. exists cell.
    rewrite list_elem_of_In. split_and!; [done..|].
    rewrite Hl. by destruct cell as [[a b] h].
  - intros (cell & Hin & Hl & ->). split; [|done]. exists cell.
    rewrite <- list_elem_of_In, Hl. split; [|done].
    by destruct cell as [[a b] h].
Qed.

Lemma spawnNew_conway (this : PlayingField) (c : Coords) :
  safeLife this →
  hasLifeAt (spawnNew this).1 c = conwayStep (hasLifeAt this) c.
Proof.
  intros Hsafe.
  apply eq_true_iff_eq. rewrite hasLifeAt_true. unfold conwayStep.
  rewrite orb_true_iff, andb_true_iff, !Nat.eqb_eq.
  pose proof (expand_extends this) as Hext.
  pose proof (extendsDead_safeLife _ _ Hext Hsafe) as Hsafe'. split.
  - intros (cell' & (cell & Hin & Hlive & ->)%spawnNew_elem & Hc & _).
    simpl in Hc. subst c. rewrite cellLivesNextRound_spec in Hlive by done.
    rewrite (liveNeighbors_ext _ (hasLifeAt this)) in Hlive
      by apply expand_hasLifeAt.
    apply orb_true_iff in Hlive as [[Hn Hl]%andb_true_iff|Hn];
      apply Nat.eqb_eq in Hn; [right|by left].
    split; [done|]. apply hasLifeAt_true. exists cell.
    split_and!; [|done..]. by apply (extendsDead_live_elem this _ cell Hext).
  - intros Hrule.
    assert (∃ cell : Cell, cell ∈ cells (expandCellsWithNeighbors this)
              ∧ coords cell = c
              ∧ (liveNeighbors (hasLifeAt this) c = 3%nat
                 ∨ liveNeighbors (hasLifeAt this) c = 2%nat
                   ∧ hasLife cell = true)) as (cell & Hin & Hc & Hn).
    { destruct Hrule as [Hn|[Hn Hl]].
      - destruct (liveNeighbors_pos (hasLifeAt this) c) as (d & Hadj & Hd);
          [lia|].
        apply hasLifeAt_true in Hd as (cell0 & Hin0 & <- & Hl0).
        apply adjacent_sym in Hadj.
        apply (expand_candidates this cell0 c Hin0 (Hsafe cell0 Hin0 Hl0))
          in Hadj.
        apply list_elem_of_fmap in Hadj as (cell & -> & Hin). eauto.
      - apply hasLifeAt_true in Hl as (cell & Hin & Hc & Hl).
        exists cell. split_and!; [|done|by right].
        by apply (extendsDead_elem this). }
    exists (mkCell cell true). split; [|done].
    apply spawnNew_elem. exists cell. split_and!; [done| |done].
    rewrite cellLivesNextRound_spec by done.
    rewrite (liveNeighbors_ext _ (hasLifeAt this)) by apply expand_hasLifeAt.
    subst c. destruct Hn as [->|[-> ->]]; [apply orb_true_r|done].
Qed.

Lemma spawnNew_onlyAlive (this : PlayingField) : onlyAlive (spawnNew this).1.
Proof.
  unfold onlyAlive. apply Forall_forall. intros cell'.
  intros (cell & _ & _ & ->)%spawnNew_elem. done.
Qed.

Lemma spawnNew_source (this : PlayingField) :
  cells (spawnNew this).2
  = jsFilter (λ cell : Cell, hasLife cell) (cells this).
Proof. simpl. apply extendsDead_alive, expand_extends. Qed.

Lemma jsFilter_Forall {A} (p : A → bool) (l : list A) :
  Forall (λ a, p a = true) (jsFilter p l).
Proof.
  apply Forall_forall. intros a Hin%list_elem_of_In.
  by apply filter_In in Hin as [_ ?].
Qed.

Lemma jsFilter_sublist {A} (p : A → bool) (l : list A) :
  jsFilter p l `sublist_of` l.
Proof.
  unfold jsFilter. induction l as [|a l IH]; simpl; [done|].
  destruct (p a); by constructor.
Qed.

Lemma jsFilter_fmap_sublist {A B} (f : A → B) (p : A → bool) (l : list A) :
  f <$> jsFilter p l `sublist_of` f <$> l.
Proof. apply fmap_sublist, jsFilter_sublist. Qed.

Lemma spawnNew_unique (this : PlayingField) :
  uniqueCoords this →
  uniqueCoords (spawnNew this).1 ∧ uniqueCoords (spawnNew this).2.
Proof.
  intros Hu%expand_unique. unfold uniqueCoords in *. split.
  - rewrite spawnNew_cells.
    eapply sublist_NoDup; [|apply jsFilter_fmap_sublist].
    change (map ?f ?l) with (f <$> l). rewrite <- list_fmap_compose.
    erewrite list_fmap_ext; [exact Hu|].
    intros i cell _. simpl. by destruct cell as [[a b] h].
  - simpl. eapply sublist_NoDup; [|apply jsFilter_fmap_sublist]. done.
Qed.

(** ** Editing one cell *)

Lemma findIndex_range {A} (p : A → bool) (l : list A) :
  -1 ≤ findIndex p l < Z.of_nat (length l).
Proof.
  induction l as [|a l IH]; simpl; [lia|].
  destruct (p a); [lia|]. destruct (Z.eqb_spec (findIndex p l) (-1)); lia.
Qed.

Lemma findIndex_none {A} (p : A → bool) (l : list A) :
  findIndex p l = -1 ↔ existsb p l = false.
Proof.
  induction l as [|a l IH]; simpl; [done|].
  destruct (p a); simpl; [done|].
  pose proof (findIndex_range p l).
  destruct (Z.eqb_spec (findIndex p l) (-1)) as [Heq|Hne].
  - by rewrite <- IH.
  - rewrite <- IH. split; intros; [lia|done].
Qed.

Lemma findIndex_found {A} (p : A → bool) (l : list A) :
  findIndex p l ≠ -1 →
  ∃ l1 a l2, l = l1 ++ a :: l2 ∧ p a = true ∧ existsb p l1 = false
             ∧ Z.to_nat (findIndex p l) = length l1.
Proof.
  induction l as [|a l IH]; simpl; [done|].
  destruct (p a) eqn:Hp.
  - intros _. by exists [], a, l.
  - pose proof (findIndex_range p l).
    destruct (Z.eqb_spec (findIndex p l) (-1)) as [Heq|Hne]; [done|].
    intros _. destruct (IH Hne) as (l1 & b & l2 & -> & Hb & Hl1 & Hi).
    exists (a :: l1), b, l2. simpl. rewrite Hp. split_and!; [done..|lia].
Qed.

Lemma existsb_sameCoords_false (l : list Cell) (c : Coords) :
  existsb (λ cell : Cell, sameCoords cell c) l = false ↔ c ∉ coords <$> l.
Proof.
  rewrite <- (hasCellAt_existsb (mkPlayingField l)), <- not_true_iff_false.
  by rewrite hasCellAt_true.
Qed.

Lemma guard_found (this : PlayingField) (c : Coords) :
  nonEmpty this && negb (findCellAt this c =? -1)
  = negb (findCellAt this c =? -1).
Proof.
  unfold nonEmpty, findCellAt. destruct (cells this); [done|].
  simpl length. destruct (Z.eqb_spec (Z.of_nat (S (length l))) 0); [lia|done].
Qed.

(** What [addLifeAt] does to the array: a push when no entry has the
    coordinate, the flag of the first entry with it set otherwise. *)
Lemma addLifeAt_cases (this : PlayingField) (c : Coords) :
  ((c ∉ coords <$> cells this)
   ∧ cells (addLifeAt this c) = cells this ++ [mkCell c true])
  ∨ (∃ l1 a l2, cells this = l1 ++ a :: l2 ∧ coords a = c
                ∧ (c ∉ coords <$> l1)
                ∧ cells (addLifeAt this c) = l1 ++ mkCell c true :: l2).
Proof.
  unfold addLifeAt. rewrite guard_found. unfold findCellAt.
  destruct (Z.eqb_spec (findIndex (λ cell : Cell, sameCoords cell c)
                          (cells this)) (-1)) as [Hnone|Hsome]; simpl.
  - left. split; [|done].
    by apply existsb_sameCoords_false, findIndex_none.
  - right. destruct (findIndex_found _ _ Hsome)
      as (l1 & a & l2 & Hl & Ha%sameCoords_true & Hl1 & Hi).
    exists l1, a, l2. rewrite Hi. split_and!; [done..| |].
    + by apply existsb_sameCoords_false.
    + rewrite Hl. rewrite <- (Nat.add_0_r (length l1)), alter_app_r.
      simpl. unfold setLife. by rewrite Ha.
Qed.

(** What [killLifeAt] does to the array: nothing when no entry has the
    coordinate, the first entry with it removed otherwise. *)
Lemma killLifeAt_cases (this : PlayingField) (c : Coords) :
  ((c ∉ coords <$> cells this) ∧ killLifeAt this c = this)
  ∨ (∃ l1 a l2, cells this = l1 ++ a :: l2 ∧ coords a = c
                ∧ (c ∉ coords <$> l1)
                ∧ cells (killLifeAt this c) = l1 ++ l2).
Proof.
  unfold killLifeAt. rewrite guard_found. unfold findCellAt.
  destruct (Z.eqb_spec (findIndex (λ cell : Cell, sameCoords cell c)
                          (cells this)) (-1)) as [Hnone|Hsome]; simpl.
  - left. split; [|done].
    by apply existsb_sameCoords_false, findIndex_none.
  - right. destruct (findIndex_found _ _ Hsome)
      as (l1 & a & l2 & Hl & Ha%sameCoords_true & Hl1 & Hi).
    exists l1, a, l2. rewrite Hi. split_and!; [done..| |].
    + by apply existsb_sameCoords_false.
    + by rewrite Hl, delete_middle.
Qed.

Lemma hasLifeAt_absent (l : list Cell) (c : Coords) :
  c ∉ coords <$> l →
  existsb (λ cell : Cell, sameCoords cell c && hasLife cell) l = false.
Proof.
  intros Hno. rewrite <- (hasLifeAt_existsb (mkPlayingField l)).
  apply hasLifeAt_false. intros cell Hin Hc. destruct Hno.
  apply list_elem_of_fmap. by exists cell.
Qed.

Lemma sameCoords_decide (cell : Cell) (c : Coords) :
  sameCoords cell c = bool_decide (coords cell = c).
Proof.
  apply eq_true_iff_eq. by rewrite sameCoords_true, bool_decide_eq_true.
Qed.

Lemma addLifeAt_hasLifeAt (this : PlayingField) (c c' : Coords) :
  hasLifeAt (addLifeAt this c) c'
  = if decide (c' = c) then true else hasLifeAt this c'.
Proof.
  rewrite !hasLifeAt_existsb.
  destruct (addLifeAt_cases this c)
    as [[Hno ->]|(l1 & a & l2 & Hl & Ha & Hl1 & ->)].
  - rewrite existsb_app. simpl. rewrite sameCoords_decide. simpl.
    case_decide as Hc; [subst c'|].
    + rewrite bool_decide_eq_true_2 by done. apply orb_true_r.
    + rewrite bool_decide_eq_false_2 by done. simpl. apply orb_false_r.
  - rewrite Hl, !existsb_app. simpl. rewrite !sameCoords_decide. simpl.
    rewrite Ha. case_decide as Hc; [subst c'|].
    + rewrite bool_decide_eq_true_2 by done. simpl. apply orb_true_r.
    + rewrite !bool_decide_eq_false_2 by done. done.
Qed.

Lemma killLifeAt_hasLifeAt_ne (this : PlayingField) (c c' : Coords) :
  c' ≠ c → hasLifeAt (killLifeAt this c) c' = hasLifeAt this c'.
Proof.
  intros Hne. destruct (killLifeAt_cases this c)
    as [[Hno ->]|(l1 & a & l2 & Hl & Ha & Hl1 & Hk)]; [done|].
  rewrite !hasLifeAt_existsb, Hk, Hl, !existsb_app. simpl.
  by rewrite sameCoords_decide, Ha, bool_decide_eq_false_2.
Qed.

Lemma killLifeAt_hasLifeAt_eq (this : PlayingField) (c : Coords) :
  uniqueCoords this → hasLifeAt (killLifeAt this c) c = false.
Proof.
  intros Hu. rewrite hasLifeAt_existsb. apply hasLifeAt_absent.
  destruct (killLifeAt_cases this c)
    as [[Hno ->]|(l1 & a & l2 & Hl & Ha & Hl1 & Hk)]; [done|].
  rewrite Hk. unfold uniqueCoords in Hu.
  rewrite Hl, fmap_app, fmap_cons, Ha in Hu.
  apply NoDup_app in Hu as (_ & _ & [Hl2 _]%NoDup_cons).
  rewrite fmap_app. by apply not_elem_of_app.
Qed.

Lemma toggleCell_hasLifeAt (this : PlayingField) (c c' : Coords) :
  uniqueCoords this →
  hasLifeAt (toggleCell this c) c'
  = if decide (c' = c) then negb (hasLifeAt this c) else hasLifeAt this c'.
Proof.
  intros Hu. unfold toggleCell. destruct (hasLifeAt this c) eqn:Hl.
  - case_decide as Hc; [subst c'|].
    + by apply killLifeAt_hasLifeAt_eq.
    + by apply killLifeAt_hasLifeAt_ne.
  - by rewrite addLifeAt_hasLifeAt.
Qed.

Lemma addLifeAt_unique (this : PlayingField) (c : Coords) :
  uniqueCoords this → uniqueCoords (addLifeAt this c).
Proof.
  unfold uniqueCoords. intros Hu. destruct (addLifeAt_cases this c)
    as [[Hno ->]|(l1 & a & l2 & Hl & Ha & Hl1 & ->)].
  - rewrite fmap_app. apply NoDup_app. split_and!; [done| |].
    + by intros d Hd ->%list_elem_of_singleton.
    + apply NoDup_singleton.
  - rewrite Hl in Hu. rewrite fmap_app, fmap_cons in *. simpl.
    by rewrite <- Ha.
Qed.

Lemma killLifeAt_unique (this : PlayingField) (c : Coords) :
  uniqueCoords this → uniqueCoords (killLifeAt this c).
Proof.
  unfold uniqueCoords, killLifeAt. intros Hu.
  destruct (_ && _); [|done]. simpl.
  eapply sublist_NoDup; [exact Hu|]. apply fmap_sublist, sublist_delete.
Qed.

Lemma toggleCell_unique (this : PlayingField) (c : Coords) :
  uniqueCoords this → uniqueCoords (toggleCell this c).
Proof.
  unfold toggleCell. destruct (hasLifeAt this c).
  - apply killLifeAt_unique.
  - apply addLifeAt_unique.
Qed.

Lemma uniqueCoords_cell (this : PlayingField) (cell cell' : Cell) :
  uniqueCoords this → cell ∈ cells this → cell' ∈ cells this →
  coords cell = coords cell' → cell = cell'.
Proof.
  unfold uniqueCoords. induction (cells this) as [|a l IH]; simpl.
  - by intros _ ?%elem_of_nil.
  - intros [Ha Hl]%NoDup_cons [->|H1]%elem_of_cons [->|H2]%elem_of_cons Hc;
      [done| | |by apply IH].
    + destruct Ha. rewrite Hc. by apply list_elem_of_fmap_2.
    + destruct Ha. rewrite <- Hc. by apply list_elem_of_fmap_2.
Qed.

Lemma getCells_cells (this : PlayingField) : getCells this = cells this.
Proof. unfold getCells. apply map_id. Qed.

Lemma getClone_cells (this : PlayingField) :
  cells (getClone this) = cells this.
Proof. apply getCells_cells. Qed.

(** ** Differences *)

Lemma collect_foldl {A} (p : A → bool) (l acc : list A) :
  foldl (λ (acc : list A) (a : A), if p a then acc ++ [a] else acc) acc l
  = acc ++ jsFilter p l.
Proof.
  unfold jsFilter. revert acc.
  induction l as [|a l IH]; intros acc; simpl; [by rewrite app_nil_r|].
  rewrite IH. destruct (p a); [|done]. by rewrite <- app_assoc.
Qed.

Lemma getDifferenceCells_filter (this otherField : PlayingField) :
  getDifferenceCells this otherField
  = jsFilter (λ cell : Cell, negb (hasLifeAt this cell)) (cells otherField).
Proof.
  unfold getDifferenceCells. rewrite getCells_cells.
  exact (collect_foldl (λ cell : Cell, negb (hasLifeAt this cell))
           (cells otherField) []).
Qed.

Lemma jsFilter_ext_in {A} (p q : A → bool) (l : list A) :
  (∀ a, a ∈ l → p a = q a) → jsFilter p l = jsFilter q l.
Proof.
  intros Hpq. apply List.filter_ext_in. intros a Ha. apply Hpq.
  by apply list_elem_of_In.
Qed.

Lemma jsFilter_nil {A} (p : A → bool) (l : list A) :
  jsFilter p l = [] ↔ ∀ a, a ∈ l → p a = false.
Proof.
  unfold jsFilter. induction l as [|a l IH]; simpl.
  - split; [|done]. by intros _ a Ha%elem_of_nil.
  - destruct (p a) eqn:Hp.
    + split; [done|]. intros H. rewrite H in Hp; [done|]. by left.
    + rewrite IH. split.
      * intros H b [->|Hb]%elem_of_cons; auto.
      * intros H b Hb. apply H. by right.
Qed.

(** ** The blinker *)

Lemma inRow_spec (c : Coords) : inRow c = true ↔ c ∈ row.
Proof.
  unfold inRow, row. rewrite !elem_of_cons, elem_of_nil.
  rewrite andb_true_iff, !orb_true_iff, !Z.eqb_eq.
  destruct c as [a b]; simpl. split.
  - intros [-> [[-> | ->] | ->]]; tauto.
  - intros [H|[H|[H|[]]]]; injection H as -> ->; tauto.
Qed.

Lemma inColumn_spec (c : Coords) : inColumn c = true ↔ c ∈ column.
Proof.
  unfold inColumn, column. rewrite !elem_of_cons, elem_of_nil.
  rewrite andb_true_iff, !orb_true_iff, !Z.eqb_eq.
  destruct c as [a b]; simpl. split.
  - intros [-> [[-> | ->] | ->]]; tauto.
  - intros [H|[H|[H|[]]]]; injection H as -> ->; tauto.
Qed.

Ltac cases_eqb :=
  repeat match goal with
         | |- context [?u =? ?v] =>
             destruct (Z.eqb_spec u v); try lia; subst; simpl
         end.

Lemma conwayStep_row (c : Coords) : conwayStep inRow c = inColumn c.
Proof.
  destruct c as [a b].
  unfold conwayStep, liveNeighbors, mooreNeighbors, inRow, inColumn; simpl.
  assert (a < -1 ∨ a = -1 ∨ a = 0 ∨ a = 1 ∨ a = 2 ∨ a = 3 ∨ 3 < a)
    as Ha by lia.
  assert (b < -1 ∨ b = -1 ∨ b = 0 ∨ b = 1 ∨ 1 < b) as Hb by lia.
  destruct Ha as [Ha|[Ha|[Ha|[Ha|[Ha|[Ha|Ha]]]]]];
    destruct Hb as [Hb|[Hb|[Hb|[Hb|Hb]]]];
    try subst a; try subst b; simpl; cases_eqb; reflexivity.
Qed.

Lemma conwayStep_column (c : Coords) : conwayStep inColumn c = inRow c.
Proof.
  destruct c as [a b].
  unfold conwayStep, liveNeighbors, mooreNeighbors, inRow, inColumn; simpl.
  assert (b < -2 ∨ b = -2 ∨ b = -1 ∨ b = 0 ∨ b = 1 ∨ b = 2 ∨ 2 < b)
    as Hb by lia.
  assert (a < 0 ∨ a = 0 ∨ a = 1 ∨ a = 2 ∨ 2 < a) as Ha by lia.
  destruct Ha as [Ha|[Ha|[Ha|[Ha|Ha]]]];
    destruct Hb as [Hb|[Hb|[Hb|[Hb|[Hb|[Hb|Hb]]]]]];
    try subst a; try subst b; simpl; cases_eqb; reflexivity.
Qed.

Lemma conwayStep_ext (f g : Coords → bool) (c : Coords) :
  (∀ d, f d = g d) → conwayStep f c = conwayStep g c.
Proof.
  intros Hfg. unfold conwayStep.
  by rewrite (liveNeighbors_ext f g c Hfg), Hfg.
Qed.

Lemma liveExactly_row (this : PlayingField) :
  liveExactly this row ↔ ∀ c, hasLifeAt this c = inRow c.
Proof.
  unfold liveExactly. split; intros H c.
  - apply eq_true_iff_eq. by rewrite H, inRow_spec.
  - by rewrite H, inRow_spec.
Qed.

Lemma liveExactly_column (this : PlayingField) :
  liveExactly this column ↔ ∀ c, hasLifeAt this c = inColumn c.
Proof.
  unfold liveExactly. split; intros H c.
  - apply eq_true_iff_eq. by rewrite H, inColumn_spec.
  - by rewrite H, inColumn_spec.
Qed.

Lemma liveExactly_safeLife (this : PlayingField) (cs : list Coords) :
  liveExactly this cs → Forall safeCoords cs → safeLife this.
Proof.
  intros Hlive Hcs cell Hin Hl. rewrite Forall_forall in Hcs.
  apply Hcs, Hlive, hasLifeAt_true. by exists cell.
Qed.

Lemma row_safe : Forall safeCoords row.
Proof. repeat constructor; unfold safeInteger; simpl; lia. Qed.

Lemma column_safe : Forall safeCoords column.
Proof. repeat constructor; unfold safeInteger; simpl; lia. Qed.

Lemma spawnNew_row (this : PlayingField) :
  liveExactly this row → liveExactly (spawnNew this).1 column.
Proof.
  intros Hlive.
  pose proof (liveExactly_safeLife this row Hlive row_safe) as Hs.
  revert Hlive. rewrite liveExactly_row, liveExactly_column. intros H c.
  by rewrite spawnNew_conway, (conwayStep_ext _ inRow c H), conwayStep_row.
Qed.

Lemma spawnNew_column (this : PlayingField) :
  liveExactly this column → liveExactly (spawnNew this).1 row.
Proof.
  intros Hlive.
  pose proof (liveExactly_safeLife this column Hlive column_safe) as Hs.
  revert Hlive. rewrite liveExactly_row, liveExactly_column. intros H c.
  by rewrite spawnNew_conway, (conwayStep_ext _ inColumn c H),
    conwayStep_column.
Qed.

Lemma blinkerRow_live : liveExactly blinkerRow row.
Proof.
  intros c. rewrite hasLifeAt_true. unfold blinkerRow, row; simpl. split.
  - intros (cell & Hin & <- & _).
    rewrite !elem_of_cons, elem_of_nil in Hin.
    destruct Hin as [-> | [-> | [-> | []]]]; simpl;
      rewrite !elem_of_cons; tauto.
  - rewrite !elem_of_cons, elem_of_nil.
    intros [-> | [-> | [-> | []]]]; eexists (mkCell _ true);
      (split; [|done]); rewrite !elem_of_cons; tauto.
Qed.

(** * The store model against the value model *)

(** ** Reading through references *)

Lemma points_length (s : Heap.Store) (l : list Heap.ref) (cs : list Cell) :
  Heap.points s l cs → length l = length cs.
Proof. apply Forall2_length. Qed.

Lemma points_readCells (s : Heap.Store) (l : list Heap.ref)
    (cs : list Cell) :
  Heap.points s l cs → Heap.readCells l s = Some (cs, s).
Proof.
  unfold Heap.readCells. induction 1 as [|r cell l cs Hr _ IH]; [done|].
  simpl. unfold Heap.bind at 1. unfold Heap.readCell at 1. rewrite Hr.
  unfold Heap.bind at 1. by rewrite IH.
Qed.

Lemma points_mono (rs : list Heap.ref) (s s' : Heap.Store)
    (l : list Heap.ref) (cs : list Cell) :
  Heap.keepsObjects rs s s' → (∀ r, r ∈ l → r ∉ rs) →
  Heap.points s l cs → Heap.points s' l cs.
Proof.
  intros Hkeep Hdisj Hp. induction Hp as [|r cell l cs Hr _ IH];
    constructor.
  - apply (Hkeep r cell); [|done]. apply Hdisj. by left.
  - apply IH. intros r' Hr'. apply Hdisj. by right.
Qed.

Lemma points_lookup (s : Heap.Store) (l : list Heap.ref) (cs : list Cell)
    (i : nat) (cell : Cell) :
  Heap.points s l cs → cs !! i = Some cell →
  ∃ r, l !! i = Some r ∧ Heap.objects s !! r = Some cell.
Proof.
  intros Hp Hi. destruct (Forall2_lookup_r _ _ _ _ _ Hp Hi) as (r & ? & ?).
  by exists r.
Qed.

(** ** The queries *)

Lemma hasLifeAt_store (s : Heap.Store) (this : Heap.PlayingField)
    (l : list Heap.ref) (cs : list Cell) (c : Coords) :
  Heap.holds s this l cs →
  Heap.hasLifeAt this c s = Some (hasLifeAt (mkPlayingField cs) c, s).
Proof.
  intros [Hl Hp]. unfold Heap.hasLifeAt, Heap.bind, Heap.readArray.
  rewrite Hl, (points_readCells s l cs Hp). unfold Heap.ret, hasLifeAt.
  simpl. by rewrite (points_length s l cs Hp).
Qed.

Lemma hasCellAt_store (s : Heap.Store) (this : Heap.PlayingField)
    (l : list Heap.ref) (cs : list Cell) (c : Coords) :
  Heap.holds s this l cs →
  Heap.hasCellAt this c s = Some (hasCellAt (mkPlayingField cs) c, s).
Proof.
  intros [Hl Hp]. unfold Heap.hasCellAt, Heap.bind, Heap.readArray.
  rewrite Hl, (points_readCells s l cs Hp). unfold Heap.ret, hasCellAt.
  simpl. by rewrite (points_length s l cs Hp).
Qed.

Lemma findCellAt_store (s : Heap.Store) (this : Heap.PlayingField)
    (l : list Heap.ref) (cs : list Cell) (c : Coords) :
  Heap.holds s this l cs →
  Heap.findCellAt this c s = Some (findCellAt (mkPlayingField cs) c, s).
Proof.
  intros [Hl Hp]. unfold Heap.findCellAt, Heap.bind, Heap.readArray.
  by rewrite Hl, (points_readCells s l cs Hp).
Qed.

(** ** The mutators *)

Lemma writeArray_store (s : Heap.Store) (a : Heap.ref)
    (l l' : list Heap.ref) :
  Heap.arrays s !! a = Some l →
  Heap.writeArray a l' s
  = Some ((), Heap.mkStore (<[a := l']> (Heap.arrays s)) (Heap.objects s)).
Proof. intros Hl. unfold Heap.writeArray. by rewrite Hl. Qed.

Lemma keepsArrays_insert (s : Heap.Store) (a : Heap.ref)
    (l' : list Heap.ref) (objs : list Cell) :
  Heap.keepsArrays a s (Heap.mkStore (<[a := l']> (Heap.arrays s)) objs).
Proof. intros b l Hne Hb. simpl. by rewrite list_lookup_insert_ne. Qed.

Lemma keepsObjects_refl (rs : list Heap.ref) (s : Heap.Store) :
  Heap.keepsObjects rs s s.
Proof. by intros r cell _ Hr. Qed.

Lemma keepsObjects_snoc (rs : list Heap.ref) (s : Heap.Store)
    (arrs : list (list Heap.ref)) (extra : list Cell) :
  Heap.keepsObjects rs s (Heap.mkStore arrs (Heap.objects s ++ extra)).
Proof. intros r cell _ Hr. simpl. by apply lookup_app_l_Some. Qed.

Lemma found_index (cs : list Cell) (c : Coords) :
  findIndex (λ cell : Cell, sameCoords cell c) cs ≠ -1 →
  (Z.to_nat (findIndex (λ cell : Cell, sameCoords cell c) cs)
   < length cs)%nat.
Proof.
  intros Hne. pose proof (findIndex_range (λ cell : Cell, sameCoords cell c) cs).
  lia.
Qed.

Lemma guard_hasCellAt (this : PlayingField) (c : Coords) :
  nonEmpty this && negb (findCellAt this c =? -1) = hasCellAt this c.
Proof.
  rewrite guard_found, hasCellAt_existsb. unfold findCellAt.
  destruct (Z.eqb_spec (findIndex (λ cell : Cell, sameCoords cell c)
                          (cells this)) (-1)) as [Hnone|Hsome]; simpl.
  - symmetry. by apply findIndex_none.
  - symmetry. apply not_false_iff_true. by rewrite <- findIndex_none.
Qed.

(** [killLifeAt] in the store does to the array what [killLifeAt] does to
    the list of cells; no cell object and no other array is written. *)
Lemma killLifeAt_store (s : Heap.Store) (this : Heap.PlayingField)
    (l : list Heap.ref) (cs : list Cell) (c : Coords) :
  Heap.holds s this l cs →
  ∃ s' l',
    Heap.killLifeAt this c s = Some ((), s')
    ∧ Heap.holds s' this l'
        (cells (killLifeAt (mkPlayingField cs) c))
    ∧ l' `sublist_of` l
    ∧ Heap.objects s' = Heap.objects s
    ∧ Heap.keepsArrays (Heap.cells this) s s'.
Proof.
  intros Hh. pose proof Hh as [Hl Hp].
  unfold Heap.killLifeAt. unfold Heap.bind at 1. unfold Heap.readArray at 1.
  rewrite Hl. unfold Heap.bind at 1.
  rewrite (findCellAt_store s this l cs c Hh).
  unfold killLifeAt, nonEmpty. cbn [cells].
  rewrite (points_length s l cs Hp).
  destruct (negb (Z.of_nat (length cs) =? 0)
            && negb (findCellAt (mkPlayingField cs) c =? -1)) eqn:Hg.
  - unfold Heap.bind. rewrite (findCellAt_store s this l cs c Hh).
    rewrite (writeArray_store s _ l _ Hl). eexists _, _.
    split; [done|]. split_and!.
    + split; [|by apply Forall2_delete]. simpl.
      apply list_lookup_insert_eq. by eapply lookup_lt_Some.
    + apply sublist_delete.
    + done.
    + apply keepsArrays_insert.
  - exists s, l. split_and!; [done|done|done|done|]. by intros b l0 _ Hb.
Qed.

(** [addLifeAt] in the store does to the cells of the field what
    [addLifeAt] does to the list of cells, provided the array does not
    hold the same object twice; it writes no other array, and at most one
    cell object, one that the array refers to. *)
Lemma addLifeAt_store (s : Heap.Store) (this : Heap.PlayingField)
    (l : list Heap.ref) (cs : list Cell) (c : Coords) :
  Heap.holds s this l cs → NoDup l →
  ∃ s' l',
    Heap.addLifeAt this c s = Some ((), s')
    ∧ Heap.holds s' this l'
        (cells (addLifeAt (mkPlayingField cs) c))
    ∧ NoDup l'
    ∧ Heap.keepsArrays (Heap.cells this) s s'
    ∧ Heap.keepsObjects l s s'
    ∧ (hasCellAt (mkPlayingField cs) c = true → l' = l).
Proof.
  intros Hh Hnd. pose proof Hh as [Hl Hp].
  pose proof (guard_hasCellAt (mkPlayingField cs) c) as Hguard.
  unfold nonEmpty in Hguard. cbn [cells] in Hguard.
  unfold Heap.addLifeAt. unfold Heap.bind at 1. unfold Heap.readArray at 1.
  rewrite Hl. unfold Heap.bind at 1.
  rewrite (findCellAt_store s this l cs c Hh).
  unfold addLifeAt, nonEmpty. cbn [cells].
  rewrite (points_length s l cs Hp).
  destruct (negb (Z.of_nat (length cs) =? 0)
            && negb (findCellAt (mkPlayingField cs) c =? -1)) eqn:Hg.
  - apply andb_true_iff in Hg as [_ Hi%negb_true_iff%Z.eqb_neq].
    unfold findCellAt in *. cbn [cells] in *. apply found_index in Hi.
    set (i := Z.to_nat (findIndex (λ cell : Cell, sameCoords cell c) cs))
      in *.
    destruct (lookup_lt_is_Some_2 cs i Hi) as [cell Hcell].
    destruct (points_lookup s l cs i cell Hp Hcell) as (r & Hr & Hobj).
    unfold Heap.bind at 1. rewrite (findCellAt_store s this l cs c Hh).
    unfold findCellAt. cbn [cells]. fold i. rewrite Hr.
    unfold Heap.bind, Heap.readCell, Heap.writeCell. rewrite Hobj.
    simpl. rewrite Hobj.
    eexists _, l. split; [done|]. split_and!; [|done| | |done].
    + split; [done|]. apply Forall2_same_length_lookup. split.
      * rewrite length_alter. by apply Forall2_length in Hp.
      * intros j rj cellj Hrj. rewrite list_lookup_alter. simpl.
        destruct (decide (i = j)) as [<-|Hne].
        -- rewrite Hcell. intros [= <-]. assert (rj = r) as -> by congruence.
           apply list_lookup_insert_eq. by eapply lookup_lt_Some.
        -- intros Hcellj. rewrite list_lookup_insert_ne.
           ++ by apply (Forall2_lookup_lr _ _ _ _ _ _ Hp Hrj Hcellj).
           ++ intros ->. destruct Hne. by apply (NoDup_lookup l i j rj).
    + by intros b l0 _ Hb.
    + intros r' cell' Hr' Hobj'. simpl. rewrite list_lookup_insert_ne; [done|].
      intros ->. destruct Hr'. by eapply list_elem_of_lookup_2.
  - unfold Heap.bind, Heap.newCell, Heap.push, Heap.bind, Heap.readArray.
    simpl. rewrite Hl. rewrite (writeArray_store _ _ l); [|done].
    simpl. eexists _, _. split; [done|]. split_and!.
    + split.
      * simpl. apply list_lookup_insert_eq. by eapply lookup_lt_Some.
      * apply Forall2_app.
        -- apply (points_mono [] s); [apply keepsObjects_snoc| |done].
           intros r _. apply not_elem_of_nil.
        -- constructor; [|constructor]. simpl.
           by rewrite lookup_app_r, Nat.sub_diag.
    + apply NoDup_app. split_and!; [done| |apply NoDup_singleton].
      intros r Hr ->%list_elem_of_singleton.
      apply list_elem_of_lookup in Hr as [j Hj].
      destruct (Forall2_lookup_l _ _ _ _ _ Hp Hj) as (cell & _ & Hobj).
      apply lookup_lt_Some in Hobj. lia.
    + apply keepsArrays_insert.
    + apply keepsObjects_snoc.
    + intros Hc. congruence.
Qed.

Lemma toggleCell_store (s : Heap.Store) (this : Heap.PlayingField)
    (l : list Heap.ref) (cs : list Cell) (c : Coords) :
  Heap.holds s this l cs → NoDup l →
  ∃ s' l',
    Heap.toggleCell this c s = Some ((), s')
    ∧ Heap.holds s' this l'
        (cells (toggleCell (mkPlayingField cs) c))
    ∧ NoDup l'
    ∧ Heap.keepsArrays (Heap.cells this) s s'
    ∧ Heap.keepsObjects l s s'.
Proof.
  intros Hh Hnd. unfold Heap.toggleCell, Heap.bind, toggleCell.
  rewrite (hasLifeAt_store s this l cs c Hh).
  destruct (hasLifeAt (mkPlayingField cs) c).
  - destruct (killLifeAt_store s this l cs c Hh)
      as (s' & l' & Hrun & Hh' & Hsub & Hobj & Harr).
    exists s', l'. split_and!; [done..| |done|].
    + by eapply sublist_NoDup.
    + intros r cell _. by rewrite Hobj.
  - destruct (addLifeAt_store s this l cs c Hh Hnd)
      as (s' & l' & Hrun & Hh' & Hnd' & Harr & Hobj & _).
    by exists s', l'.
Qed.

(** An array over cells with pairwise-distinct coordinates holds no
    object twice. *)
Lemma holds_unique_NoDup (s : Heap.Store) (this : Heap.PlayingField)
    (l : list Heap.ref) (cs : list Cell) :
  Heap.holds s this l cs → uniqueCoords (mkPlayingField cs) → NoDup l.
Proof.
  intros [_ Hp] Hu. unfold uniqueCoords in Hu. cbn [cells] in Hu.
  apply NoDup_alt. intros i j r Hi Hj.
  destruct (Forall2_lookup_l _ _ _ _ _ Hp Hi) as (ci & Hci & Hoi).
  destruct (Forall2_lookup_l _ _ _ _ _ Hp Hj) as (cj & Hcj & Hoj).
  assert (cj = ci) as -> by congruence.
  apply (NoDup_lookup (coords <$> cs) i j (coords ci) Hu);
    by rewrite list_lookup_fmap, ?Hci, ?Hcj.
Qed.

(** On a field with pairwise-distinct coordinates, [toggleCell] in the
    store is [toggleCell] on the cell values. *)
Lemma toggleCell_refines (s : Heap.Store) (this : Heap.PlayingField)
    (l : list Heap.ref) (cs : list Cell) (c : Coords) :
  Heap.holds s this l cs → uniqueCoords (mkPlayingField cs) →
  ∃ s' l',
    Heap.toggleCell this c s = Some ((), s')
    ∧ Heap.holds s' this l' (cells (toggleCell (mkPlayingField cs) c)).
Proof.
  intros Hh Hu.
  destruct (toggleCell_store s this l cs c Hh
              (holds_unique_NoDup s this l cs Hh Hu))
    as (s' & l' & Hrun & Hh' & _).
  by exists s', l'.
Qed.

(** ** Cloning, in the store *)

(** [getClone] allocates a new array and fills it with the references of
    the original array: the clone is another array over the same cell
    objects. *)
Lemma getClone_store (s : Heap.Store) (this : Heap.PlayingField)
    (l : list Heap.ref) (cs : list Cell) :
  Heap.holds s this l cs →
  ∃ s' g,
    Heap.getClone this s = Some (g, s')
    ∧ Heap.cells g ≠ Heap.cells this
    ∧ Heap.holds s' this l cs
    ∧ Heap.holds s' g l (cells (getClone (mkPlayingField cs))).
Proof.
  intros [Hl Hp]. rewrite getClone_cells. cbn [cells].
  unfold Heap.getClone, Heap.getCells, Heap.bind, Heap.readArray.
  rewrite Hl. simpl. rewrite map_id. eexists _, _. split; [done|].
  pose proof (lookup_lt_Some _ _ _ Hl) as Hlt. simpl.
  split_and!; [lia| |].
  - split; [by apply lookup_app_l_Some|done].
  - split; [|done]. simpl. by rewrite lookup_app_r, Nat.sub_diag.
Qed.

(** What the clone sees of [addLifeAt] on the original: when the original
    stores an entry at [c], the flag is set on an object of the clone
    too, and the clone stores what the original stores after the call. *)
Lemma getClone_sees_addLifeAt (s : Heap.Store) (this : Heap.PlayingField)
    (l : list Heap.ref) (cs : list Cell) (c : Coords) :
  Heap.holds s this l cs → NoDup l →
  hasCellAt (mkPlayingField cs) c = true →
  ∃ s1 g s2,
    Heap.getClone this s = Some (g, s1)
    ∧ Heap.addLifeAt this c s1 = Some ((), s2)
    ∧ Heap.holds s2 g l (cells (addLifeAt (mkPlayingField cs) c))
    ∧ Heap.hasLifeAt g c s2 = Some (true, s2).
Proof.
  intros Hh Hnd Hc.
  destruct (getClone_store s this l cs Hh) as (s1 & g & Hg & Hne & Hh1 & Hg1).
  destruct (addLifeAt_store s1 this l cs c Hh1 Hnd)
    as (s2 & l' & Hrun & Hh2 & _ & Harr & _ & Hsame).
  rewrite (Hsame Hc) in Hh2. exists s1, g, s2.
  assert (Heap.holds s2 g l (cells (addLifeAt (mkPlayingField cs) c)))
    as Hg2.
  { split; [|apply Hh2]. apply Harr; [done|apply Hg1]. }
  split_and!; [done..|].
  rewrite (hasLifeAt_store s2 g l _ c Hg2). do 2 f_equal.
  change (hasLifeAt (addLifeAt (mkPlayingField cs) c) c = true).
  by rewrite addLifeAt_hasLifeAt, decide_True.
Qed.

(** What the clone does not see: [killLifeAt] on the original, which only
    writes the array of the original. *)
Lemma getClone_keeps_killLifeAt (s : Heap.Store) (this : Heap.PlayingField)
    (l : list Heap.ref) (cs : list Cell) (c : Coords) :
  Heap.holds s this l cs →
  ∃ s1 g s2,
    Heap.getClone this s = Some (g, s1)
    ∧ Heap.killLifeAt this c s1 = Some ((), s2)
    ∧ Heap.holds s2 g l cs.
Proof.
  intros Hh.
  destruct (getClone_store s this l cs Hh) as (s1 & g & Hg & Hne & Hh1 & Hg1).
  destruct (killLifeAt_store s1 this l cs c Hh1)
    as (s2 & l' & Hrun & _ & _ & Hobj & Harr).
  exists s1, g, s2. split_and!; [done..|].
  rewrite getClone_cells in Hg1. destruct Hg1 as [Hgl Hgp]. split.
  - by apply Harr.
  - unfold Heap.points in *. by rewrite Hobj.
Qed.

(** ** One generation, in the store *)

Lemma bind_run {A B} (m : Heap.M A) (k : A → Heap.M B)
    (s s1 : Heap.Store) (a : A) :
  m s = Some (a, s1) → Heap.bind m k s = k a s1.
Proof. intros H. unfold Heap.bind. by rewrite H. Qed.

Lemma keepsArrays_trans (a : Heap.ref) (s1 s2 s3 : Heap.Store) :
  Heap.keepsArrays a s1 s2 → Heap.keepsArrays a s2 s3 →
  Heap.keepsArrays a s1 s3.
Proof. intros H1 H2 b l Hne Hb. by apply H2, H1. Qed.

Lemma keepsArrays_refl (a : Heap.ref) (s : Heap.Store) :
  Heap.keepsArrays a s s.
Proof. by intros b l _ Hb. Qed.

Lemma keepsObjects_trans (s1 s2 s3 : Heap.Store) :
  Heap.keepsObjects [] s1 s2 → Heap.keepsObjects [] s2 s3 →
  Heap.keepsObjects [] s1 s3.
Proof.
  intros H1 H2 r cell Hr Hobj. apply H2; [done|]. by apply H1.
Qed.

Lemma points_keeps (s s' : Heap.Store) (l : list Heap.ref)
    (cs : list Cell) :
  Heap.keepsObjects [] s s' → Heap.points s l cs → Heap.points s' l cs.
Proof.
  intros Hkeep. apply (points_mono [] s s' l cs Hkeep).
  intros r _. apply not_elem_of_nil.
Qed.

(** Pushing a new cell object. *)
Lemma push_new_store (s : Heap.Store) (this : Heap.PlayingField)
    (l : list Heap.ref) (cs : list Cell) (cell : Cell) :
  Heap.holds s this l cs →
  ∃ s',
    Heap.bind (Heap.newCell cell) (λ r, Heap.push (Heap.cells this) r) s
    = Some ((), s')
    ∧ Heap.holds s' this (l ++ [length (Heap.objects s)]) (cs ++ [cell])
    ∧ Heap.keepsArrays (Heap.cells this) s s'
    ∧ Heap.keepsObjects [] s s'.
Proof.
  intros [Hl Hp].
  unfold Heap.bind, Heap.newCell, Heap.push, Heap.bind, Heap.readArray.
  simpl. rewrite Hl. rewrite (writeArray_store _ _ l); [|done].
  simpl. eexists. split; [done|]. split_and!.
  - split.
    + simpl. apply list_lookup_insert_eq. by eapply lookup_lt_Some.
    + apply Forall2_app.
      * apply (points_keeps s); [apply keepsObjects_snoc|done].
      * constructor; [|constructor]. simpl.
        by rewrite lookup_app_r, Nat.sub_diag.
  - apply keepsArrays_insert.
  - apply keepsObjects_snoc.
Qed.

Lemma pushIfAbsent_store (s : Heap.Store) (this : Heap.PlayingField)
    (l : list Heap.ref) (cs : list Cell) (c : Coords) :
  Heap.holds s this l cs →
  ∃ s' l',
    Heap.pushIfAbsent this () c s = Some ((), s')
    ∧ Heap.holds s' this l' (cells (pushIfAbsent (mkPlayingField cs) c))
    ∧ Heap.keepsArrays (Heap.cells this) s s'
    ∧ Heap.keepsObjects [] s s'.
Proof.
  intros Hh. unfold Heap.pushIfAbsent, pushIfAbsent.
  rewrite (bind_run _ _ _ _ _ (hasCellAt_store s this l cs c Hh)).
  destruct (hasCellAt (mkPlayingField cs) c); simpl.
  - exists s, l. split_and!; [done..|apply keepsArrays_refl|
                              apply keepsObjects_refl].
  - destruct (push_new_store s this l cs (mkCell c false) Hh)
      as (s' & Hrun & Hh' & Ha & Ho).
    by exists s', (l ++ [length (Heap.objects s)]).
Qed.

Lemma pushAll_store (ds : list Coords) (s : Heap.Store)
    (this : Heap.PlayingField) (l : list Heap.ref) (cs : list Cell) :
  Heap.holds s this l cs →
  ∃ s' l',
    Heap.foldM (Heap.pushIfAbsent this) () ds s = Some ((), s')
    ∧ Heap.holds s' this l'
        (cells (foldl pushIfAbsent (mkPlayingField cs) ds))
    ∧ Heap.keepsArrays (Heap.cells this) s s'
    ∧ Heap.keepsObjects [] s s'.
Proof.
  revert s l cs. induction ds as [|d ds IH]; intros s l cs Hh.
  - exists s, l. split_and!; [done..|apply keepsArrays_refl|
                              apply keepsObjects_refl].
  - destruct (pushIfAbsent_store s this l cs d Hh)
      as (s1 & l1 & Hrun1 & Hh1 & Ha1 & Ho1).
    destruct (IH s1 l1 _ Hh1) as (s2 & l2 & Hrun2 & Hh2 & Ha2 & Ho2).
    exists s2, l2. cbn [Heap.foldM foldl].
    rewrite (bind_run _ _ _ _ _ Hrun1). split_and!.
    + done.
    + by destruct (pushIfAbsent (mkPlayingField cs) d).
    + by eapply keepsArrays_trans.
    + by eapply keepsObjects_trans.
Qed.

Lemma forNeighbors_store {S} (step : S → Coords → Heap.M S) (c : Coords)
    (s0 : S) (st : Heap.Store) :
  Heap.forNeighbors
    (λ i j s, step s (mkCoords (jsAdd (x c) i) (jsAdd (y c) j))) s0 st
  = Heap.foldM step s0 (jsNeighbors c) st.
Proof.
  unfold Heap.forNeighbors, jsNeighbors, neighborOffsets, probe, offsets.
  cbn. unfold Heap.bind, Heap.ret.
  repeat (case_match; simplify_eq; try done).
Qed.

Lemma foldM_readonly {A S} (step : S → A → Heap.M S) (f : S → A → S)
    (st : Heap.Store) (l : list A) (s0 : S) :
  (∀ s a, step s a st = Some (f s a, st)) →
  Heap.foldM step s0 l st = Some (foldl f s0 l, st).
Proof.
  intros Hstep. revert s0. induction l as [|a l IH]; intros s0; [done|].
  cbn [Heap.foldM foldl]. by rewrite (bind_run _ _ _ _ _ (Hstep s0 a)).
Qed.

Lemma countNeighbors_moore (this : PlayingField) (cell : Cell) :
  countNeighbors this cell
  = foldl (λ n d, if hasLifeAt this d then n + 1 else n) 0
      (jsNeighbors cell).
Proof.
  exact (forNeighbors_probes
           (λ n d, if hasLifeAt this d then n + 1 else n) cell 0).
Qed.

Lemma countNeighbors_store (s : Heap.Store) (this : Heap.PlayingField)
    (l : list Heap.ref) (cs : list Cell) (cell : Cell) :
  Heap.holds s this l cs →
  Heap.forNeighbors (λ i j neighbors,
      Heap.bind (Heap.hasLifeAt this (mkCoords (jsAdd (x cell) i)
          (jsAdd (y cell) j)))
        (λ b, Heap.ret (if b then neighbors + 1 else neighbors))) 0 s
  = Some (countNeighbors (mkPlayingField cs) cell, s).
Proof.
  intros Hh.
  etrans; [exact (forNeighbors_store
    (λ n d, Heap.bind (Heap.hasLifeAt this d)
              (λ b, Heap.ret (if b then n + 1 else n))) cell 0 s)|].
  rewrite countNeighbors_moore.
  apply foldM_readonly. intros n d.
  by rewrite (bind_run _ _ _ _ _ (hasLifeAt_store s this l cs d Hh)).
Qed.

Lemma cellLivesNextRound_store (s : Heap.Store) (this : Heap.PlayingField)
    (l : list Heap.ref) (cs : list Cell) (r : Heap.ref) (cell : Cell) :
  Heap.holds s this l cs → Heap.objects s !! r = Some cell →
  Heap.cellLivesNextRound this r s
  = Some (cellLivesNextRound (mkPlayingField cs) cell, s).
Proof.
  intros Hh Hr. unfold Heap.cellLivesNextRound.
  assert (Heap.readCell r s = Some (cell, s)) as Hread
    by (unfold Heap.readCell; by rewrite Hr).
  rewrite (bind_run _ _ _ _ _ Hread).
  rewrite (bind_run _ _ _ _ _ (countNeighbors_store s this l cs cell Hh)).
  by rewrite (bind_run _ _ _ _ _ Hread).
Qed.

Lemma expandCell_store (s : Heap.Store) (this : Heap.PlayingField)
    (l : list Heap.ref) (cs : list Cell) (cell : Cell) :
  Heap.holds s this l cs →
  ∃ s' l',
    Heap.forNeighbors (λ i j _,
      Heap.bind (Heap.hasCellAt this (mkCoords (jsAdd (x cell) i)
          (jsAdd (y cell) j)))
        (λ b, if negb b
              then Heap.bind
                     (Heap.newCell
                        (mkCell (mkCoords (jsAdd (x cell) i)
                            (jsAdd (y cell) j)) false))
                     (λ r', Heap.push (Heap.cells this) r')
              else Heap.ret ())) () s
    = Some ((), s')
    ∧ Heap.holds s' this l' (cells (expandCell cell (mkPlayingField cs)))
    ∧ Heap.keepsArrays (Heap.cells this) s s'
    ∧ Heap.keepsObjects [] s s'.
Proof.
  intros Hh. rewrite expandCell_pushes.
  destruct (pushAll_store (jsNeighbors cell) s this l cs Hh)
    as (s' & l' & Hrun & Hh' & Ha & Ho).
  exists s', l'. split_and!; [|done..]. rewrite <- Hrun.
  exact (forNeighbors_store (Heap.pushIfAbsent this) cell () s).
Qed.

Lemma expandLoop_store (this : Heap.PlayingField) (l0 : list Heap.ref)
    (cs0 : list Cell) (s : Heap.Store) (l : list Heap.ref)
    (cs : list Cell) :
  Heap.points s l0 cs0 → Heap.holds s this l cs →
  ∃ s' l',
    Heap.foldM (λ _ r,
      Heap.bind (Heap.readCell r) (λ cell,
        Heap.forNeighbors (λ i j _,
          Heap.bind
            (Heap.hasCellAt this (mkCoords (jsAdd (x cell) i)
                (jsAdd (y cell) j)))
            (λ b, if negb b
                  then Heap.bind
                         (Heap.newCell
                            (mkCell (mkCoords (jsAdd (x cell) i)
                                (jsAdd (y cell) j))
                               false))
                         (λ r', Heap.push (Heap.cells this) r')
                  else Heap.ret ())) ())) () l0 s
    = Some ((), s')
    ∧ Heap.holds s' this l'
        (cells (foldl (λ this cell, expandCell cell this)
                  (mkPlayingField cs) cs0))
    ∧ Heap.keepsArrays (Heap.cells this) s s'
    ∧ Heap.keepsObjects [] s s'.
Proof.
  revert cs0 s l cs.
  induction l0 as [|r l0 IH]; intros cs0 s l cs Hp0 Hh;
    inversion Hp0 as [|? cell ? cs0' Hr Hp0']; subst.
  - exists s, l. split_and!; [done..|apply keepsArrays_refl|
                              apply keepsObjects_refl].
  - cbn [Heap.foldM foldl].
    assert (Heap.readCell r s = Some (cell, s)) as Hread
      by (unfold Heap.readCell; by rewrite Hr).
    destruct (expandCell_store s this l cs cell Hh)
      as (s1 & l1 & Hrun1 & Hh1 & Ha1 & Ho1).
    rewrite (bind_run _ _ s s1 ()).
    2:{ by rewrite (bind_run _ _ _ _ _ Hread). }
    destruct (IH cs0' s1 l1 _ (points_keeps s s1 _ _ Ho1 Hp0') Hh1)
      as (s2 & l2 & Hrun2 & Hh2 & Ha2 & Ho2).
    exists s2, l2. split_and!.
    + done.
    + by destruct (expandCell cell (mkPlayingField cs)).
    + by eapply keepsArrays_trans.
    + by eapply keepsObjects_trans.
Qed.

Lemma expandCellsWithNeighbors_store (s : Heap.Store)
    (this : Heap.PlayingField) (l : list Heap.ref) (cs : list Cell) :
  Heap.holds s this l cs →
  ∃ s' l',
    Heap.expandCellsWithNeighbors this s = Some ((), s')
    ∧ Heap.holds s' this l'
        (cells (expandCellsWithNeighbors (mkPlayingField cs)))
    ∧ Heap.keepsArrays (Heap.cells this) s s'
    ∧ Heap.keepsObjects [] s s'.
Proof.
  intros Hh. pose proof Hh as [Hl Hp].
  unfold Heap.expandCellsWithNeighbors.
  assert (Heap.readArray (Heap.cells this) s = Some (l, s)) as Hread
    by (unfold Heap.readArray; by rewrite Hl).
  rewrite (bind_run _ _ _ _ _ Hread).
  exact (expandLoop_store this l cs s l cs Hp Hh).
Qed.

Lemma points_objects (s s' : Heap.Store) (l : list Heap.ref)
    (cs : list Cell) :
  Heap.objects s' = Heap.objects s →
  Heap.points s l cs → Heap.points s' l cs.
Proof. unfold Heap.points. by intros ->. Qed.

Lemma points_fresh (arrs : list (list Heap.ref)) (objs new : list Cell) :
  Heap.points (Heap.mkStore arrs (objs ++ new))
    (seq (length objs) (length new)) new.
Proof.
  apply Forall2_same_length_lookup. split; [by rewrite length_seq|].
  intros i r cell [-> Hi]%lookup_seq Hcell. simpl.
  rewrite lookup_app_r by lia. by replace (length objs + i - length objs)%nat
    with i by lia.
Qed.

Lemma points_filter (s : Heap.Store) (l : list Heap.ref) (cs : list Cell) :
  Heap.points s l cs →
  Heap.points s
    (fst <$> List.filter (λ rc : Heap.ref * Cell, hasLife rc.2) (zip l cs))
    (jsFilter (λ cell : Cell, hasLife cell) cs).
Proof.
  unfold jsFilter. induction 1 as [|r cell l cs Hr _ IH]; simpl.
  - constructor.
  - destruct (hasLife cell); [by constructor|done].
Qed.

Lemma filter_zip_fst {A B} (p : A * B → bool) (l : list A) (k : list B) :
  fst <$> List.filter p (zip l k) ⊆ l.
Proof.
  revert k. induction l as [|a l IH]; intros k; [done|].
  destruct k as [|b k]; simpl; [by intros u Hu%elem_of_nil|].
  destruct (p (a, b)); simpl.
  - intros u [-> | Hu]%elem_of_cons; [by left|]. right. by apply (IH k).
  - intros u Hu. right. by apply (IH k).
Qed.

Lemma filterAlive_store (s : Heap.Store) (l : list Heap.ref)
    (cs : list Cell) :
  Heap.points s l cs →
  ∃ l',
    Heap.filterAlive l s
    = Some (length (Heap.arrays s),
            Heap.mkStore (Heap.arrays s ++ [l']) (Heap.objects s))
    ∧ Heap.points s l' (jsFilter (λ cell : Cell, hasLife cell) cs)
    ∧ l' ⊆ l.
Proof.
  intros Hp. eexists. unfold Heap.filterAlive.
  rewrite (bind_run _ _ _ _ _ (points_readCells s l cs Hp)).
  split; [done|]. split; [by apply points_filter|]. apply filter_zip_fst.
Qed.

(** The [map] of [spawnNew] allocates one new cell object per stored
    cell, in order, after the objects of the store. *)
Lemma spawnMap_store (this : Heap.PlayingField) (l : list Heap.ref)
    (cs : list Cell) (l0 : list Heap.ref) (cs0 : list Cell)
    (s : Heap.Store) :
  Heap.holds s this l cs → Heap.points s l0 cs0 →
  Heap.mapM (λ r,
    Heap.bind (Heap.readCell r) (λ cell,
      Heap.bind (Heap.cellLivesNextRound this r) (λ b,
        Heap.newCell (mkCell (mkCoords (x cell) (y cell)) b)))) l0 s
  = Some (seq (length (Heap.objects s)) (length l0),
          Heap.mkStore (Heap.arrays s)
            (Heap.objects s
             ++ map (λ cell : Cell,
                       mkCell (mkCoords (x cell) (y cell))
                         (cellLivesNextRound (mkPlayingField cs) cell))
                  cs0)).
Proof.
  revert cs0 s. induction l0 as [|r l0 IH]; intros cs0 s Hh Hp0;
    inversion Hp0 as [|? cell ? cs0' Hr Hp0']; subst.
  - simpl. unfold Heap.ret. rewrite app_nil_r. by destruct s.
  - cbn [Heap.mapM map length seq].
    assert (Heap.readCell r s = Some (cell, s)) as Hread
      by (unfold Heap.readCell; by rewrite Hr).
    erewrite bind_run; last first.
    { rewrite (bind_run _ _ _ _ _ Hread).
      rewrite (bind_run _ _ _ _ _
                 (cellLivesNextRound_store s this l cs r cell Hh Hr)).
      reflexivity. }
    erewrite bind_run; last first.
    { apply IH.
      - destruct Hh as [Hl Hp]. split; [done|].
        apply (points_keeps s); [apply keepsObjects_snoc|done].
      - apply (points_keeps s); [apply keepsObjects_snoc|done]. }
    unfold Heap.ret. simpl. rewrite length_app, <- app_assoc. simpl.
    by rewrite Nat.add_1_r.
Qed.

Lemma arrays_grow (s s' : Heap.Store) (this : Heap.PlayingField)
    (l l' : list Heap.ref) (cs cs' : list Cell) :
  Heap.holds s this l cs → Heap.holds s' this l' cs' →
  Heap.keepsArrays (Heap.cells this) s s' →
  (length (Heap.arrays s) ≤ length (Heap.arrays s'))%nat.
Proof.
  intros [Hl _] [Hl' _] Hkeep.
  destruct (length (Heap.arrays s)) as [|n] eqn:Hn; [lia|].
  destruct (lookup_lt_is_Some_2 (Heap.arrays s) n) as [ln Hln]; [lia|].
  destruct (decide (n = Heap.cells this)) as [->|Hne].
  - apply lookup_lt_Some in Hl'. lia.
  - apply (Hkeep n ln Hne) in Hln. apply lookup_lt_Some in Hln. lia.
Qed.

Lemma objects_grow (s s' : Heap.Store) :
  Heap.keepsObjects [] s s' →
  (length (Heap.objects s) ≤ length (Heap.objects s'))%nat.
Proof.
  intros Hkeep.
  destruct (length (Heap.objects s)) as [|n] eqn:Hn; [lia|].
  destruct (lookup_lt_is_Some_2 (Heap.objects s) n) as [c Hc]; [lia|].
  apply (Hkeep n c) in Hc; [|apply not_elem_of_nil].
  apply lookup_lt_Some in Hc. lia.
Qed.

(** [spawnNew] in the store, with what it allocates: the returned field
    and the reassigned [this.cells] are two new arrays, and the returned
    field refers to new cell objects only. The array that [this.cells]
    was holds the expanded cells. *)
Lemma spawnNew_store_fresh (s : Heap.Store) (this : Heap.PlayingField)
    (l : list Heap.ref) (cs : list Cell) :
  Heap.holds s this l cs →
  ∃ s' f this' lf lt,
    Heap.spawnNew this s = Some ((f, this'), s')
    ∧ Heap.holds s' f lf (cells (spawnNew (mkPlayingField cs)).1)
    ∧ Heap.holds s' this' lt (cells (spawnNew (mkPlayingField cs)).2)
    ∧ Heap.keepsArrays (Heap.cells this) s s'
    ∧ Heap.keepsObjects [] s s'
    ∧ (length (Heap.arrays s) < Heap.cells f)%nat
    ∧ (Heap.cells f < Heap.cells this')%nat
    ∧ (∀ r, r ∈ lf → (length (Heap.objects s) ≤ r)%nat)
    ∧ ∃ le, Heap.holds s' this le
              (cells (expandCellsWithNeighbors (mkPlayingField cs))).
Proof.
  intros Hh. unfold Heap.spawnNew.
  destruct (expandCellsWithNeighbors_store s this l cs Hh)
    as (s1 & le & Hrun1 & Hh1 & Ha1 & Ho1).
  rewrite (bind_run _ _ _ _ _ Hrun1).
  set (ce := cells (expandCellsWithNeighbors (mkPlayingField cs))) in *.
  pose proof Hh1 as [Hle Hpe].
  assert (Heap.readArray (Heap.cells this) s1 = Some (le, s1)) as Hread1
    by (unfold Heap.readArray; by rewrite Hle).
  rewrite (bind_run _ _ _ _ _ Hread1).
  rewrite (bind_run _ _ _ _ _ (spawnMap_store this le ce le ce s1 Hh1 Hpe)).
  set (born := map (λ cell : Cell,
                      mkCell (mkCoords (x cell) (y cell))
                        (cellLivesNextRound (mkPlayingField ce) cell)) ce).
  set (mapped := seq (length (Heap.objects s1)) (length le)).
  assert (Heap.points (Heap.mkStore (Heap.arrays s1)
                         (Heap.objects s1 ++ born)) mapped born) as Hborn.
  { unfold mapped. rewrite (points_length s1 le ce Hpe).
    replace (length ce) with (length born) by apply length_map.
    apply points_fresh. }
  assert (Heap.points (Heap.mkStore (Heap.arrays s1)
                         (Heap.objects s1 ++ born)) le ce) as Hpe2.
  { apply (points_keeps s1); [apply keepsObjects_snoc|done]. }
  unfold Heap.bind at 1. unfold Heap.newArray at 1. cbn [Heap.arrays
    Heap.objects]. unfold Heap.bind at 1. unfold Heap.readArray at 1.
  cbn [Heap.arrays Heap.objects].
  rewrite lookup_app_r, Nat.sub_diag by done. cbn [lookup list_lookup].
  destruct (filterAlive_store _ mapped born
              (points_objects _ (Heap.mkStore (Heap.arrays s1 ++ [mapped])
                 (Heap.objects s1 ++ born)) _ _ eq_refl Hborn))
    as (lf & Hrunf & Hpf & Hsubf).
  rewrite (bind_run _ _ _ _ _ Hrunf). cbn [Heap.arrays Heap.objects].
  unfold Heap.bind at 1. unfold Heap.readArray at 1.
  cbn [Heap.arrays Heap.objects].
  rewrite (lookup_app_l_Some _ _ _ _ (lookup_app_l_Some _ [mapped] _ _ Hle)).
  destruct (filterAlive_store
              (Heap.mkStore ((Heap.arrays s1 ++ [mapped]) ++ [lf])
                 (Heap.objects s1 ++ born)) le ce
              (points_objects _ _ _ _ eq_refl Hpe2))
    as (lt & Hrunt & Hpt & _).
  rewrite (bind_run _ _ _ _ _ Hrunt). cbn [Heap.arrays Heap.objects].
  unfold Heap.bind, Heap.newPlayingField, Heap.ret.
  eexists _, _, _, lf, lt. split; [done|]. split_and!.
  - split.
    + cbn [Heap.arrays Heap.cells].
      rewrite lookup_app_l by (rewrite !length_app; simpl; lia).
      by rewrite lookup_app_r, Nat.sub_diag.
    + rewrite spawnNew_cells. exact Hpf.
  - split.
    + cbn [Heap.arrays Heap.cells]. by rewrite lookup_app_r, Nat.sub_diag.
    + exact Hpt.
  - intros b lb Hne Hb. cbn [Heap.arrays].
    do 3 apply lookup_app_l_Some. by apply Ha1.
  - intros r cell Hr Hobj. cbn [Heap.objects].
    apply lookup_app_l_Some. by apply Ho1.
  - cbn [Heap.cells Heap.arrays]. rewrite length_app. simpl.
    pose proof (arrays_grow s s1 this l le cs ce Hh Hh1 Ha1). lia.
  - cbn [Heap.cells Heap.arrays]. rewrite !length_app. simpl. lia.
  - intros r Hr. apply Hsubf in Hr. unfold mapped in Hr.
    apply elem_of_seq in Hr. pose proof (objects_grow s s1 Ho1). lia.
  - exists le. split.
    + cbn [Heap.arrays]. by do 3 apply lookup_app_l_Some.
    + by apply (points_objects _ _ _ _ eq_refl Hpe2).
Qed.

(** [spawnNew] in the store computes the fields that [spawnNew] computes
    on cell values; it writes no existing cell object and no array but
    the one of [this] (which it expands in place before [this.cells] is
    reassigned). *)
Lemma spawnNew_store (s : Heap.Store) (this : Heap.PlayingField)
    (l : list Heap.ref) (cs : list Cell) :
  Heap.holds s this l cs →
  ∃ s' f this' lf lt,
    Heap.spawnNew this s = Some ((f, this'), s')
    ∧ Heap.holds s' f lf (cells (spawnNew (mkPlayingField cs)).1)
    ∧ Heap.holds s' this' lt (cells (spawnNew (mkPlayingField cs)).2)
    ∧ Heap.keepsArrays (Heap.cells this) s s'
    ∧ Heap.keepsObjects [] s s'.
Proof.
  intros Hh.
  destruct (spawnNew_store_fresh s this l cs Hh)
    as (s' & f & this' & lf & lt & Hrun & Hf & Ht & Ha & Ho & _).
  by exists s', f, this', lf, lt.
Qed.

(** ** Differences, in the store *)

Lemma diffLoop_store (this : Heap.PlayingField) (d : Heap.ref)
    (l : list Heap.ref) (cs : list Cell) (l0 : list Heap.ref)
    (c0 : list Cell) (s : Heap.Store) (accl : list Heap.ref)
    (accc : list Cell) :
  Heap.holds s this l cs → Heap.cells this ≠ d →
  Heap.arrays s !! d = Some accl → Heap.points s accl accc →
  Heap.points s l0 c0 →
  ∃ s' ld,
    Heap.foldM (λ _ r,
      Heap.bind (Heap.readCell r) (λ cell,
        Heap.bind (Heap.hasLifeAt this cell) (λ b,
          if negb b then Heap.push d r else Heap.ret ()))) () l0 s
    = Some ((), s')
    ∧ Heap.arrays s' !! d = Some ld
    ∧ Heap.points s' ld
        (foldl (λ (acc : list Cell) (cell : Cell),
                  if negb (hasLifeAt (mkPlayingField cs) cell)
                  then acc ++ [cell] else acc) accc c0)
    ∧ Heap.objects s' = Heap.objects s
    ∧ Heap.keepsArrays d s s'.
Proof.
  revert c0 s accl accc.
  induction l0 as [|r l0 IH]; intros c0 s accl accc Hh Hne Hd Hacc Hp0;
    inversion Hp0 as [|? cell ? c0' Hr Hp0']; subst.
  - exists s, accl. split_and!; [done..|apply keepsArrays_refl].
  - cbn [Heap.foldM foldl].
    assert (Heap.readCell r s = Some (cell, s)) as Hread
      by (unfold Heap.readCell; by rewrite Hr).
    destruct (hasLifeAt (mkPlayingField cs) cell) eqn:Hlife.
    + erewrite bind_run; last first.
      { rewrite (bind_run _ _ _ _ _ Hread).
        rewrite (bind_run _ _ _ _ _ (hasLifeAt_store s this l cs cell Hh)).
        rewrite Hlife. reflexivity. }
      simpl. by apply (IH c0' s accl accc).
    + set (s1 := Heap.mkStore (<[d := accl ++ [r]]> (Heap.arrays s))
                   (Heap.objects s)).
      erewrite (bind_run _ _ s s1); last first.
      { rewrite (bind_run _ _ _ _ _ Hread).
        rewrite (bind_run _ _ _ _ _ (hasLifeAt_store s this l cs cell Hh)).
        rewrite Hlife. simpl. unfold Heap.push, Heap.bind, Heap.readArray.
        rewrite Hd. by apply (writeArray_store s d accl). }
      destruct (IH c0' s1 (accl ++ [r]) (accc ++ [cell]))
        as (s2 & ld & Hrun & Hld & Hpd & Hobj & Harr).
      * destruct Hh as [Hl Hp]. split; [|done]. simpl.
        by rewrite list_lookup_insert_ne.
      * done.
      * simpl. apply list_lookup_insert_eq. by eapply lookup_lt_Some.
      * apply Forall2_app; [done|]. by repeat constructor.
      * done.
      * exists s2, ld. simpl. split_and!; [done..|].
        eapply keepsArrays_trans; [apply keepsArrays_insert|done].
Qed.

(** [getDifferenceCells] in the store returns a new array; it refers to
    the objects of [otherField] that [getDifferenceCells] selects on cell
    values. *)
Lemma getDifferenceCells_store (s : Heap.Store)
    (this otherField : Heap.PlayingField) (l lo : list Heap.ref)
    (cs co : list Cell) :
  Heap.holds s this l cs → Heap.holds s otherField lo co →
  ∃ s' d ld,
    Heap.getDifferenceCells this otherField s = Some (d, s')
    ∧ Heap.arrays s' !! d = Some ld
    ∧ Heap.points s' ld
        (getDifferenceCells (mkPlayingField cs) (mkPlayingField co))
    ∧ Heap.objects s' = Heap.objects s
    ∧ ∀ b lb, Heap.arrays s !! b = Some lb → Heap.arrays s' !! b = Some lb.
Proof.
  intros Hh Ho. pose proof Hh as [Hl Hp]. pose proof Ho as [Hlo Hpo].
  pose proof (lookup_lt_Some _ _ _ Hl) as Hlt.
  unfold Heap.getDifferenceCells, getDifferenceCells.
  rewrite getCells_cells. cbn [cells].
  unfold Heap.bind at 1. unfold Heap.newArray at 1.
  unfold Heap.bind at 1. unfold Heap.getCells, Heap.bind at 1.
  unfold Heap.readArray at 1. cbn [Heap.arrays Heap.objects].
  rewrite (lookup_app_l_Some _ _ _ _ Hlo). rewrite map_id.
  unfold Heap.newArray. cbn [Heap.arrays Heap.objects].
  unfold Heap.bind at 1. unfold Heap.readArray at 1.
  cbn [Heap.arrays Heap.objects].
  rewrite lookup_app_r, Nat.sub_diag by done. cbn [lookup list_lookup].
  set (s1 := Heap.mkStore ((Heap.arrays s ++ [[]]) ++ [lo])
               (Heap.objects s)).
  destruct (diffLoop_store this (length (Heap.arrays s)) l cs lo co s1 [] [])
    as (s2 & ld & Hrun & Hld & Hpd & Hobj & Hkeep).
  - split; [|done]. simpl. by do 2 apply lookup_app_l_Some.
  - lia.
  - simpl. rewrite lookup_app_l by (rewrite length_app; simpl; lia).
    by rewrite lookup_app_r, Nat.sub_diag.
  - constructor.
  - done.
  - rewrite (bind_run _ _ _ _ _ Hrun).
    exists s2, (length (Heap.arrays s)), ld. split_and!; [done..|].
    intros b lb Hb. apply Hkeep.
    + apply lookup_lt_Some in Hb. lia.
    + simpl. by do 2 apply lookup_app_l_Some.
Qed.

(** [spawnNew] on the original is not seen by the clone either: it writes
    the array of the original and new objects only. *)
Lemma getClone_keeps_spawnNew (s : Heap.Store) (this : Heap.PlayingField)
    (l : list Heap.ref) (cs : list Cell) :
  Heap.holds s this l cs →
  ∃ s1 g s2 r,
    Heap.getClone this s = Some (g, s1)
    ∧ Heap.spawnNew this s1 = Some (r, s2)
    ∧ Heap.holds s2 g l cs.
Proof.
  intros Hh.
  destruct (getClone_store s this l cs Hh) as (s1 & g & Hg & Hne & Hh1 & Hg1).
  destruct (spawnNew_store s1 this l cs Hh1)
    as (s2 & f & this' & lf & lt & Hrun & _ & _ & Harr & Hobj).
  exists s1, g, s2, (f, this'). split_and!; [done..|].
  rewrite getClone_cells in Hg1. destruct Hg1 as [Hgl Hgp]. split.
  - by apply Harr.
  - by apply (points_keeps s1).
Qed.

(** * The claims *)

(** [C1], for the coordinates that the sums of the source keep exact. For
    every field whose stored cells have pairwise-distinct coordinates and
    whose live cells have safe integers as coordinates (at most 2^53 - 1
    in absolute value), a coordinate is live in the field returned by
    [spawnNew] if and only if it has exactly 3 live Moore neighbors in the
    original, or exactly 2 live Moore neighbors and is itself live in the
    original. Dead placeholders may be anywhere. *)
Theorem spawnNew_is_conway_step (this : PlayingField) (c : Coords) :
  uniqueCoords this → safeLife this →
  hasLifeAt (spawnNew this).1 c = true
  ↔ liveNeighbors (hasLifeAt this) c = 3%nat
    ∨ (liveNeighbors (hasLifeAt this) c = 2%nat ∧ hasLifeAt this c = true).
Proof.
  intros _ Hsafe. rewrite spawnNew_conway by done. unfold conwayStep.
  by rewrite orb_true_iff, andb_true_iff, !Nat.eqb_eq.
Qed.

Lemma spawnNew_is_conway_step_witness :
  uniqueCoords blinkerRow ∧ safeLife blinkerRow
  ∧ (hasLifeAt (spawnNew blinkerRow).1 (mkCoords 1 1) = true
     ↔ liveNeighbors (hasLifeAt blinkerRow) (mkCoords 1 1) = 3%nat
       ∨ (liveNeighbors (hasLifeAt blinkerRow) (mkCoords 1 1) = 2%nat
          ∧ hasLifeAt blinkerRow (mkCoords 1 1) = true)).
Proof.
  assert (uniqueCoords blinkerRow) as Hu
    by (apply (bool_decide_unpack _); vm_compute; exact I).
  pose proof (liveExactly_safeLife blinkerRow row blinkerRow_live row_safe)
    as Hs.
  split; [exact Hu|]. split; [exact Hs|].
  exact (spawnNew_is_conway_step blinkerRow (mkCoords 1 1) Hu Hs).
Defined.

(** [C1], as the claim words it, fails from 2^53 on. The two live cells
    of [beyondSafe] have one live Moore neighbor each, so the Conway step
    has no life at either; but [x + 1] rounds back to 2^53, each cell is
    counted among its own neighbors and its partner twice, and [spawnNew]
    returns both cells alive. *)
Lemma spawnNew_rounds_beyond_safe :
  uniqueCoords beyondSafe
  ∧ liveNeighbors (hasLifeAt beyondSafe) (mkCoords (2 ^ 53) 0) = 1%nat
  ∧ countNeighbors (expandCellsWithNeighbors beyondSafe)
      (mkCell (mkCoords (2 ^ 53) 0) true) = 3
  ∧ hasLifeAt (spawnNew beyondSafe).1 (mkCoords (2 ^ 53) 0) = true
  ∧ cells (spawnNew beyondSafe).1 = cells beyondSafe
  ∧ ¬ (∀ (this : PlayingField) (c : Coords),
         uniqueCoords this →
         hasLifeAt (spawnNew this).1 c = true
         ↔ liveNeighbors (hasLifeAt this) c = 3%nat
           ∨ (liveNeighbors (hasLifeAt this) c = 2%nat
              ∧ hasLifeAt this c = true)).
Proof.
  assert (uniqueCoords beyondSafe) as Hu
    by (apply (bool_decide_unpack _); vm_compute; exact I).
  assert (liveNeighbors (hasLifeAt beyondSafe) (mkCoords (2 ^ 53) 0)
          = 1%nat) as Hn by (by vm_compute).
  assert (hasLifeAt (spawnNew beyondSafe).1 (mkCoords (2 ^ 53) 0) = true)
    as Hl by (by vm_compute).
  split_and!; [done|done|by vm_compute|done|by vm_compute|].
  intros H. apply (H beyondSafe (mkCoords (2 ^ 53) 0) Hu) in Hl.
  rewrite Hn in Hl. by destruct Hl as [|[]].
Qed.

(** [C2] [getDifferenceCells] does not test [cell.hasLife]. The
    difference of [placeholderAndLife] from a field that stores the dead
    placeholder at (0,0) contains that placeholder, a cell that is not
    alive and whose coordinate is stored in both fields; the live cells
    of the other field without life in this one are the cell at (1,0)
    alone. *)
Theorem getDifferenceCells_keeps_dead_cells :
  getDifferenceCells placeholder placeholderAndLife
  = [mkCell (mkCoords 0 0) false; mkCell (mkCoords 1 0) true]
  ∧ liveDifference placeholder placeholderAndLife
    = [mkCell (mkCoords 1 0) true]
  ∧ hasCellAt placeholder (mkCoords 0 0) = true
  ∧ ¬ (∀ a b : PlayingField, getDifferenceCells a b = liveDifference a b).
Proof.
  split_and!; [done..|]. intros H.
  by specialize (H placeholder placeholderAndLife).
Qed.

(** [C3] Pairwise-distinct coordinates are preserved by [toggleCell],
    [addLifeAt], [killLifeAt], [spawnNew] (in the returned field and in
    the source after the call) and [getClone]. *)
Theorem uniqueCoords_invariant (this : PlayingField) (c : Coords) :
  uniqueCoords this →
  uniqueCoords (toggleCell this c)
  ∧ uniqueCoords (addLifeAt this c)
  ∧ uniqueCoords (killLifeAt this c)
  ∧ uniqueCoords (spawnNew this).1
  ∧ uniqueCoords (spawnNew this).2
  ∧ uniqueCoords (getClone this).
Proof.
  intros Hu. destruct (spawnNew_unique this Hu) as [H1 H2].
  split_and!; [by apply toggleCell_unique|by apply addLifeAt_unique|
               by apply killLifeAt_unique|done|done|].
  unfold uniqueCoords. by rewrite getClone_cells.
Qed.

Lemma uniqueCoords_invariant_witness :
  uniqueCoords blinkerRow
  ∧ uniqueCoords (toggleCell blinkerRow (mkCoords 1 0))
  ∧ uniqueCoords (addLifeAt blinkerRow (mkCoords 1 0))
  ∧ uniqueCoords (killLifeAt blinkerRow (mkCoords 1 0))
  ∧ uniqueCoords (spawnNew blinkerRow).1
  ∧ uniqueCoords (spawnNew blinkerRow).2
  ∧ uniqueCoords (getClone blinkerRow).
Proof.
  assert (uniqueCoords blinkerRow) as Hu
    by (apply (bool_decide_unpack _); vm_compute; exact I).
  split; [exact Hu|].
  exact (uniqueCoords_invariant blinkerRow (mkCoords 1 0) Hu).
Defined.

(** [C4] [getCells] on the field returned by [spawnNew] contains no entry
    whose [hasLife] is false. *)
Theorem spawnNew_result_only_alive (this : PlayingField) :
  Forall (λ cell : Cell, hasLife cell = true) (getCells (spawnNew this).1)
  ∧ ∀ cell : Cell, cell ∈ getCells (spawnNew this).1 → hasLife cell ≠ false.
Proof.
  rewrite getCells_cells.
  pose proof (spawnNew_onlyAlive this) as Ha. unfold onlyAlive in Ha.
  split; [done|]. rewrite Forall_forall in Ha.
  intros cell Hin. by rewrite (Ha cell Hin).
Qed.

(** [C5] For a field whose live cells are exactly (0,0), (1,0), (2,0), one
    [spawnNew] yields a field whose live cells are exactly (1,-1), (1,0),
    (1,1), and a second [spawnNew] on that result yields a field whose
    live cells are the original row again. *)
Theorem blinker_period_two (this : PlayingField) :
  liveExactly this [mkCoords 0 0; mkCoords 1 0; mkCoords 2 0] →
  liveExactly (spawnNew this).1 [mkCoords 1 (-1); mkCoords 1 0; mkCoords 1 1]
  ∧ liveExactly (spawnNew (spawnNew this).1).1
      [mkCoords 0 0; mkCoords 1 0; mkCoords 2 0]
  ∧ sameLife (spawnNew (spawnNew this).1).1 this.
Proof.
  intros Hrow. pose proof (spawnNew_row this Hrow) as Hcol.
  pose proof (spawnNew_column _ Hcol) as Hrow'.
  split_and!; [done..|]. intros c. apply eq_true_iff_eq.
  by rewrite (Hrow' c), (Hrow c).
Qed.

Lemma blinker_period_two_witness :
  liveExactly blinkerRow [mkCoords 0 0; mkCoords 1 0; mkCoords 2 0]
  ∧ liveExactly (spawnNew blinkerRow).1
      [mkCoords 1 (-1); mkCoords 1 0; mkCoords 1 1]
  ∧ liveExactly (spawnNew (spawnNew blinkerRow).1).1
      [mkCoords 0 0; mkCoords 1 0; mkCoords 2 0]
  ∧ sameLife (spawnNew (spawnNew blinkerRow).1).1 blinkerRow.
Proof.
  split; [exact blinkerRow_live|].
  exact (blinker_period_two blinkerRow blinkerRow_live).
Defined.


(** [C8] The difference of a field from itself is not always empty: for
    the field that stores one dead placeholder it is that placeholder, a
    cell of the field itself. *)
Theorem getDifferenceCells_self_nonempty :
  getDifferenceCells placeholder placeholder = [mkCell (mkCoords 0 0) false]
  ∧ mkCell (mkCoords 0 0) false ∈ cells placeholder
  ∧ ¬ (∀ f : PlayingField, getDifferenceCells f f = []).
Proof.
  split_and!; [done|by left|]. intros H. by specialize (H placeholder).
Qed.

(** [C9] For a field with pairwise-distinct coordinates, [toggleCell] at
    the same coordinate twice gives back the same [hasLifeAt] at every
    coordinate. *)
Theorem toggleCell_twice (this : PlayingField) (c : Coords) :
  uniqueCoords this →
  ∀ c', hasLifeAt (toggleCell (toggleCell this c) c) c' = hasLifeAt this c'.
Proof.
  intros Hu c'.
  rewrite toggleCell_hasLifeAt by by apply toggleCell_unique.
  destruct (decide (c' = c)) as [->|Hne].
  - rewrite toggleCell_hasLifeAt, decide_True by done.
    apply negb_involutive.
  - by rewrite toggleCell_hasLifeAt, decide_False.
Qed.

Lemma toggleCell_twice_witness :
  uniqueCoords blinkerRow
  ∧ ∀ c', hasLifeAt (toggleCell (toggleCell blinkerRow (mkCoords 5 5))
                       (mkCoords 5 5)) c'
          = hasLifeAt blinkerRow c'.
Proof.
  assert (uniqueCoords blinkerRow) as Hu
    by (apply (bool_decide_unpack _); vm_compute; exact I).
  split; [exact Hu|].
  exact (toggleCell_twice blinkerRow (mkCoords 5 5) Hu).
Defined.

(** [C10] For a field with pairwise-distinct coordinates, one
    [toggleCell] at [c] negates [hasLifeAt] at [c] (so a stored dead
    placeholder at [c] becomes alive) and leaves [hasLifeAt] unchanged at
    every other coordinate. *)
Theorem toggleCell_negates (this : PlayingField) (c : Coords) :
  uniqueCoords this →
  hasLifeAt (toggleCell this c) c = negb (hasLifeAt this c)
  ∧ (mkCell c false ∈ cells this → hasLifeAt (toggleCell this c) c = true)
  ∧ ∀ c', c' ≠ c → hasLifeAt (toggleCell this c) c' = hasLifeAt this c'.
Proof.
  intros Hu. split_and!.
  - by rewrite toggleCell_hasLifeAt, decide_True.
  - intros Hin. rewrite toggleCell_hasLifeAt, decide_True by done.
    apply negb_true_iff, hasLifeAt_false. intros cell Hcell Hc.
    assert (cell = mkCell c false) as ->; [|done].
    by apply (uniqueCoords_cell this).
  - intros c' Hne. by rewrite toggleCell_hasLifeAt, decide_False.
Qed.

Lemma toggleCell_negates_witness :
  uniqueCoords placeholder
  ∧ hasLifeAt (toggleCell placeholder (mkCoords 0 0)) (mkCoords 0 0)
    = negb (hasLifeAt placeholder (mkCoords 0 0))
  ∧ (mkCell (mkCoords 0 0) false ∈ cells placeholder →
     hasLifeAt (toggleCell placeholder (mkCoords 0 0)) (mkCoords 0 0) = true)
  ∧ ∀ c', c' ≠ mkCoords 0 0 →
          hasLifeAt (toggleCell placeholder (mkCoords 0 0)) c'
          = hasLifeAt placeholder c'.
Proof.
  assert (uniqueCoords placeholder) as Hu
    by (apply (bool_decide_unpack _); vm_compute; exact I).
  split; [exact Hu|].
  exact (toggleCell_negates placeholder (mkCoords 0 0) Hu).
Defined.

(** [C6] [getClone] is not a deep copy. On a field that stores a dead
    placeholder at (0,0), the clone reports no life at (0,0); after
    [toggleCell] at (0,0) on the original, the clone reports life there:
    [addLifeAt] sets the flag of the cell object that both arrays refer
    to. *)
Theorem getClone_shares_cell_objects :
  fst <$> Heap.cloneThenToggle Heap.emptyStore = Some (false, true).
Proof. reflexivity. Qed.

(** * Further properties of the PlayingField methods *)

(** ** Lookup and editing *)

Lemma first_split_unique {A} (p : A → bool) (l1 l2 k1 k2 : list A) (a b : A) :
  l1 ++ a :: l2 = k1 ++ b :: k2 →
  p a = true → p b = true → existsb p l1 = false → existsb p k1 = false →
  l1 = k1 ∧ a = b ∧ l2 = k2.
Proof.
  revert k1. induction l1 as [|u l1 IH]; intros [|v k1]; simpl.
  - by intros [= -> ->].
  - intros [= -> _] Ha _ _ [Hv _]%orb_false_iff. congruence.
  - intros [= -> _] _ Hb [Hu _]%orb_false_iff. congruence.
  - intros [= -> Heq] Ha Hb [_ H1]%orb_false_iff [_ H2]%orb_false_iff.
    destruct (IH k1 Heq Ha Hb H1 H2) as (-> & -> & ->). done.
Qed.

Lemma existsb_sameCoords_true (l : list Cell) (c : Coords) :
  existsb (λ cell : Cell, sameCoords cell c) l = true ↔ c ∈ coords <$> l.
Proof.
  rewrite <- (hasCellAt_existsb (mkPlayingField l)). apply hasCellAt_true.
Qed.

(** [X1] [findCellAt] returns -1 exactly when no entry is stored at the
    coordinate; otherwise it returns the index of the first entry stored
    there. *)
Theorem findCellAt_first (this : PlayingField) (c : Coords) :
  (findCellAt this c = -1 ↔ hasCellAt this c = false)
  ∧ (findCellAt this c ≠ -1 →
     0 ≤ findCellAt this c < Z.of_nat (length (cells this))
     ∧ (∃ cell : Cell,
          cells this !! Z.to_nat (findCellAt this c) = Some cell
          ∧ coords cell = c)
     ∧ ∀ (j : nat) (cell' : Cell),
         (j < Z.to_nat (findCellAt this c))%nat →
         cells this !! j = Some cell' → coords cell' ≠ c).
Proof.
  split.
  - unfold findCellAt. by rewrite findIndex_none, hasCellAt_existsb.
  - unfold findCellAt. intros Hne.
    pose proof (findIndex_range (λ cell : Cell, sameCoords cell c)
                  (cells this)) as Hrange.
    destruct (findIndex_found _ _ Hne)
      as (l1 & a & l2 & Hl & Ha%sameCoords_true & Hl1 & Hi).
    split_and!; [lia|lia| |].
    + exists a. by rewrite Hi, Hl, list_lookup_middle.
    + intros j cell' Hj Hcell' Hc. rewrite Hi in Hj.
      rewrite Hl, lookup_app_l in Hcell' by done.
      apply existsb_sameCoords_false in Hl1. destruct Hl1.
      apply list_elem_of_fmap. exists cell'. split; [done|].
      by eapply list_elem_of_lookup_2.
Qed.

Lemma findCellAt_first_witness :
  findCellAt blinkerRow (mkCoords 1 0) ≠ -1
  ∧ 0 ≤ findCellAt blinkerRow (mkCoords 1 0)
      < Z.of_nat (length (cells blinkerRow))
  ∧ (∃ cell : Cell,
       cells blinkerRow !! Z.to_nat (findCellAt blinkerRow (mkCoords 1 0))
       = Some cell
       ∧ coords cell = mkCoords 1 0)
  ∧ ∀ (j : nat) (cell' : Cell),
      (j < Z.to_nat (findCellAt blinkerRow (mkCoords 1 0)))%nat →
      cells blinkerRow !! j = Some cell' → coords cell' ≠ mkCoords 1 0.
Proof.
  assert (findCellAt blinkerRow (mkCoords 1 0) ≠ -1) as Hne
    by (vm_compute; discriminate).
  split; [exact Hne|].
  exact (proj2 (findCellAt_first blinkerRow (mkCoords 1 0)) Hne).
Defined.

Lemma addLifeAt_found (this : PlayingField) (c : Coords) :
  ∃ l1 a l2,
    cells (addLifeAt this c) = l1 ++ a :: l2
    ∧ a = mkCell c true
    ∧ existsb (λ cell : Cell, sameCoords cell c) l1 = false.
Proof.
  destruct (addLifeAt_cases this c)
    as [[Hno ->]|(l1 & a & l2 & Hl & Ha & Hl1 & ->)].
  - exists (cells this), (mkCell c true), []. split_and!; [done..|].
    by apply existsb_sameCoords_false.
  - exists l1, (mkCell c true), l2. split_and!; [done..|].
    by apply existsb_sameCoords_false.
Qed.

(** [X2] [addLifeAt], on every field: afterwards there is life at the
    coordinate and the life at every other coordinate is what it was; the
    stored coordinates keep their order, with the coordinate appended
    when no entry was stored there; a second call changes nothing. *)
Theorem addLifeAt_effect (this : PlayingField) (c : Coords) :
  (∀ c', hasLifeAt (addLifeAt this c) c'
         = if decide (c' = c) then true else hasLifeAt this c')
  ∧ coords <$> cells (addLifeAt this c)
    = (coords <$> cells this) ++ (if hasCellAt this c then [] else [c])
  ∧ addLifeAt (addLifeAt this c) c = addLifeAt this c.
Proof.
  split_and!.
  - intros c'. apply addLifeAt_hasLifeAt.
  - destruct (addLifeAt_cases this c)
      as [[Hno ->]|(l1 & a & l2 & Hl & Ha & Hl1 & ->)].
    + rewrite fmap_app. f_equal. destruct (hasCellAt this c) eqn:Hc; [|done].
      by apply hasCellAt_true in Hc.
    + assert (hasCellAt this c = true) as ->.
      { apply hasCellAt_true. rewrite Hl, fmap_app, fmap_cons, Ha.
        apply elem_of_app. right. by left. }
      rewrite Hl, !fmap_app, !fmap_cons, app_nil_r. simpl. by rewrite Ha.
  - destruct (addLifeAt_found this c) as (l1 & a & l2 & Hl & -> & Hl1).
    destruct (addLifeAt_cases (addLifeAt this c) c)
      as [[Hno _]|(k1 & b & k2 & Hk & Hb & Hk1 & Hres)].
    + destruct Hno. rewrite Hl, fmap_app, fmap_cons.
      apply elem_of_app. right. by left.
    + apply existsb_sameCoords_false in Hk1.
      rewrite Hl in Hk.
      destruct (first_split_unique (λ cell : Cell, sameCoords cell c)
                  l1 l2 k1 k2 (mkCell c true) b Hk) as (-> & <- & ->);
        [by apply sameCoords_true|by apply sameCoords_true|done..|].
      destruct (addLifeAt (addLifeAt this c) c) as [cs2] eqn:E2.
      destruct (addLifeAt this c) as [cs1] eqn:E1. simpl in *. congruence.
Qed.

(** [X3] [killLifeAt], on every field: with no entry at the coordinate
    the field is unchanged; otherwise exactly one entry, the first one
    stored there, is removed. The life at every other coordinate is what
    it was. When the stored coordinates are pairwise distinct, no entry
    is left at the coordinate and a second call changes nothing. *)
Theorem killLifeAt_effect (this : PlayingField) (c : Coords) :
  (hasCellAt this c = false → killLifeAt this c = this)
  ∧ (hasCellAt this c = true →
     cells (killLifeAt this c)
     = delete (Z.to_nat (findCellAt this c)) (cells this)
     ∧ S (length (cells (killLifeAt this c))) = length (cells this))
  ∧ (∀ c', c' ≠ c → hasLifeAt (killLifeAt this c) c' = hasLifeAt this c')
  ∧ (uniqueCoords this →
     hasCellAt (killLifeAt this c) c = false
     ∧ killLifeAt (killLifeAt this c) c = killLifeAt this c).
Proof.
  assert (uniqueCoords this → hasCellAt (killLifeAt this c) c = false)
    as Hgone.
  { intros Hu. apply not_true_iff_false. rewrite hasCellAt_true.
    destruct (killLifeAt_cases this c)
      as [[Hno ->]|(l1 & a & l2 & Hl & Ha & Hl1 & Hk)]; [done|].
    rewrite Hk. unfold uniqueCoords in Hu.
    rewrite Hl, fmap_app, fmap_cons, Ha in Hu.
    apply NoDup_app in Hu as (_ & _ & [Hl2 _]%NoDup_cons).
    rewrite fmap_app. by apply not_elem_of_app. }
  assert (∀ f : PlayingField,
            hasCellAt f c = false → killLifeAt f c = f) as Hnoop.
  { intros f Hc. unfold killLifeAt. by rewrite guard_hasCellAt, Hc. }
  split_and!.
  - apply Hnoop.
  - intros Hc. unfold killLifeAt. rewrite guard_hasCellAt, Hc.
    split; [done|]. cbn [cells]. rewrite length_delete.
    + pose proof (found_index (cells this) c) as Hi.
      unfold findCellAt in *.
      assert (findIndex (λ cell : Cell, sameCoords cell c) (cells this)
              ≠ -1) as Hne.
      { rewrite findIndex_none, <- hasCellAt_existsb. congruence. }
      specialize (Hi Hne). lia.
    + apply lookup_lt_is_Some_2. apply found_index. unfold findCellAt.
      rewrite findIndex_none, <- hasCellAt_existsb. congruence.
  - intros c' Hne. by apply killLifeAt_hasLifeAt_ne.
  - intros Hu. split; [by apply Hgone|]. by apply Hnoop, Hgone.
Qed.

Lemma killLifeAt_effect_witness :
  hasCellAt blinkerRow (mkCoords 1 0) = true
  ∧ uniqueCoords blinkerRow
  ∧ cells (killLifeAt blinkerRow (mkCoords 1 0))
    = delete (Z.to_nat (findCellAt blinkerRow (mkCoords 1 0)))
        (cells blinkerRow)
  ∧ hasCellAt (killLifeAt blinkerRow (mkCoords 1 0)) (mkCoords 1 0) = false.
Proof.
  assert (uniqueCoords blinkerRow) as Hu
    by (apply (bool_decide_unpack _); vm_compute; exact I).
  pose proof (killLifeAt_effect blinkerRow (mkCoords 1 0))
    as (_ & Hfound & _ & Hunique).
  split; [reflexivity|]. split; [exact Hu|].
  split; [exact (proj1 (Hfound eq_refl))|exact (proj1 (Hunique Hu))].
Defined.

(** ** Fields that store only alive cells *)

Lemma onlyAlive_hasCellAt (this : PlayingField) (c : Coords) :
  onlyAlive this → hasCellAt this c = hasLifeAt this c.
Proof.
  intros Ha. unfold onlyAlive in Ha. rewrite Forall_forall in Ha.
  apply eq_true_iff_eq. rewrite hasCellAt_true, hasLifeAt_true.
  rewrite list_elem_of_fmap. split.
  - intros (cell & -> & Hin). exists cell. auto.
  - intros (cell & Hin & <- & _). by exists cell.
Qed.

(** [X4] Storing only alive cells is an invariant of the editing
    methods: [toggleCell], [addLifeAt], [killLifeAt] and [getClone] keep
    it. On such a field an entry is stored at a coordinate exactly when
    there is life there, and [toggleCell] at a coordinate without life
    appends one new alive entry and changes no stored entry. *)
Theorem onlyAlive_invariant (this : PlayingField) (c : Coords) :
  onlyAlive this →
  onlyAlive (toggleCell this c)
  ∧ onlyAlive (addLifeAt this c)
  ∧ onlyAlive (killLifeAt this c)
  ∧ onlyAlive (getClone this)
  ∧ hasCellAt this c = hasLifeAt this c
  ∧ (hasLifeAt this c = false →
     cells (toggleCell this c) = cells this ++ [mkCell c true]).
Proof.
  intros Ha.
  assert (onlyAlive (addLifeAt this c)) as Hadd.
  { unfold onlyAlive in *.
    destruct (addLifeAt_cases this c)
      as [[Hno ->]|(l1 & a & l2 & Hl & Hc & Hl1 & ->)].
    - apply Forall_app. split; [done|]. by repeat constructor.
    - rewrite Hl in Ha. apply Forall_app in Ha as [H1 H2].
      apply Forall_cons in H2 as [_ H2].
      apply Forall_app. split; [done|]. by constructor. }
  assert (onlyAlive (killLifeAt this c)) as Hkill.
  { unfold onlyAlive, killLifeAt in *. destruct (_ && _); [|done].
    simpl. rewrite Forall_forall in Ha. apply Forall_forall.
    intros cell Hin. apply Ha.
    by apply (elem_of_sublist _ _ _ Hin), sublist_delete. }
  split_and!.
  - unfold toggleCell. by destruct (hasLifeAt this c).
  - done.
  - done.
  - unfold onlyAlive. by rewrite getClone_cells.
  - by apply onlyAlive_hasCellAt.
  - intros Hl. unfold toggleCell. rewrite Hl.
    destruct (addLifeAt_cases this c)
      as [[Hno ->]|(l1 & a & l2 & Hcs & Hc & Hl1 & _)]; [done|].
    assert (hasCellAt this c = true) as Hcell.
    { apply hasCellAt_true. rewrite Hcs, fmap_app, fmap_cons, Hc.
      apply elem_of_app. right. by left. }
    rewrite (onlyAlive_hasCellAt this c Ha) in Hcell. congruence.
Qed.

Lemma onlyAlive_invariant_witness :
  onlyAlive blinkerRow
  ∧ onlyAlive (toggleCell blinkerRow (mkCoords 5 5))
  ∧ onlyAlive (addLifeAt blinkerRow (mkCoords 5 5))
  ∧ onlyAlive (killLifeAt blinkerRow (mkCoords 5 5))
  ∧ onlyAlive (getClone blinkerRow)
  ∧ hasCellAt blinkerRow (mkCoords 5 5) = hasLifeAt blinkerRow (mkCoords 5 5)
  ∧ (hasLifeAt blinkerRow (mkCoords 5 5) = false →
     cells (toggleCell blinkerRow (mkCoords 5 5))
     = cells blinkerRow ++ [mkCell (mkCoords 5 5) true]).
Proof.
  assert (onlyAlive blinkerRow) as Ha
    by (apply (bool_decide_unpack _); vm_compute; exact I).
  split; [exact Ha|].
  exact (onlyAlive_invariant blinkerRow (mkCoords 5 5) Ha).
Defined.

(** ** Expansion *)

Lemma pushAll_only (cs : list Coords) (this : PlayingField) (c : Coords) :
  c ∈ coords <$> cells (foldl pushIfAbsent this cs) →
  c ∈ cs ∨ c ∈ coords <$> cells this.
Proof.
  revert this. induction cs as [|d cs IH]; intros this; simpl; [tauto|].
  intros H. apply IH in H. rewrite pushIfAbsent_coords, elem_of_app in H.
  rewrite elem_of_cons. destruct H as [H|[H|H]]; [tauto|tauto|].
  case_decide; [by apply elem_of_nil in H|].
  apply list_elem_of_singleton in H. tauto.
Qed.

Lemma pushAll_length (cs : list Coords) (this : PlayingField) :
  (length (cells (foldl pushIfAbsent this cs))
   ≤ length (cells this) + length cs)%nat.
Proof.
  revert this. induction cs as [|d cs IH]; intros this; simpl; [lia|].
  etrans; [apply IH|]. unfold pushIfAbsent.
  destruct (hasCellAt this d); simpl; rewrite ?length_app; simpl; lia.
Qed.

Lemma bind_probes_length (l : list Cell) :
  length (l ≫= λ cell : Cell, jsNeighbors cell) = (8 * length l)%nat.
Proof.
  induction l as [|cell l IH]; [done|].
  rewrite bind_cons, length_app, IH. simpl. lia.
Qed.

Lemma expand_stored (this : PlayingField) (c : Coords) :
  hasCellAt (expandCellsWithNeighbors this) c = true
  ↔ hasCellAt this c = true
    ∨ ∃ cell : Cell, cell ∈ cells this ∧ c ∈ jsNeighbors cell.
Proof.
  rewrite !hasCellAt_true, expandCellsWithNeighbors_pushes. split.
  - intros [H|H]%pushAll_only; [right|by left].
    apply list_elem_of_bind in H as (cell & Hadj & Hin). by exists cell.
  - intros [H|(cell & Hin & Hadj)]; apply pushAll_stored; [tauto|].
    left. apply list_elem_of_bind. by exists cell.
Qed.

Lemma blinkerRow_safe : safeCells blinkerRow.
Proof. repeat constructor; unfold safeInteger; simpl; lia. Qed.

Lemma safeCells_safeLife (this : PlayingField) :
  safeCells this → safeLife this.
Proof.
  unfold safeCells. rewrite Forall_forall. intros Hs cell Hin _.
  by apply Hs.
Qed.

(** [X5] [expandCellsWithNeighbors] keeps the stored entries, in order,
    and appends dead entries only. Afterwards an entry is stored at a
    coordinate exactly when one was stored there before or the
    coordinate is one that the two loops compute, with the rounding of
    [+], around a stored entry; when every stored coordinate is a safe
    integer these are the coordinates adjacent to a stored entry.
    Pairwise-distinct coordinates stay pairwise distinct, the life at
    every coordinate is unchanged, and the array has at most nine times
    its former length. *)
Theorem expandCellsWithNeighbors_exact (this : PlayingField) :
  (∃ extra,
     cells (expandCellsWithNeighbors this) = cells this ++ extra
     ∧ Forall (λ cell : Cell, hasLife cell = false) extra)
  ∧ (∀ c, hasCellAt (expandCellsWithNeighbors this) c = true
          ↔ hasCellAt this c = true
            ∨ ∃ cell : Cell, cell ∈ cells this ∧ c ∈ jsNeighbors cell)
  ∧ (safeCells this →
     ∀ c, hasCellAt (expandCellsWithNeighbors this) c = true
          ↔ hasCellAt this c = true
            ∨ ∃ cell : Cell, cell ∈ cells this ∧ adjacent cell c)
  ∧ (∀ c, hasLifeAt (expandCellsWithNeighbors this) c = hasLifeAt this c)
  ∧ (uniqueCoords this → uniqueCoords (expandCellsWithNeighbors this))
  ∧ (length (cells (expandCellsWithNeighbors this))
     ≤ 9 * length (cells this))%nat.
Proof.
  split_and!.
  - apply expand_extends.
  - apply expand_stored.
  - intros Hsafe c. rewrite expand_stored.
    unfold safeCells in Hsafe. rewrite Forall_forall in Hsafe.
    split; (intros [H|(cell & Hin & Hadj)]; [by left|right]);
      exists cell; (split; [done|]).
    + by rewrite <- mooreNeighbors_adjacent, <- jsNeighbors_safe by auto.
    + by rewrite jsNeighbors_safe, mooreNeighbors_adjacent by auto.
  - apply expand_hasLifeAt.
  - apply expand_unique.
  - rewrite expandCellsWithNeighbors_pushes.
    etrans; [apply pushAll_length|]. rewrite bind_probes_length. lia.
Qed.

Lemma expandCellsWithNeighbors_exact_witness :
  uniqueCoords blinkerRow ∧ safeCells blinkerRow
  ∧ uniqueCoords (expandCellsWithNeighbors blinkerRow)
  ∧ ∀ c, hasCellAt (expandCellsWithNeighbors blinkerRow) c = true
         ↔ hasCellAt blinkerRow c = true
           ∨ ∃ cell : Cell, cell ∈ cells blinkerRow ∧ adjacent cell c.
Proof.
  assert (uniqueCoords blinkerRow) as Hu
    by (apply (bool_decide_unpack _); vm_compute; exact I).
  split; [exact Hu|]. split; [exact blinkerRow_safe|].
  pose proof (expandCellsWithNeighbors_exact blinkerRow)
    as (_ & _ & Hadj & _ & Hunique & _).
  exact (conj (Hunique Hu) (Hadj blinkerRow_safe)).
Defined.

(** ** One generation *)

Lemma spawnNew_born_near (this : PlayingField) (c : Coords) :
  safeLife this →
  hasLifeAt (spawnNew this).1 c = true →
  (2 ≤ liveNeighbors (hasLifeAt this) c ≤ 3)%nat
  ∧ ∃ d, adjacent c d ∧ hasLifeAt this d = true.
Proof.
  intros Hsafe. rewrite spawnNew_conway by done. unfold conwayStep.
  rewrite orb_true_iff, andb_true_iff, !Nat.eqb_eq. intros Hrule.
  assert (2 ≤ liveNeighbors (hasLifeAt this) c ≤ 3)%nat as Hn
    by (destruct Hrule as [->|[-> _]]; lia).
  split; [done|]. apply liveNeighbors_pos. lia.
Qed.

(** [X6] Life does not appear out of nowhere, and the source keeps its
    life. When the live cells of the original have safe integers as
    coordinates, a coordinate that is live in the field returned by
    [spawnNew] has two or three live Moore neighbors in the original, so
    it is adjacent to a live coordinate of the original. For every
    field, the source has, after the call, life at exactly the
    coordinates where it had life before. *)
Theorem spawnNew_local (this : PlayingField) (c : Coords) :
  (safeLife this →
   hasLifeAt (spawnNew this).1 c = true →
   (2 ≤ liveNeighbors (hasLifeAt this) c ≤ 3)%nat
   ∧ ∃ d, adjacent c d ∧ hasLifeAt this d = true)
  ∧ hasLifeAt (spawnNew this).2 c = hasLifeAt this c.
Proof.
  split.
  - apply spawnNew_born_near.
  - rewrite !hasLifeAt_existsb, spawnNew_source. unfold jsFilter.
    induction (cells this) as [|cell l IH]; [done|]. simpl.
    destruct (hasLife cell) eqn:Hl; simpl; rewrite IH, ?Hl; [done|].
    by rewrite andb_false_r.
Qed.

Lemma spawnNew_local_witness :
  safeLife blinkerRow
  ∧ hasLifeAt (spawnNew blinkerRow).1 (mkCoords 1 1) = true
  ∧ (2 ≤ liveNeighbors (hasLifeAt blinkerRow) (mkCoords 1 1) ≤ 3)%nat
  ∧ ∃ d, adjacent (mkCoords 1 1) d ∧ hasLifeAt blinkerRow d = true.
Proof.
  pose proof (safeCells_safeLife blinkerRow blinkerRow_safe) as Hs.
  assert (hasLifeAt (spawnNew blinkerRow).1 (mkCoords 1 1) = true) as Hl
    by reflexivity.
  split; [exact Hs|]. split; [exact Hl|].
  exact (proj1 (spawnNew_local blinkerRow (mkCoords 1 1)) Hs Hl).
Defined.

(** [X7] A field without life, whatever dead placeholders it stores,
    yields an empty next generation, and [spawnNew] leaves it empty. *)
Theorem spawnNew_lifeless (this : PlayingField) :
  (∀ c, hasLifeAt this c = false) →
  cells (spawnNew this).1 = [] ∧ cells (spawnNew this).2 = [].
Proof.
  intros Hdead. split.
  - destruct (cells (spawnNew this).1) as [|cell l] eqn:E; [done|].
    assert (hasLifeAt (spawnNew this).1 cell = true) as Hl.
    { apply hasLifeAt_true. exists cell. rewrite E. split; [by left|].
      split; [done|].
      pose proof (spawnNew_onlyAlive this) as Ha. unfold onlyAlive in Ha.
      rewrite E in Ha. by apply Forall_cons in Ha as [? _]. }
    assert (safeLife this) as Hs.
    { intros cell0 Hin Hl0.
      assert (hasLifeAt this cell0 = true) as H0
        by (apply hasLifeAt_true; by exists cell0).
      by rewrite Hdead in H0. }
    destruct (spawnNew_born_near this cell Hs Hl) as (_ & d & _ & Hd).
    by rewrite Hdead in Hd.
  - rewrite spawnNew_source. apply jsFilter_nil. intros cell Hin.
    destruct (hasLife cell) eqn:Hl; [|done].
    rewrite <- (Hdead cell). symmetry. apply hasLifeAt_true. by exists cell.
Qed.

Lemma spawnNew_lifeless_witness :
  (∀ c, hasLifeAt placeholder c = false)
  ∧ cells (spawnNew placeholder).1 = []
  ∧ cells (spawnNew placeholder).2 = [].
Proof.
  assert (∀ c, hasLifeAt placeholder c = false) as Hdead.
  { intros c. unfold hasLifeAt, placeholder. simpl.
    by rewrite andb_false_r. }
  split; [exact Hdead|]. exact (spawnNew_lifeless placeholder Hdead).
Defined.



(** ** What the difference of two fields holds *)

(** [X20] What [getDifferenceCells] computes: in the order of
    [otherField], exactly the stored cells of [otherField], alive or not,
    whose coordinate has no life in [this]. When [otherField] stores only
    alive cells, these are exactly the live cells of [otherField] that
    have no life in [this]: the missing test of [cell.hasLife] shows on
    dead placeholders only. *)
Theorem getDifferenceCells_spec (this otherField : PlayingField) :
  getDifferenceCells this otherField
  = jsFilter (λ cell : Cell, negb (hasLifeAt this cell)) (cells otherField)
  ∧ (onlyAlive otherField →
     getDifferenceCells this otherField = liveDifference this otherField).
Proof.
  split; [apply getDifferenceCells_filter|].
  intros Halive. rewrite getDifferenceCells_filter. unfold liveDifference.
  apply jsFilter_ext_in. intros cell Hin.
  unfold onlyAlive in Halive. rewrite Forall_forall in Halive.
  by rewrite (Halive cell Hin).
Qed.

Lemma getDifferenceCells_spec_witness :
  onlyAlive blinkerRow
  ∧ getDifferenceCells placeholder blinkerRow
    = liveDifference placeholder blinkerRow.
Proof.
  assert (onlyAlive blinkerRow) as Ha
    by (apply (bool_decide_unpack _); vm_compute; exact I).
  split; [exact Ha|].
  exact (proj2 (getDifferenceCells_spec placeholder blinkerRow) Ha).
Defined.

(** [X21] The difference of a field from itself is exactly its stored
    entries whose coordinate has no life in the field; it is empty for
    every field that stores only alive cells. *)
Theorem getDifferenceCells_self (this : PlayingField) :
  getDifferenceCells this this
  = jsFilter (λ cell : Cell, negb (hasLifeAt this cell)) (cells this)
  ∧ (onlyAlive this → getDifferenceCells this this = []).
Proof.
  split; [apply getDifferenceCells_filter|].
  intros Halive. rewrite getDifferenceCells_filter.
  apply jsFilter_nil. intros cell Hin. apply negb_false_iff.
  apply hasLifeAt_true. exists cell. split_and!; [done..|].
  unfold onlyAlive in Halive. rewrite Forall_forall in Halive. auto.
Qed.

Lemma getDifferenceCells_self_witness :
  onlyAlive blinkerRow ∧ getDifferenceCells blinkerRow blinkerRow = [].
Proof.
  assert (onlyAlive blinkerRow) as Ha
    by (apply (bool_decide_unpack _); vm_compute; exact I).
  split; [exact Ha|].
  exact (proj2 (getDifferenceCells_self blinkerRow) Ha).
Defined.

(** ** Translation *)

Lemma sameCoords_shift (d : Coords) (cell : Cell) (c : Coords) :
  sameCoords (shiftCell d cell) (shiftCoords d c) = sameCoords cell c.
Proof.
  unfold sameCoords. simpl. f_equal.
  - destruct (Z.eqb_spec (x cell + x d) (x c + x d)),
      (Z.eqb_spec (x cell) (x c)); lia.
  - destruct (Z.eqb_spec (y cell + y d) (y c + y d)),
      (Z.eqb_spec (y cell) (y c)); lia.
Qed.

Lemma hasCellAt_shift (d : Coords) (this : PlayingField) (c : Coords) :
  hasCellAt (shiftField d this) (shiftCoords d c) = hasCellAt this c.
Proof.
  rewrite !hasCellAt_existsb. unfold shiftField. cbn [cells].
  induction (cells this) as [|cell l IH]; [done|].
  cbn [fmap list_fmap existsb]. by rewrite sameCoords_shift, <- IH.
Qed.

Lemma hasLifeAt_shift (d : Coords) (this : PlayingField) (c : Coords) :
  hasLifeAt (shiftField d this) (shiftCoords d c) = hasLifeAt this c.
Proof.
  rewrite !hasLifeAt_existsb. unfold shiftField. cbn [cells].
  induction (cells this) as [|cell l IH]; [done|].
  cbn [fmap list_fmap existsb]. by rewrite sameCoords_shift, <- IH.
Qed.

Lemma mooreNeighbors_shift (d c : Coords) :
  mooreNeighbors (shiftCoords d c) = shiftCoords d <$> mooreNeighbors c.
Proof.
  unfold mooreNeighbors, shiftCoords. simpl.
  repeat (f_equal; try lia).
Qed.

Lemma pushIfAbsent_shift (d : Coords) (this : PlayingField) (c : Coords) :
  pushIfAbsent (shiftField d this) (shiftCoords d c)
  = shiftField d (pushIfAbsent this c).
Proof.
  unfold pushIfAbsent. rewrite hasCellAt_shift.
  destruct (hasCellAt this c); simpl; [done|].
  unfold shiftField. cbn [cells]. by rewrite fmap_app.
Qed.

Lemma pushAll_shift (d : Coords) (cs : list Coords) (this : PlayingField) :
  foldl pushIfAbsent (shiftField d this) (shiftCoords d <$> cs)
  = shiftField d (foldl pushIfAbsent this cs).
Proof.
  revert this. induction cs as [|c cs IH]; intros this; [done|].
  cbn [fmap list_fmap foldl]. by rewrite pushIfAbsent_shift, IH.
Qed.

Lemma bind_probes_safe (l : list Cell) :
  Forall (λ cell : Cell, safeCoords cell) l →
  (l ≫= λ cell : Cell, jsNeighbors cell)
  = (l ≫= λ cell : Cell, mooreNeighbors cell).
Proof.
  induction 1 as [|cell l Hs _ IH]; [done|].
  by rewrite !bind_cons, IH, jsNeighbors_safe.
Qed.

Lemma expandCellsWithNeighbors_shift (d : Coords) (this : PlayingField) :
  safeCells this → safeCells (shiftField d this) →
  expandCellsWithNeighbors (shiftField d this)
  = shiftField d (expandCellsWithNeighbors this).
Proof.
  intros Hs Hs'.
  rewrite !expandCellsWithNeighbors_pushes, !bind_probes_safe by done.
  rewrite <- pushAll_shift. f_equal.
  unfold shiftField. cbn [cells].
  induction (cells this) as [|cell l IH]; [done|].
  rewrite fmap_cons, !bind_cons, fmap_app, IH. f_equal.
  apply (mooreNeighbors_shift d cell).
Qed.

Lemma liveNeighbors_shift (d : Coords) (this : PlayingField) (c : Coords) :
  liveNeighbors (hasLifeAt (shiftField d this)) (shiftCoords d c)
  = liveNeighbors (hasLifeAt this) c.
Proof.
  unfold liveNeighbors. rewrite mooreNeighbors_shift.
  induction (mooreNeighbors c) as [|n l IH]; [done|].
  cbn [fmap list_fmap List.filter]. rewrite hasLifeAt_shift.
  destruct (hasLifeAt this n); simpl; by rewrite IH.
Qed.

Lemma cellLivesNextRound_shift (d : Coords) (this : PlayingField)
    (cell : Cell) :
  safeLife this → safeLife (shiftField d this) →
  cellLivesNextRound (shiftField d this) (shiftCell d cell)
  = cellLivesNextRound this cell.
Proof.
  intros Hs Hs'. rewrite !cellLivesNextRound_spec by done.
  change (coords (shiftCell d cell)) with (shiftCoords d cell).
  by rewrite liveNeighbors_shift.
Qed.

Lemma jsFilter_shift (d : Coords) (l : list Cell) :
  jsFilter (λ cell : Cell, hasLife cell) (shiftCell d <$> l)
  = shiftCell d <$> jsFilter (λ cell : Cell, hasLife cell) l.
Proof.
  unfold jsFilter. induction l as [|cell l IH]; [done|].
  cbn [fmap list_fmap List.filter]. simpl.
  destruct (hasLife cell); simpl; by rewrite IH.
Qed.

(** [X9] Among the safe integers [spawnNew] commutes with translation:
    when every stored coordinate of a field and of the field moved by a
    vector is a safe integer, advancing the moved field gives the
    advanced field moved by that vector, entry by entry and in the same
    order, and the same holds for what is left in the source. *)
Theorem spawnNew_shift (d : Coords) (this : PlayingField) :
  safeCells this → safeCells (shiftField d this) →
  (spawnNew (shiftField d this)).1 = shiftField d (spawnNew this).1
  ∧ (spawnNew (shiftField d this)).2 = shiftField d (spawnNew this).2
  ∧ ∀ c, hasLifeAt (spawnNew (shiftField d this)).1 (shiftCoords d c)
         = hasLifeAt (spawnNew this).1 c.
Proof.
  intros Hs Hs'.
  assert (∀ f g : PlayingField, cells f = cells g → f = g) as Hext
    by (intros [f] [g]; simpl; congruence).
  assert ((spawnNew (shiftField d this)).1 = shiftField d (spawnNew this).1)
    as H1.
  { apply Hext.
    rewrite spawnNew_cells, expandCellsWithNeighbors_shift by done.
    change (cells (shiftField d (spawnNew this).1))
      with (shiftCell d <$> cells (spawnNew this).1).
    rewrite spawnNew_cells, <- jsFilter_shift. f_equal.
    unfold shiftField. cbn [cells].
    change (map ?f ?l) with (f <$> l). rewrite <- !list_fmap_compose.
    apply list_fmap_ext. intros i cell _. simpl.
    rewrite <- (cellLivesNextRound_shift d
                  (expandCellsWithNeighbors this) cell).
    - done.
    - apply (extendsDead_safeLife this); [apply expand_extends|].
      by apply safeCells_safeLife.
    - rewrite <- expandCellsWithNeighbors_shift by done.
      apply (extendsDead_safeLife (shiftField d this));
        [apply expand_extends|].
      by apply safeCells_safeLife. }
  split_and!.
  - exact H1.
  - apply Hext. rewrite spawnNew_source.
    change (cells (shiftField d (spawnNew this).2))
      with (shiftCell d <$> cells (spawnNew this).2).
    rewrite spawnNew_source. unfold shiftField. cbn [cells].
    apply jsFilter_shift.
  - intros c. rewrite H1. apply hasLifeAt_shift.
Qed.

Lemma spawnNew_shift_witness :
  safeCells blinkerRow ∧ safeCells (shiftField (mkCoords 10 (-3)) blinkerRow)
  ∧ (spawnNew (shiftField (mkCoords 10 (-3)) blinkerRow)).1
    = shiftField (mkCoords 10 (-3)) (spawnNew blinkerRow).1
  ∧ (spawnNew (shiftField (mkCoords 10 (-3)) blinkerRow)).2
    = shiftField (mkCoords 10 (-3)) (spawnNew blinkerRow).2
  ∧ ∀ c, hasLifeAt (spawnNew (shiftField (mkCoords 10 (-3)) blinkerRow)).1
           (shiftCoords (mkCoords 10 (-3)) c)
         = hasLifeAt (spawnNew blinkerRow).1 c.
Proof.
  assert (safeCells (shiftField (mkCoords 10 (-3)) blinkerRow)) as Hs'
    by (repeat constructor; unfold safeInteger; simpl; lia).
  split; [exact blinkerRow_safe|]. split; [exact Hs'|].
  exact (spawnNew_shift (mkCoords 10 (-3)) blinkerRow blinkerRow_safe Hs').
Defined.

(** ** What a click redraws *)

Lemma jsFilter_all {A} (p : A → bool) (l : list A) :
  (∀ a, a ∈ l → p a = true) → jsFilter p l = l.
Proof.
  unfold jsFilter. induction l as [|a l IH]; intros Hall; [done|].
  simpl. rewrite (Hall a) by by left. f_equal. apply IH.
  intros b Hb. apply Hall. by right.
Qed.

Lemma jsFilter_app {A} (p : A → bool) (l k : list A) :
  jsFilter p (l ++ k) = jsFilter p l ++ jsFilter p k.
Proof. apply List.filter_app. Qed.

Lemma difference_after_toggle (this : PlayingField) (c : Coords) :
  onlyAlive this → uniqueCoords this →
  getDifferenceCells (toggleCell this c) (getClone this)
  = if hasLifeAt this c then [mkCell c true] else [].
Proof.
  intros Ha Hu. rewrite getDifferenceCells_filter, getClone_cells.
  unfold onlyAlive in Ha. rewrite Forall_forall in Ha.
  destruct (hasLifeAt this c) eqn:Hl.
  - pose proof Hl as (cell & Hin & Hc & Hlife)%hasLifeAt_true.
    assert (cell = mkCell c true) as ->
      by (destruct cell as [cc h]; simpl in *; congruence).
    apply list_elem_of_split in Hin as (l1 & l2 & Hcs).
    pose proof Hu as Hu0.
    unfold uniqueCoords in Hu. rewrite Hcs in Hu |- *.
    rewrite fmap_app, fmap_cons in Hu. simpl in Hu.
    apply NoDup_app in Hu as (_ & Hl1 & [Hl2 _]%NoDup_cons).
    assert (∀ cell' : Cell, cell' ∈ l1 ++ l2 →
              hasLifeAt (toggleCell this c) cell' = true) as Hrest.
    { intros cell' Hin'. assert (coords cell' ≠ c) as Hne.
      { intros Hc'. apply elem_of_app in Hin' as [Hin'|Hin'].
        - apply (Hl1 c); [|by left].
          rewrite <- Hc'. by apply list_elem_of_fmap_2.
        - apply Hl2. rewrite <- Hc'. by apply list_elem_of_fmap_2. }
      unfold toggleCell. rewrite Hl, killLifeAt_hasLifeAt_ne by done.
      apply hasLifeAt_true. exists cell'. split_and!; [|done|].
      - rewrite Hcs. apply elem_of_app in Hin' as [Hin'|Hin'];
          apply elem_of_app; [by left|right; by right].
      - apply Ha. rewrite Hcs.
        apply elem_of_app in Hin' as [Hin'|Hin'];
          apply elem_of_app; [by left|right; by right]. }
    rewrite jsFilter_app. unfold jsFilter at 2. cbn [List.filter].
    change (coords (mkCell c true)) with c.
    assert (hasLifeAt (toggleCell this c) c = false) as ->.
    { unfold toggleCell. rewrite Hl. by apply killLifeAt_hasLifeAt_eq. }
    simpl.
    rewrite (proj2 (jsFilter_nil _ l1)), (proj2 (jsFilter_nil _ l2)); [done| |].
    + intros a Hin. rewrite Hrest; [done|]. apply elem_of_app. by right.
    + intros a Hin. rewrite Hrest; [done|]. apply elem_of_app. by left.
  - apply jsFilter_nil. intros cell Hin. apply negb_false_iff.
    unfold toggleCell. rewrite Hl, addLifeAt_hasLifeAt.
    case_decide; [done|]. apply hasLifeAt_true. exists cell. auto.
Qed.

(** [X10] The cells that a click erases. [populationWatcher] clones the
    current field, toggles a cell in it and erases [getDifferenceCells]
    of the toggled field from the clone. On a field that stores only
    alive cells with pairwise-distinct coordinates this is the one cell
    that the click switched off, and nothing when the click switched a
    cell on. *)
Theorem click_erases_the_toggled (this : PlayingField) (c : Coords) :
  onlyAlive this → uniqueCoords this →
  getDifferenceCells (toggleCell this c) (getClone this)
  = if hasLifeAt this c then [mkCell c true] else [].
Proof. apply difference_after_toggle. Qed.

Lemma click_erases_the_toggled_witness :
  onlyAlive blinkerRow ∧ uniqueCoords blinkerRow
  ∧ getDifferenceCells (toggleCell blinkerRow (mkCoords 1 0))
      (getClone blinkerRow)
    = if hasLifeAt blinkerRow (mkCoords 1 0)
      then [mkCell (mkCoords 1 0) true] else [].
Proof.
  assert (onlyAlive blinkerRow) as Ha
    by (apply (bool_decide_unpack _); vm_compute; exact I).
  assert (uniqueCoords blinkerRow) as Hu
    by (apply (bool_decide_unpack _); vm_compute; exact I).
  split; [exact Ha|]. split; [exact Hu|].
  exact (click_erases_the_toggled blinkerRow (mkCoords 1 0) Ha Hu).
Defined.

(** ** Clones of fields that store only alive cells *)

Lemma toggleCell_absent (this : PlayingField) (c : Coords) :
  hasCellAt this c = false →
  cells (toggleCell this c) = cells this ++ [mkCell c true].
Proof.
  intros Hc. unfold toggleCell.
  assert (hasLifeAt this c = false) as ->.
  { apply not_true_iff_false. intros (cell & Hin & <- & _)%hasLifeAt_true.
    apply not_true_iff_false in Hc. apply Hc, hasCellAt_true.
    by apply list_elem_of_fmap_2. }
  destruct (addLifeAt_cases this c)
    as [[Hno ->]|(l1 & a & l2 & Hcs & Ha & Hl1 & _)]; [done|].
  apply not_true_iff_false in Hc. destruct Hc. apply hasCellAt_true.
  rewrite Hcs, fmap_app, fmap_cons, Ha. apply elem_of_app. right. by left.
Qed.

Lemma toggleCell_onlyAlive (this : PlayingField) (c : Coords) :
  onlyAlive this → onlyAlive (toggleCell this c).
Proof.
  intros Ha. unfold onlyAlive in *. unfold toggleCell.
  destruct (hasLifeAt this c).
  - unfold killLifeAt. destruct (_ && _); [|done]. by apply Forall_delete.
  - destruct (addLifeAt_cases this c)
      as [[Hno ->]|(l1 & a & l2 & Hl & Hc & Hl1 & ->)].
    + apply Forall_app. split; [done|]. by repeat constructor.
    + rewrite Hl in Ha. apply Forall_app in Ha as [H1 H2].
      apply Forall_cons in H2 as [_ H2].
      apply Forall_app. split; [done|]. by constructor.
Qed.

Lemma addLifeAt_store_absent (s : Heap.Store) (this : Heap.PlayingField)
    (l : list Heap.ref) (cs : list Cell) (c : Coords) :
  Heap.holds s this l cs → hasCellAt (mkPlayingField cs) c = false →
  ∃ s',
    Heap.addLifeAt this c s = Some ((), s')
    ∧ Heap.holds s' this (l ++ [length (Heap.objects s)])
        (cs ++ [mkCell c true])
    ∧ Heap.keepsArrays (Heap.cells this) s s'
    ∧ Heap.keepsObjects [] s s'.
Proof.
  intros Hh Hc. pose proof Hh as [Hl Hp].
  pose proof (guard_hasCellAt (mkPlayingField cs) c) as Hguard.
  unfold nonEmpty in Hguard. cbn [cells] in Hguard. rewrite Hc in Hguard.
  unfold Heap.addLifeAt. unfold Heap.bind at 1. unfold Heap.readArray at 1.
  rewrite Hl. unfold Heap.bind at 1.
  rewrite (findCellAt_store s this l cs c Hh).
  rewrite (points_length s l cs Hp), Hguard.
  apply (push_new_store s this l cs (mkCell c true) Hh).
Qed.

Lemma toggleCell_store_onlyAlive (s : Heap.Store) (this : Heap.PlayingField)
    (l : list Heap.ref) (cs : list Cell) (c : Coords) :
  Heap.holds s this l cs → onlyAlive (mkPlayingField cs) →
  ∃ s' l',
    Heap.toggleCell this c s = Some ((), s')
    ∧ Heap.holds s' this l' (cells (toggleCell (mkPlayingField cs) c))
    ∧ Heap.keepsArrays (Heap.cells this) s s'
    ∧ Heap.keepsObjects [] s s'.
Proof.
  intros Hh Ha. unfold Heap.toggleCell.
  rewrite (bind_run _ _ _ _ _ (hasLifeAt_store s this l cs c Hh)).
  destruct (hasLifeAt (mkPlayingField cs) c) eqn:Hlife.
  - destruct (killLifeAt_store s this l cs c Hh)
      as (s' & l' & Hrun & Hh' & _ & Hobj & Harr).
    exists s', l'. split_and!; [done| |done|].
    + unfold toggleCell. by rewrite Hlife.
    + intros r cell _. by rewrite Hobj.
  - assert (hasCellAt (mkPlayingField cs) c = false) as Hc
      by by rewrite onlyAlive_hasCellAt.
    destruct (addLifeAt_store_absent s this l cs c Hh Hc)
      as (s' & Hrun & Hh' & Harr & Hobj).
    exists s', (l ++ [length (Heap.objects s)]).
    split_and!; [done| |done..].
    by rewrite (toggleCell_absent (mkPlayingField cs) c Hc).
Qed.

Lemma holds_frame (s s' : Heap.Store) (a : Heap.ref)
    (fo : Heap.PlayingField) (l : list Heap.ref) (cs : list Cell) :
  Heap.keepsArrays a s s' → Heap.keepsObjects [] s s' →
  Heap.cells fo ≠ a →
  Heap.holds s fo l cs → Heap.holds s' fo l cs.
Proof.
  intros Harr Hobj Hne [Hl Hp]. split; [by apply Harr|].
  by apply (points_keeps s).
Qed.

(** [X11] On a field that stores only alive cells, [getClone] is a
    snapshot: after [toggleCell] on the original the clone stores what
    the original stored before, and after [toggleCell] on the clone the
    original stores what it stored before. [toggleCell] writes a cell
    object only when it finds a dead entry. *)
Theorem getClone_snapshot (s : Heap.Store) (this : Heap.PlayingField)
    (l : list Heap.ref) (cs : list Cell) (c : Coords) :
  Heap.holds s this l cs → onlyAlive (mkPlayingField cs) →
  ∃ s1 g,
    Heap.getClone this s = Some (g, s1)
    ∧ (∃ s2 l',
         Heap.toggleCell this c s1 = Some ((), s2)
         ∧ Heap.holds s2 this l' (cells (toggleCell (mkPlayingField cs) c))
         ∧ Heap.holds s2 g l cs)
    ∧ (∃ s2 l',
         Heap.toggleCell g c s1 = Some ((), s2)
         ∧ Heap.holds s2 g l' (cells (toggleCell (mkPlayingField cs) c))
         ∧ Heap.holds s2 this l cs).
Proof.
  intros Hh Ha.
  destruct (getClone_store s this l cs Hh) as (s1 & g & Hg & Hne & Hh1 & Hg1).
  rewrite getClone_cells in Hg1. exists s1, g. split_and!; [done| |].
  - destruct (toggleCell_store_onlyAlive s1 this l cs c Hh1 Ha)
      as (s2 & l' & Hrun & Hh2 & Harr & Hobj).
    exists s2, l'. split_and!; [done..|].
    by apply (holds_frame s1 s2 (Heap.cells this)).
  - destruct (toggleCell_store_onlyAlive s1 g l cs c Hg1 Ha)
      as (s2 & l' & Hrun & Hh2 & Harr & Hobj).
    exists s2, l'. split_and!; [done..|].
    apply (holds_frame s1 s2 (Heap.cells g)); [done..| |done].
    congruence.
Qed.

(** * The playing fields of a Game *)

(** ** Running a method *)

Lemma gbind_run {A B} (m : Game.GM A) (k : A → Game.GM B)
    (st st1 : Game.State) (a : A) :
  m st = Some (Game.Normal a, st1) → Game.bind m k st = k a st1.
Proof. intros H. unfold Game.bind. by rewrite H. Qed.

Lemma liftStore_run {A} (m : Heap.M A) (s s' : Heap.Store)
    (fos : list Heap.PlayingField) (hist : list nat) (cur : option nat)
    (pl : bool) (a : A) :
  m s = Some (a, s') →
  Game.liftStore m (Game.mkState s fos hist cur pl)
  = Some (Game.Normal a, Game.mkState s' fos hist cur pl).
Proof. intros H. unfold Game.liftStore. simpl. by rewrite H. Qed.

Lemma field_eta (this : PlayingField) : mkPlayingField (cells this) = this.
Proof. by destruct this. Qed.

Lemma holds_extends (s s' : Heap.Store) (fo : Heap.PlayingField)
    (l : list Heap.ref) (cs : list Cell) :
  Game.extends s s' → Heap.holds s fo l cs → Heap.holds s' fo l cs.
Proof.
  intros [Harr Hobj] [Hl Hp]. split; [by apply Harr|].
  by apply (points_keeps s).
Qed.

Lemma extends_refl (s : Heap.Store) : Game.extends s s.
Proof. split; [done|apply keepsObjects_refl]. Qed.

Lemma extends_trans (s1 s2 s3 : Heap.Store) :
  Game.extends s1 s2 → Game.extends s2 s3 → Game.extends s1 s3.
Proof.
  intros [A1 O1] [A2 O2]. split.
  - intros b l Hb. by apply A2, A1.
  - by eapply keepsObjects_trans.
Qed.

Lemma extends_newArray (s : Heap.Store) (l : list Heap.ref) :
  Game.extends s (Heap.mkStore (Heap.arrays s ++ [l]) (Heap.objects s)).
Proof.
  split.
  - intros b lb Hb. simpl. by apply lookup_app_l_Some.
  - by intros r cell _ Hr.
Qed.

Lemma sameGame_refl (st : Game.State) : Game.sameGame st st.
Proof. split_and!; [done..|apply extends_refl]. Qed.

Lemma sameGame_trans (st1 st2 st3 : Game.State) :
  Game.sameGame st1 st2 → Game.sameGame st2 st3 → Game.sameGame st1 st3.
Proof.
  intros (F1 & H1 & C1 & P1 & E1) (F2 & H2 & C2 & P2 & E2).
  split_and!; [congruence..|]. by eapply extends_trans.
Qed.

Lemma viewOf_sameGame (st st' : Game.State) (i : nat) (cs : list Cell) :
  Game.sameGame st st' → Game.viewOf st i cs → Game.viewOf st' i cs.
Proof.
  intros (HF & _ & _ & _ & HE) (fo & l & Hfo & Hh).
  exists fo, l. rewrite HF. split; [done|]. by apply (holds_extends _ _ _ _ _ HE).
Qed.

Lemma Inv_sameGame (st st' : Game.State) :
  Game.sameGame st st' → Game.Inv st → Game.Inv st'.
Proof.
  intros (HF & HH & HC & _ & HE) (I1 & I2 & I3 & I4).
  unfold Game.Inv. rewrite HF, HH, HC. split_and!; [done| |done..].
  intros fo Hfo. destruct (I2 fo Hfo) as (l & cs & Hh & Ha & Hu).
  exists l, cs. split_and!; [|done..]. by apply (holds_extends _ _ _ _ _ HE).
Qed.

(** ** Drawing *)

Lemma getCells_run (s : Heap.Store) (fo : Heap.PlayingField)
    (l : list Heap.ref) :
  Heap.arrays s !! Heap.cells fo = Some l →
  Heap.getCells fo s
  = Some (length (Heap.arrays s),
          Heap.mkStore (Heap.arrays s ++ [l]) (Heap.objects s)).
Proof.
  intros Hl. unfold Heap.getCells, Heap.bind, Heap.readArray.
  rewrite Hl. unfold Heap.newArray. by rewrite map_id.
Qed.

Lemma readArray_last (arrs : list (list Heap.ref)) (objs : list Cell)
    (l : list Heap.ref) :
  Heap.readArray (length arrs) (Heap.mkStore (arrs ++ [l]) objs)
  = Some (l, Heap.mkStore (arrs ++ [l]) objs).
Proof.
  unfold Heap.readArray. simpl. by rewrite lookup_app_r, Nat.sub_diag.
Qed.

Lemma draw_current (inB : Coords → bool) (st : Game.State) (i : nat)
    (fo : Heap.PlayingField) (l : list Heap.ref) (cs : list Cell) :
  Game.currentPlayingField st = Some i →
  Game.fieldObjects st !! i = Some fo →
  Heap.holds (Game.store st) fo l cs →
  ∃ st',
    Game.draw inB None st
    = Some (Game.Normal (jsFilter (λ cell : Cell, inB cell) cs), st')
    ∧ Game.sameGame st st'.
Proof.
  intros Hcur Hfo [Hl Hp]. destruct st as [s fos hist cur pl].
  simpl in *. subst cur.
  unfold Game.draw.
  unfold Game.bind at 1. unfold Game.getCurrent at 1.
  cbn [Game.currentPlayingField].
  unfold Game.bind at 1. unfold Game.bind at 1.
  unfold Game.fieldGetCells at 1.
  unfold Game.bind at 1. unfold Game.receiver at 1. unfold Game.ret at 1.
  unfold Game.bind at 1. unfold Game.getObject at 1. cbn [Game.fieldObjects].
  rewrite Hfo.
  rewrite (liftStore_run _ _ _ _ _ _ _ _ (getCells_run s fo l Hl)).
  cbn [Game.fieldObjects Game.playingFields Game.currentPlayingField
       Game.playing Game.store].
  unfold Game.bind at 1.
  rewrite (liftStore_run _ _ _ _ _ _ _ _ (readArray_last _ _ l)).
  cbn [Game.fieldObjects Game.playingFields Game.currentPlayingField
       Game.playing Game.store]. unfold Game.ret at 1.
  destruct (Z.eqb_spec (Z.of_nat (length l)) 0) as [Hz|Hnz].
  - assert (l = []) as -> by (destruct l; [done|simpl in Hz; lia]).
    inversion Hp; subst. eexists. split; [done|].
    split_and!; [done..|]. apply extends_newArray.
  - unfold Game.bind at 1. unfold Game.fieldGetCells at 1.
    unfold Game.bind at 1. unfold Game.receiver at 1. unfold Game.ret at 1.
    unfold Game.bind at 1. unfold Game.getObject at 1.
    cbn [Game.fieldObjects]. rewrite Hfo.
    erewrite liftStore_run; last first.
    { apply (getCells_run _ fo l). simpl. by apply lookup_app_l_Some. }
    cbn [Game.fieldObjects Game.playingFields Game.currentPlayingField
         Game.playing Game.store Heap.arrays Heap.objects].
    unfold Game.bind at 1.
    rewrite (liftStore_run _ _ _ _ _ _ _ _ (readArray_last _ _ l)).
    cbn [Game.fieldObjects Game.playingFields Game.currentPlayingField
         Game.playing Game.store].
    unfold Game.bind at 1. erewrite liftStore_run; last first.
    { apply points_readCells. exact Hp. }
    eexists. split; [done|]. split_and!; [done..|]. simpl.
    eapply extends_trans; [apply (extends_newArray s l)|].
    exact (extends_newArray
             (Heap.mkStore (Heap.arrays s ++ [l]) (Heap.objects s)) l).
Qed.

Lemma draw_difference (inB : Coords → bool) (st : Game.State)
    (i old : nat) (fo fold : Heap.PlayingField) (l lo : list Heap.ref)
    (cs co : list Cell) :
  Game.currentPlayingField st = Some i →
  Game.fieldObjects st !! i = Some fo →
  Heap.holds (Game.store st) fo l cs →
  Game.fieldObjects st !! old = Some fold →
  Heap.holds (Game.store st) fold lo co →
  ∃ st',
    Game.draw inB (Some old) st
    = Some (Game.Normal
              (jsFilter (λ cell : Cell, inB cell)
                 (getDifferenceCells (mkPlayingField cs)
                    (mkPlayingField co))),
            st')
    ∧ Game.sameGame st st'.
Proof.
  intros Hcur Hfo Hh Hold Hho. destruct st as [s fos hist cur pl].
  simpl in *. subst cur.
  destruct (getDifferenceCells_store s fo fold l lo cs co Hh Hho)
    as (s' & d & ld & Hrun & Hd & Hpd & Hobj & Harr).
  unfold Game.draw.
  unfold Game.bind at 1. unfold Game.getCurrent at 1.
  cbn [Game.currentPlayingField].
  unfold Game.bind at 1. unfold Game.ret at 1.
  unfold Game.bind at 1. unfold Game.fieldGetDifferenceCells at 1.
  unfold Game.bind at 1. unfold Game.receiver at 1. unfold Game.ret at 1.
  unfold Game.bind at 1. unfold Game.getObject at 1. cbn [Game.fieldObjects].
  rewrite Hfo. unfold Game.bind at 1. unfold Game.getObject at 1.
  cbn [Game.fieldObjects]. rewrite Hold.
  rewrite (liftStore_run _ _ _ _ _ _ _ _ Hrun).
  cbn [Game.fieldObjects Game.playingFields Game.currentPlayingField
       Game.playing Game.store].
  unfold Game.bind at 1. erewrite liftStore_run; last first.
  { unfold Heap.readArray. simpl. by rewrite Hd. }
  cbn [Game.fieldObjects Game.playingFields Game.currentPlayingField
       Game.playing Game.store].
  unfold Game.bind at 1. erewrite liftStore_run; last first.
  { apply points_readCells. exact Hpd. }
  eexists. split; [done|]. split_and!; [done..|]. simpl.
  split; [done|]. intros r cell _. by rewrite Hobj.
Qed.

(** ** The table of PlayingField objects *)

Lemma Inv_bound (st : Game.State) (fo : Heap.PlayingField) :
  Game.Inv st → fo ∈ Game.fieldObjects st →
  (Heap.cells fo < length (Heap.arrays (Game.store st)))%nat.
Proof.
  intros (_ & I2 & _) Hfo. destruct (I2 fo Hfo) as (l & cs & [Hl _] & _).
  by eapply lookup_lt_Some.
Qed.

Lemma Inv_current (st : Game.State) (i : nat) :
  Game.Inv st → Game.currentPlayingField st = Some i →
  ∃ fo l cs,
    Game.fieldObjects st !! i = Some fo
    ∧ Heap.holds (Game.store st) fo l cs
    ∧ onlyAlive (mkPlayingField cs) ∧ uniqueCoords (mkPlayingField cs).
Proof.
  intros (_ & I2 & I3 & I4) Hcur.
  destruct (lookup_lt_is_Some_2 (Game.fieldObjects st) i
              (I4 _ (I3 _ Hcur))) as [fo Hfo].
  destruct (I2 fo (list_elem_of_lookup_2 _ _ _ Hfo)) as (l & cs & H).
  by exists fo, l, cs.
Qed.

Lemma elem_of_insert_inv {A} (l : list A) (i : nat) (y x : A) :
  x ∈ <[i:=y]> l → x = y ∨ ∃ j, j ≠ i ∧ l !! j = Some x.
Proof.
  intros [j Hj]%list_elem_of_lookup.
  apply list_lookup_insert_Some in Hj as [(-> & -> & _)|[Hne Hj]];
    [by left|right]. exists j. split; [done|done].
Qed.

Lemma NoDup_insert_fresh (l : list nat) (i n y : nat) :
  NoDup l → (∀ x, x ∈ l → (x < n)%nat) → (n ≤ y)%nat → NoDup (<[i:=y]> l).
Proof.
  intros Hnd Hlt Hy. apply NoDup_alt. intros j k x Hj Hk.
  apply list_lookup_insert_Some in Hj as [(-> & -> & Hj)|[Hji Hj]];
    apply list_lookup_insert_Some in Hk as [(<- & Hx & Hk)|[Hki Hk]];
    try done.
  - subst. apply list_elem_of_lookup_2, Hlt in Hk. lia.
  - subst. apply list_elem_of_lookup_2, Hlt in Hj. lia.
  - by apply (NoDup_lookup l j k x).
Qed.

Lemma NoDup_snoc_fresh (l : list nat) (n y : nat) :
  NoDup l → (∀ x, x ∈ l → (x < n)%nat) → (n ≤ y)%nat → NoDup (l ++ [y]).
Proof.
  intros Hnd Hlt Hy. apply NoDup_app. split_and!; [done| |apply NoDup_singleton].
  intros x Hx ->%list_elem_of_singleton. apply Hlt in Hx. lia.
Qed.

Lemma cells_bound (st : Game.State) :
  Game.Inv st →
  ∀ x, x ∈ Heap.cells <$> Game.fieldObjects st →
       (x < length (Heap.arrays (Game.store st)))%nat.
Proof.
  intros HI x (fo & -> & Hfo)%list_elem_of_fmap. by apply Inv_bound.
Qed.

Lemma other_object (st : Game.State) (i j : nat)
    (fo fo' : Heap.PlayingField) :
  Game.Inv st → i ≠ j →
  Game.fieldObjects st !! i = Some fo →
  Game.fieldObjects st !! j = Some fo' →
  Heap.cells fo' ≠ Heap.cells fo.
Proof.
  intros (I1 & _) Hne Hi Hj Heq. destruct Hne.
  apply (NoDup_lookup _ i j (Heap.cells fo) I1);
    rewrite list_lookup_fmap; [by rewrite Hi|rewrite Hj; simpl; by f_equal].
Qed.

Lemma Inv_tableOk (st : Game.State) :
  Game.Inv st
  ↔ Game.tableOk (Game.store st) (Game.fieldObjects st)
    ∧ (∀ i, Game.currentPlayingField st = Some i →
            i ∈ Game.playingFields st)
    ∧ (∀ i, i ∈ Game.playingFields st →
            (i < length (Game.fieldObjects st))%nat).
Proof. unfold Game.Inv, Game.tableOk. tauto. Qed.

Lemma tableOk_bound (s : Heap.Store) (fos : list Heap.PlayingField) :
  Game.tableOk s fos →
  ∀ x, x ∈ Heap.cells <$> fos → (x < length (Heap.arrays s))%nat.
Proof.
  intros [_ T2] x (fo & -> & Hfo)%list_elem_of_fmap.
  destruct (T2 fo Hfo) as (l & cs & [Hl _] & _). by eapply lookup_lt_Some.
Qed.

(** Appending a new PlayingField object over a new array. *)
Lemma tableOk_newObject (s s' : Heap.Store) (fos : list Heap.PlayingField)
    (g : Heap.PlayingField) (lg : list Heap.ref) (cg : list Cell) :
  Game.tableOk s fos →
  Game.extends s s' →
  (length (Heap.arrays s) ≤ Heap.cells g)%nat →
  Heap.holds s' g lg cg →
  onlyAlive (mkPlayingField cg) → uniqueCoords (mkPlayingField cg) →
  Game.tableOk s' (fos ++ [g]).
Proof.
  intros HT HE Hfresh Hg Ha Hu. pose proof HT as [T1 T2]. split.
  - rewrite fmap_app. simpl.
    apply (NoDup_snoc_fresh _ (length (Heap.arrays s))); [done| |done].
    by apply tableOk_bound.
  - intros fo [Hfo|Hfo%list_elem_of_singleton]%elem_of_app.
    + destruct (T2 fo Hfo) as (l & cs & Hh & Hrest).
      exists l, cs. split; [|done]. by apply (holds_extends s).
    + subst fo. by exists lg, cg.
Qed.

(** Writing the array of one object of the table. *)
Lemma tableOk_write (s s' : Heap.Store) (fos : list Heap.PlayingField)
    (i : nat) (fo : Heap.PlayingField) (l' : list Heap.ref)
    (cs' : list Cell) :
  Game.tableOk s fos → fos !! i = Some fo →
  Heap.keepsArrays (Heap.cells fo) s s' → Heap.keepsObjects [] s s' →
  Heap.holds s' fo l' cs' →
  onlyAlive (mkPlayingField cs') → uniqueCoords (mkPlayingField cs') →
  Game.tableOk s' fos
  ∧ ∀ j fo' lj cj, j ≠ i → fos !! j = Some fo' →
      Heap.holds s fo' lj cj → Heap.holds s' fo' lj cj.
Proof.
  intros [T1 T2] Hi Harr Hobj Hh Ha Hu.
  assert (∀ j fo' lj cj, j ≠ i → fos !! j = Some fo' →
            Heap.holds s fo' lj cj → Heap.holds s' fo' lj cj) as Hothers.
  { intros j fo' lj cj Hne Hj Hh'.
    apply (holds_frame s s' (Heap.cells fo)); [done..| |done].
    intros Heq. destruct Hne.
    apply (NoDup_lookup _ j i (Heap.cells fo) T1);
      rewrite list_lookup_fmap; [rewrite Hj; simpl; by f_equal|by rewrite Hi]. }
  split; [|done]. split; [done|].
  intros x [j Hj]%list_elem_of_lookup.
  destruct (decide (j = i)) as [->|Hne].
  - assert (x = fo) as -> by congruence. by exists l', cs'.
  - destruct (T2 x (list_elem_of_lookup_2 _ _ _ Hj)) as (lj & cj & Hh' & Hrest).
    exists lj, cj. split; [|done]. by apply (Hothers j).
Qed.

(** ** One generation of the game *)

Lemma spawnNew_value_ok (cs : list Cell) :
  uniqueCoords (mkPlayingField cs) →
  onlyAlive (spawnNew (mkPlayingField cs)).1
  ∧ uniqueCoords (spawnNew (mkPlayingField cs)).1
  ∧ onlyAlive (spawnNew (mkPlayingField cs)).2
  ∧ uniqueCoords (spawnNew (mkPlayingField cs)).2.
Proof.
  intros Hu. destruct (spawnNew_unique _ Hu) as [U1 U2].
  split_and!; [apply spawnNew_onlyAlive|done| |done].
  unfold onlyAlive. rewrite spawnNew_source.
  apply (jsFilter_Forall (λ cell : Cell, hasLife cell)).
Qed.

(** The state after [this.currentPlayingField.spawnNew()]: the object
    of the advanced field holds its pruned array, and the new field is a
    new object. *)
Lemma fieldSpawnNew_run (s : Heap.Store) (fos : list Heap.PlayingField)
    (hist : list nat) (cur : nat) (pl : bool) (fo : Heap.PlayingField)
    (l : list Heap.ref) (cs : list Cell) :
  Game.Inv (Game.mkState s fos hist (Some cur) pl) →
  fos !! cur = Some fo → Heap.holds s fo l cs →
  uniqueCoords (mkPlayingField cs) →
  ∃ s' f this' lf lt,
    Game.fieldSpawnNew (Some cur) (Game.mkState s fos hist (Some cur) pl)
    = Some (Game.Normal (length fos),
            Game.mkState s' (<[cur := this']> fos ++ [f]) hist (Some cur)
              pl)
    ∧ Heap.holds s' f lf (cells (spawnNew (mkPlayingField cs)).1)
    ∧ Heap.holds s' this' lt (cells (spawnNew (mkPlayingField cs)).2)
    ∧ (∀ j fo' l' cs', j ≠ cur → fos !! j = Some fo' →
         Heap.holds s fo' l' cs' → Heap.holds s' fo' l' cs')
    ∧ Game.Inv (Game.mkState s' (<[cur := this']> fos ++ [f])
                  (hist ++ [length fos]) (Some (length fos)) pl).
Proof.
  intros HI Hfo Hh Hu.
  destruct (spawnNew_store_fresh s fo l cs Hh)
    as (s' & f & this' & lf & lt & Hrun & Hf & Ht & Harr & Hobj
        & Hfresh & Hlt & _).
  exists s', f, this', lf, lt.
  assert (∀ j fo' l' cs', j ≠ cur → fos !! j = Some fo' →
            Heap.holds s fo' l' cs' → Heap.holds s' fo' l' cs') as Hothers.
  { intros j fo' l' cs' Hne Hj Hh'.
    apply (holds_frame s s' (Heap.cells fo)); [done..| |done].
    by apply (other_object _ cur j fo fo' HI). }
  split_and!; [|done..|].
  - unfold Game.fieldSpawnNew.
    unfold Game.bind at 1. unfold Game.receiver at 1. unfold Game.ret at 1.
    unfold Game.bind at 1. unfold Game.getObject at 1. simpl. rewrite Hfo.
    unfold Game.bind at 1.
    rewrite (liftStore_run _ _ _ _ _ _ _ _ Hrun).
    unfold Game.bind, Game.setObject, Game.newObject. simpl. rewrite Hfo.
    simpl. by rewrite length_insert.
  - destruct (spawnNew_value_ok cs Hu) as (A1 & U1 & A2 & U2).
    pose proof HI as (I1 & I2 & I3 & I4). simpl in *.
    pose proof (cells_bound _ HI) as Hbound. simpl in Hbound.
    split_and!; simpl.
    + rewrite fmap_app, list_fmap_insert. simpl.
      apply NoDup_app. split_and!; [| |apply NoDup_singleton].
      * apply (NoDup_insert_fresh _ _ (length (Heap.arrays s))); [done..|lia].
      * intros x Hx ->%list_elem_of_singleton.
        apply elem_of_insert_inv in Hx as [Hx|(j & _ & Hj)]; [lia|].
        apply list_elem_of_lookup_2, Hbound in Hj. lia.
    + intros x [Hx|Hx%list_elem_of_singleton]%elem_of_app.
      * apply elem_of_insert_inv in Hx as [->|(j & Hne & Hj)].
        -- exists lt, (cells (spawnNew (mkPlayingField cs)).2).
           by rewrite !field_eta.
        -- destruct (I2 x (list_elem_of_lookup_2 _ _ _ Hj))
             as (l' & cs' & Hh' & Hrest).
           exists l', cs'. split; [|done]. by apply (Hothers j).
      * subst x. exists lf, (cells (spawnNew (mkPlayingField cs)).1).
        by rewrite !field_eta.
    + intros i [= <-]. apply elem_of_app. right. by left.
    + intros i [Hi| ->%list_elem_of_singleton]%elem_of_app;
        rewrite length_app, length_insert; simpl; [|lia].
      apply I4 in Hi. lia.
Qed.

Lemma play_idle (inB : Coords → bool) (st : Game.State) :
  Game.playing st = false →
  Game.play inB false st = Some (Game.Normal None, st).
Proof.
  intros Hp. unfold Game.play, Game.bind, Game.getPlaying. by rewrite Hp.
Qed.

(** Without a current field [play] throws where it calls [spawnNew],
    before it has changed anything. *)
Lemma play_throws (inB : Coords → bool) (step : bool) (st : Game.State) :
  Game.currentPlayingField st = None →
  Game.playing st = true ∨ step = true →
  Game.play inB step st = Some (Game.TypeError, st).
Proof.
  intros Hcur Hgo. unfold Game.play.
  unfold Game.bind at 1. unfold Game.getPlaying at 1.
  assert (negb (Game.playing st) && negb step = false) as ->
    by (destruct Hgo as [-> | ->]; simpl; [done|apply andb_false_r]).
  unfold Game.bind at 1. unfold Game.getCurrent at 1. rewrite Hcur.
  reflexivity.
Qed.

Lemma play_run (inB : Coords → bool) (step : bool) (st : Game.State)
    (cur : nat) :
  Game.Inv st → Game.currentPlayingField st = Some cur →
  Game.playing st = true ∨ step = true →
  ∃ fo l cs st',
    Game.fieldObjects st !! cur = Some fo
    ∧ Heap.holds (Game.store st) fo l cs
    ∧ Game.play inB step st
      = Some (Game.Normal
                (Some
                   (jsFilter (λ cell : Cell, inB cell)
                      (getDifferenceCells (spawnNew (mkPlayingField cs)).1
                         (spawnNew (mkPlayingField cs)).2),
                    jsFilter (λ cell : Cell, inB cell)
                      (cells (spawnNew (mkPlayingField cs)).1))),
              st')
    ∧ Game.Inv st'
    ∧ Game.playingFields st'
      = Game.playingFields st ++ [length (Game.fieldObjects st)]
    ∧ Game.currentPlayingField st' = Some (length (Game.fieldObjects st))
    ∧ Game.playing st' = Game.playing st
    ∧ Game.viewOf st' (length (Game.fieldObjects st))
        (cells (spawnNew (mkPlayingField cs)).1)
    ∧ Game.viewOf st' cur (cells (spawnNew (mkPlayingField cs)).2)
    ∧ ∀ j cs', j ≠ cur → Game.viewOf st j cs' → Game.viewOf st' j cs'.
Proof.
  intros HI Hcur Hgo.
  destruct (Inv_current st cur HI Hcur)
    as (fo & l & cs & Hfo & Hh & Ha & Hu).
  exists fo, l, cs. destruct st as [s fos hist cur0 pl]. simpl in *.
  subst cur0.
  destruct (fieldSpawnNew_run s fos hist cur pl fo l cs HI Hfo Hh Hu)
    as (s' & f & this' & lf & lt & Hspawn & Hf & Ht & Hothers & HI2).
  set (st2 := Game.mkState s' (<[cur := this']> fos ++ [f])
                (hist ++ [length fos]) (Some (length fos)) pl) in *.
  assert (Game.fieldObjects st2 !! length fos = Some f) as Hnew.
  { simpl. rewrite lookup_app_r by (rewrite length_insert; lia).
    by rewrite length_insert, Nat.sub_diag. }
  assert (Game.fieldObjects st2 !! cur = Some this') as Hold.
  { simpl. apply lookup_app_l_Some, list_lookup_insert_eq.
    by eapply lookup_lt_Some. }
  destruct (draw_difference inB st2 (length fos) cur f this' lf lt _ _
              eq_refl Hnew Hf Hold Ht)
    as (st3 & Hdraw1 & Hsame3).
  rewrite !field_eta in Hdraw1.
  pose proof Hsame3 as (HF3 & HH3 & HC3 & HP3 & HE3).
  destruct (draw_current inB st3 (length fos) f lf
              (cells (spawnNew (mkPlayingField cs)).1))
    as (st4 & Hdraw2 & Hsame4).
  { by rewrite HC3. }
  { by rewrite HF3. }
  { by apply (holds_extends _ _ _ _ _ HE3). }
  pose proof (sameGame_trans _ _ _ Hsame3 Hsame4) as Hsame.
  pose proof Hsame as (HF & HH & HC & HP & HE).
  exists st4. split_and!; try done.
  - unfold Game.play. unfold Game.bind at 1. unfold Game.getPlaying at 1.
    simpl.
    assert (negb pl && negb step = false) as ->
      by (destruct Hgo as [-> | ->]; simpl;
          [done|apply andb_false_r]).
    unfold Game.bind at 1. unfold Game.getCurrent at 1. simpl.
    rewrite (gbind_run _ _ _ _ _ Hspawn).
    unfold Game.bind at 1. unfold Game.setCurrent at 1. simpl.
    unfold Game.bind at 1. unfold Game.getHistory at 1. simpl.
    unfold Game.bind at 1. unfold Game.setHistory at 1. simpl.
    fold st2. rewrite (gbind_run _ _ _ _ _ Hdraw1).
    by rewrite (gbind_run _ _ _ _ _ Hdraw2).
  - by apply (Inv_sameGame st2).
  - apply (viewOf_sameGame st2); [done|]. by exists f, lf.
  - apply (viewOf_sameGame st2); [done|]. by exists this', lt.
  - intros j cs' Hne (fo' & l' & Hj & Hh').
    apply (viewOf_sameGame st2); [done|]. exists fo', l'. split.
    + simpl. apply lookup_app_l_Some. by rewrite list_lookup_insert_ne.
    + by apply (Hothers j).
Qed.

(** ** A click *)

Lemma getClone_run (s : Heap.Store) (fo : Heap.PlayingField)
    (l : list Heap.ref) :
  Heap.arrays s !! Heap.cells fo = Some l →
  Heap.getClone fo s
  = Some (Heap.mkPlayingField (length (Heap.arrays s)),
          Heap.mkStore (Heap.arrays s ++ [l]) (Heap.objects s)).
Proof.
  intros Hl. unfold Heap.getClone.
  by rewrite (bind_run _ _ _ _ _ (getCells_run s fo l Hl)).
Qed.

Lemma difference_clone (this otherField : PlayingField) :
  getDifferenceCells this (getClone otherField)
  = getDifferenceCells this otherField.
Proof. by rewrite !getDifferenceCells_filter, getClone_cells. Qed.

(** Without a current field a click throws where it calls [getClone],
    before it has changed anything. *)
Lemma populationWatcher_throws (inB : Coords → bool) (c : Coords)
    (st : Game.State) :
  Game.currentPlayingField st = None →
  Game.populationWatcher inB c st = Some (Game.TypeError, st).
Proof.
  intros Hcur. unfold Game.populationWatcher.
  unfold Game.bind at 1. unfold Game.getCurrent at 1. rewrite Hcur.
  reflexivity.
Qed.

Lemma populationWatcher_run (inB : Coords → bool) (c : Coords)
    (st : Game.State) (cur : nat) :
  Game.Inv st → Game.currentPlayingField st = Some cur →
  ∃ fo l cs st',
    Game.fieldObjects st !! cur = Some fo
    ∧ Heap.holds (Game.store st) fo l cs
    ∧ Game.populationWatcher inB c st
      = Some (Game.Normal
                (jsFilter (λ cell : Cell, inB cell)
                   (if hasLifeAt (mkPlayingField cs) c
                    then [mkCell c true] else []),
                 jsFilter (λ cell : Cell, inB cell)
                   (cells (toggleCell (mkPlayingField cs) c))),
              st')
    ∧ Game.Inv st'
    ∧ Game.playingFields st' = Game.playingFields st
    ∧ Game.currentPlayingField st' = Some cur
    ∧ Game.playing st' = Game.playing st
    ∧ Game.viewOf st' cur (cells (toggleCell (mkPlayingField cs) c))
    ∧ ∀ j cs', j ≠ cur → Game.viewOf st j cs' → Game.viewOf st' j cs'.
Proof.
  intros HI Hcur.
  destruct (Inv_current st cur HI Hcur)
    as (fo & l & cs & Hfo & Hh & Ha & Hu).
  exists fo, l, cs. destruct st as [s fos hist cur0 pl]. simpl in *.
  subst cur0.
  pose proof Hh as [Hl Hp].
  apply Inv_tableOk in HI as (HT & I3 & I4). simpl in *.
  set (g := Heap.mkPlayingField (length (Heap.arrays s))).
  set (s1 := Heap.mkStore (Heap.arrays s ++ [l]) (Heap.objects s)).
  pose proof (extends_newArray s l) as HE1. fold s1 in HE1.
  assert (Heap.holds s1 g l cs) as Hg1.
  { split; [|by apply (points_keeps s); [apply HE1|]]. unfold g, s1. simpl.
    by rewrite lookup_app_r, Nat.sub_diag. }
  assert (Game.tableOk s1 (fos ++ [g])) as HT1.
  { by apply (tableOk_newObject s s1 fos g l cs). }
  assert ((fos ++ [g]) !! cur = Some fo) as Hfo1
    by by apply lookup_app_l_Some.
  assert ((fos ++ [g]) !! length fos = Some g) as Hg
    by by rewrite lookup_app_r, Nat.sub_diag.
  assert (Heap.holds s1 fo l cs) as Hh1 by by apply (holds_extends s).
  destruct (toggleCell_store_onlyAlive s1 fo l cs c Hh1 Ha)
    as (s2 & l' & Hrun & Hh2 & Harr & Hobj).
  destruct (tableOk_write s1 s2 (fos ++ [g]) cur fo l' _ HT1 Hfo1 Harr Hobj
              Hh2) as [HT2 Hothers].
  { rewrite field_eta. by apply toggleCell_onlyAlive. }
  { rewrite field_eta. by apply toggleCell_unique. }
  assert (Heap.holds s2 g l cs) as Hg2.
  { apply (Hothers (length fos) g); [|done..].
    apply lookup_lt_Some in Hfo. lia. }
  set (st2 := Game.mkState s2 (fos ++ [g]) hist (Some cur) pl).
  assert (Game.Inv st2) as HI2.
  { apply Inv_tableOk. simpl. split_and!; [done..|].
    intros i Hi. rewrite length_app. apply I4 in Hi. lia. }
  destruct (draw_difference inB st2 cur (length fos) fo g l' l _ cs
              eq_refl Hfo1 Hh2 Hg Hg2)
    as (st3 & Hdraw1 & Hsame3).
  rewrite field_eta in Hdraw1.
  pose proof Hsame3 as (HF3 & HH3 & HC3 & HP3 & HE3).
  destruct (draw_current inB st3 cur fo l'
              (cells (toggleCell (mkPlayingField cs) c)))
    as (st4 & Hdraw2 & Hsame4).
  { by rewrite HC3. }
  { by rewrite HF3. }
  { by apply (holds_extends _ _ _ _ _ HE3). }
  pose proof (sameGame_trans _ _ _ Hsame3 Hsame4) as Hsame.
  pose proof Hsame as (HF & HH & HC & HP & HE).
  exists st4. split_and!; try done.
  - unfold Game.populationWatcher.
    unfold Game.bind at 1. unfold Game.getCurrent at 1. simpl.
    unfold Game.bind at 1. unfold Game.fieldGetClone at 1.
    unfold Game.bind at 1. unfold Game.receiver at 1. unfold Game.ret at 1.
    unfold Game.bind at 1. unfold Game.getObject at 1. simpl. rewrite Hfo.
    unfold Game.bind at 1.
    rewrite (liftStore_run _ _ _ _ _ _ _ _ (getClone_run s fo l Hl)).
    unfold Game.newObject at 1. simpl.
    unfold Game.bind at 1. unfold Game.getCurrent at 1. simpl.
    unfold Game.bind at 1. unfold Game.fieldToggleCell at 1.
    unfold Game.bind at 1. unfold Game.receiver at 1. unfold Game.ret at 1.
    unfold Game.bind at 1. unfold Game.getObject at 1. simpl.
    fold g. rewrite Hfo1. fold s1.
    rewrite (liftStore_run _ _ _ _ _ _ _ _ Hrun). fold st2.
    rewrite (gbind_run _ _ _ _ _ Hdraw1).
    rewrite (gbind_run _ _ _ _ _ Hdraw2). unfold Game.ret.
    do 5 f_equal. rewrite <- (difference_clone _ (mkPlayingField cs)).
    by apply difference_after_toggle.
  - by apply (Inv_sameGame st2).
  - apply (viewOf_sameGame st2); [done|]. by exists fo, l'.
  - intros j cs' Hne (fo' & lj & Hj & Hh').
    apply (viewOf_sameGame st2); [done|]. exists fo', lj. split.
    + simpl. by apply lookup_app_l_Some.
    + apply (Hothers j fo'); [done|by apply lookup_app_l_Some|].
      by apply (holds_extends s).
Qed.

(** ** The other handlers *)

Lemma points_select (p : Cell → bool) (s : Heap.Store) (l : list Heap.ref)
    (cs : list Cell) :
  Heap.points s l cs →
  Heap.points s
    (fst <$> List.filter (λ rc : Heap.ref * Cell, p rc.2) (zip l cs))
    (jsFilter p cs).
Proof.
  unfold jsFilter. induction 1 as [|r cell l cs Hr _ IH]; simpl.
  - constructor.
  - destruct (p cell); [by constructor|done].
Qed.

Lemma jsFilter_onlyAlive (p : Cell → bool) (cs : list Cell) :
  onlyAlive (mkPlayingField cs) → onlyAlive (mkPlayingField (jsFilter p cs)).
Proof.
  unfold onlyAlive. simpl. rewrite !Forall_forall. intros Ha cell Hin.
  apply Ha. by apply (elem_of_sublist _ _ _ Hin), jsFilter_sublist.
Qed.

Lemma jsFilter_unique (p : Cell → bool) (cs : list Cell) :
  uniqueCoords (mkPlayingField cs) →
  uniqueCoords (mkPlayingField (jsFilter p cs)).
Proof.
  unfold uniqueCoords. simpl. intros Hu.
  eapply sublist_NoDup; [exact Hu|]. apply jsFilter_fmap_sublist.
Qed.

(** Without a current field [killUnseenHandler] throws where it calls
    [getCells], before it has changed anything. *)
Lemma killUnseenHandler_throws (inB : Coords → bool) (st : Game.State) :
  Game.currentPlayingField st = None →
  Game.killUnseenHandler inB st = Some (Game.TypeError, st).
Proof.
  intros Hcur. unfold Game.killUnseenHandler.
  unfold Game.bind at 1. unfold Game.getCurrent at 1. rewrite Hcur.
  reflexivity.
Qed.

Lemma killUnseenHandler_run (inB : Coords → bool) (st : Game.State)
    (cur : nat) :
  Game.Inv st → Game.currentPlayingField st = Some cur →
  ∃ fo l cs st',
    Game.fieldObjects st !! cur = Some fo
    ∧ Heap.holds (Game.store st) fo l cs
    ∧ Game.killUnseenHandler inB st = Some (Game.Normal (), st')
    ∧ Game.Inv st'
    ∧ Game.playingFields st'
      = Game.playingFields st ++ [length (Game.fieldObjects st)]
    ∧ Game.currentPlayingField st' = Some (length (Game.fieldObjects st))
    ∧ Game.playing st' = Game.playing st
    ∧ Game.viewOf st' (length (Game.fieldObjects st))
        (jsFilter (λ cell : Cell, inB cell) cs)
    ∧ ∀ j cs', Game.viewOf st j cs' → Game.viewOf st' j cs'.
Proof.
  intros HI Hcur.
  destruct (Inv_current st cur HI Hcur)
    as (fo & l & cs & Hfo & Hh & Ha & Hu).
  exists fo, l, cs. destruct st as [s fos hist cur0 pl]. simpl in *.
  subst cur0.
  pose proof Hh as [Hl Hp].
  apply Inv_tableOk in HI as (HT & I3 & I4). simpl in *.
  set (s1 := Heap.mkStore (Heap.arrays s ++ [l]) (Heap.objects s)).
  set (lk := fst <$> List.filter (λ rc : Heap.ref * Cell, inB rc.2)
                      (zip l cs)).
  set (s2 := Heap.mkStore ((Heap.arrays s ++ [l]) ++ [lk]) (Heap.objects s)).
  set (g := Heap.mkPlayingField (length (Heap.arrays s ++ [l]))).
  assert (Game.extends s s2) as HE.
  { eapply extends_trans; [apply (extends_newArray s l)|].
    exact (extends_newArray s1 lk). }
  assert (Heap.holds s2 g lk (jsFilter (λ cell : Cell, inB cell) cs)) as Hg.
  { split.
    - unfold g, s2. simpl. by rewrite lookup_app_r, Nat.sub_diag.
    - apply (points_objects s); [done|].
      apply (points_select (λ cell : Cell, inB cell)), Hp. }
  assert (Game.tableOk s2 (fos ++ [g])) as HT2.
  { apply (tableOk_newObject s s2 fos g lk
             (jsFilter (λ cell : Cell, inB cell) cs) HT HE); [|done|..].
    - unfold g. simpl. rewrite length_app. lia.
    - by apply jsFilter_onlyAlive.
    - by apply jsFilter_unique. }
  eexists. split_and!; [done|done| | | | | | |].
  - unfold Game.killUnseenHandler.
    unfold Game.bind at 1. unfold Game.getCurrent at 1. simpl.
    unfold Game.bind at 1. unfold Game.fieldGetCells at 1.
    unfold Game.bind at 1. unfold Game.receiver at 1. unfold Game.ret at 1.
    unfold Game.bind at 1. unfold Game.getObject at 1. simpl. rewrite Hfo.
    rewrite (liftStore_run _ _ _ _ _ _ _ _ (getCells_run s fo l Hl)).
    unfold Game.bind at 1.
    rewrite (liftStore_run _ _ _ _ _ _ _ _ (readArray_last _ _ l)).
    unfold Game.bind at 1. erewrite liftStore_run; last first.
    { apply points_readCells. apply (points_objects s); [done|exact Hp]. }
    unfold Game.bind at 1. erewrite liftStore_run; last first.
    { unfold Heap.newArray. simpl. reflexivity. }
    unfold Game.bind at 1. unfold Game.fieldNew at 1.
    unfold Game.bind at 1. erewrite liftStore_run; last first.
    { unfold Heap.newPlayingField, Heap.ret. reflexivity. }
    unfold Game.newObject at 1. simpl.
    unfold Game.bind, Game.setCurrent, Game.getHistory, Game.setHistory.
    simpl. reflexivity.
  - apply Inv_tableOk. simpl. fold lk. fold g. fold s2.
    split_and!; [done| |].
    + intros i [= <-]. apply elem_of_app. right. by left.
    + intros i [Hi| ->%list_elem_of_singleton]%elem_of_app;
        rewrite length_app; simpl; [|lia]. apply I4 in Hi. lia.
  - done.
  - done.
  - done.
  - exists g, lk. simpl. split; [|done].
    by rewrite lookup_app_r, Nat.sub_diag.
  - intros j cs' (fo' & lj & Hj & Hh'). exists fo', lj. simpl. split.
    + by apply lookup_app_l_Some.
    + by apply (holds_extends s).
Qed.

Lemma Inv_setCurrent (s : Heap.Store) (fos : list Heap.PlayingField)
    (hist : list nat) (cur f : option nat) (pl pl' : bool) :
  Game.Inv (Game.mkState s fos hist cur pl) →
  (∀ i, f = Some i → i ∈ hist) →
  Game.Inv (Game.mkState s fos hist f pl').
Proof.
  intros (HT & _ & I4)%Inv_tableOk Hi. apply Inv_tableOk. by simpl in *.
Qed.

(** Without a current field the regular [draw] throws where it calls
    [getCells]. *)
Lemma draw_throws (inB : Coords → bool) (st : Game.State) :
  Game.currentPlayingField st = None →
  Game.draw inB None st = Some (Game.TypeError, st).
Proof.
  intros Hcur. unfold Game.draw.
  unfold Game.bind at 1. unfold Game.getCurrent at 1. rewrite Hcur.
  reflexivity.
Qed.

Lemma generationHandler_run (inB : Coords → bool) (generation : Z)
    (st : Game.State) :
  Game.Inv st →
  1 ≤ generation ≤ Z.of_nat (length (Game.playingFields st)) →
  ∃ i cs st',
    Game.playingFields st !! Z.to_nat (generation - 1) = Some i
    ∧ Game.viewOf st i cs
    ∧ Game.generationHandler inB generation st
      = Some (Game.Normal (jsFilter (λ cell : Cell, inB cell) cs), st')
    ∧ Game.Inv st'
    ∧ Game.currentPlayingField st' = Some i
    ∧ Game.playingFields st' = Game.playingFields st
    ∧ Game.playing st' = Game.playing st
    ∧ Game.fieldObjects st' = Game.fieldObjects st
    ∧ ∀ j cs', Game.viewOf st j cs' → Game.viewOf st' j cs'.
Proof.
  intros HI Hrange. destruct st as [s fos hist cur pl]. simpl in *.
  destruct (lookup_lt_is_Some_2 hist (Z.to_nat (generation - 1)))
    as [i Hi]; [lia|].
  pose proof (list_elem_of_lookup_2 _ _ _ Hi) as Hin.
  assert (Game.Inv (Game.mkState s fos hist (Some i) pl)) as HI1.
  { apply (Inv_setCurrent s fos hist cur (Some i) pl pl HI).
    by intros j [= <-]. }
  destruct (Inv_current _ i HI1 eq_refl) as (fo & l & cs & Hfo & Hh & _).
  simpl in *.
  destruct (draw_current inB (Game.mkState s fos hist (Some i) pl) i fo l cs
              eq_refl Hfo Hh)
    as (st' & Hdraw & Hsame).
  pose proof Hsame as (HF & HH & HC & HP & HE).
  exists i, cs, st'. split_and!; try done.
  - by exists fo, l.
  - unfold Game.generationHandler.
    unfold Game.bind at 1. unfold Game.getHistory at 1. simpl.
    destruct (Z.leb_spec 0 (generation - 1)); [|lia]. rewrite Hi.
    unfold Game.bind at 1. unfold Game.setCurrent at 1. simpl. done.
  - by apply (Inv_sameGame _ _ Hsame).
  - intros j cs' Hv. apply (viewOf_sameGame _ _ _ _ Hsame).
    destruct Hv as (fo' & lj & Hj & Hh'). by exists fo', lj.
Qed.

(** Outside the history [generationHandler] leaves the game without a
    current field and throws. *)
Lemma generationHandler_throws (inB : Coords → bool) (generation : Z)
    (st : Game.State) :
  generation < 1 ∨ Z.of_nat (length (Game.playingFields st)) < generation →
  Game.generationHandler inB generation st
  = Some (Game.TypeError,
          Game.mkState (Game.store st) (Game.fieldObjects st)
            (Game.playingFields st) None (Game.playing st)).
Proof.
  intros Hout. unfold Game.generationHandler.
  unfold Game.bind at 1. unfold Game.getHistory at 1.
  assert ((if 0 <=? generation - 1
           then Game.playingFields st !! Z.to_nat (generation - 1)
           else None) = None) as ->.
  { destruct (Z.leb_spec 0 (generation - 1)); [|done].
    apply lookup_ge_None_2. lia. }
  unfold Game.bind at 1. unfold Game.setCurrent at 1.
  by rewrite draw_throws.
Qed.

Lemma initPlayingField_run (st : Game.State) :
  Game.tableOk (Game.store st) (Game.fieldObjects st) →
  ∃ st',
    Game.initPlayingField st = Some (Game.Normal (), st')
    ∧ Game.Inv st'
    ∧ Game.playingFields st' = [length (Game.fieldObjects st)]
    ∧ Game.currentPlayingField st' = Some (length (Game.fieldObjects st))
    ∧ Game.playing st' = false
    ∧ Game.viewOf st' (length (Game.fieldObjects st)) []
    ∧ ∀ j cs', Game.viewOf st j cs' → Game.viewOf st' j cs'.
Proof.
  intros HT. destruct st as [s fos hist cur pl]. simpl in *.
  set (g := Heap.mkPlayingField (length (Heap.arrays s))).
  set (s1 := Heap.mkStore (Heap.arrays s ++ [[]]) (Heap.objects s)).
  pose proof (extends_newArray s []) as HE. fold s1 in HE.
  assert (Heap.holds s1 g [] []) as Hg.
  { split; [|constructor]. unfold g, s1. simpl.
    by rewrite lookup_app_r, Nat.sub_diag. }
  assert (Game.tableOk s1 (fos ++ [g])) as HT1.
  { apply (tableOk_newObject s s1 fos g [] [] HT HE); [done|done|..].
    - constructor.
    - constructor. }
  eexists. split_and!.
  - unfold Game.initPlayingField.
    unfold Game.bind at 1. unfold Game.setHistory at 1. simpl.
    unfold Game.bind at 1. unfold Game.fieldNew at 1.
    unfold Game.bind at 1. erewrite liftStore_run; last first.
    { unfold Heap.newPlayingField.
      unfold Heap.bind, Heap.newArray, Heap.ret. reflexivity. }
    unfold Game.newObject at 1. simpl.
    unfold Game.bind, Game.setCurrent, Game.getHistory, Game.setHistory,
      Game.stop, Game.setPlaying. simpl. reflexivity.
  - apply Inv_tableOk. simpl. fold g. fold s1. split_and!; [done| |].
    + intros i [= <-]. by left.
    + intros i ->%list_elem_of_singleton. rewrite length_app. simpl. lia.
  - done.
  - done.
  - done.
  - exists g, []. simpl. split; [|done].
    by rewrite lookup_app_r, Nat.sub_diag.
  - intros j cs' (fo' & lj & Hj & Hh'). exists fo', lj. simpl. split.
    + by apply lookup_app_l_Some.
    + by apply (holds_extends s).
Qed.

Lemma Inv_playing (s : Heap.Store) (fos : list Heap.PlayingField)
    (hist : list nat) (cur : option nat) (pl pl' : bool) :
  Game.Inv (Game.mkState s fos hist cur pl) →
  Game.Inv (Game.mkState s fos hist cur pl').
Proof. intros HI. by apply Inv_tableOk, Inv_tableOk in HI. Qed.

(** What [play] leaves, whether it returns or throws. *)
Lemma play_Inv (inB : Coords → bool) (step : bool) (st st' : Game.State)
    (out : Game.Completion (option (list Cell * list Cell))) :
  Game.Inv st → Game.play inB step st = Some (out, st') → Game.Inv st'.
Proof.
  intros HI Hrun.
  destruct (decide (Game.playing st = true ∨ step = true)) as [Hgo|Hidle].
  - destruct (Game.currentPlayingField st) as [cur|] eqn:Hcur.
    + destruct (play_run inB step st cur HI Hcur Hgo) as
        (fo & l & cs & st2 & _ & _ & Hrun2 & HI2 & _). congruence.
    + rewrite (play_throws inB step st Hcur Hgo) in Hrun. congruence.
  - destruct (Game.playing st) eqn:Hpl; [tauto|].
    destruct step; [tauto|].
    rewrite (play_idle inB st Hpl) in Hrun. congruence.
Qed.

Lemma Step_Inv (st st' : Game.State) :
  Game.Inv st → Game.Step st st' → Game.Inv st'.
Proof.
  intros HI Hstep. destruct Hstep as
    [inB c st out st' Hrun|inB step st out st' Hrun|inB st out st' Hrun
    |inB st out st' Hrun|st out st' Hrun|st out st' Hrun
    |inB st out st' Hrun|inB g st out st' Hrun].
  - destruct (Game.currentPlayingField st) as [cur|] eqn:Hcur.
    + destruct (populationWatcher_run inB c st cur HI Hcur)
        as (fo & l & cs & st2 & _ & _ & Hrun2 & HI2 & _). congruence.
    + rewrite (populationWatcher_throws inB c st Hcur) in Hrun. congruence.
  - by apply (play_Inv inB step st st' out).
  - unfold Game.stepHandler in Hrun. unfold Game.bind at 1 in Hrun.
    unfold Game.getPlaying at 1 in Hrun.
    destruct (Game.playing st) eqn:Hpl; simpl in Hrun.
    + unfold Game.ret in Hrun. congruence.
    + by apply (play_Inv inB true st st' out).
  - unfold Game.start in Hrun. unfold Game.bind at 1 in Hrun.
    unfold Game.setPlaying at 1 in Hrun. destruct st as [s fos hist cur pl].
    simpl in Hrun.
    apply (play_Inv inB false (Game.mkState s fos hist cur true) st' out);
      [|done].
    by apply (Inv_playing _ _ _ _ pl).
  - destruct st as [s fos hist cur pl].
    unfold Game.stop, Game.setPlaying in Hrun. simpl in Hrun.
    injection Hrun as _ <-. by apply (Inv_playing _ _ _ _ pl).
  - unfold Game.resetHandler in Hrun. unfold Game.bind at 1 in Hrun.
    unfold Game.setHistory at 1 in Hrun. destruct st as [s fos hist cur pl].
    simpl in Hrun.
    destruct (initPlayingField_run (Game.mkState s fos [] cur pl))
      as (st2 & Hrun2 & HI2 & _).
    { apply Inv_tableOk in HI. apply HI. }
    congruence.
  - destruct (Game.currentPlayingField st) as [cur|] eqn:Hcur.
    + destruct (killUnseenHandler_run inB st cur HI Hcur)
        as (fo & l & cs & st2 & _ & _ & Hrun2 & HI2 & _). congruence.
    + rewrite (killUnseenHandler_throws inB st Hcur) in Hrun. congruence.
  - destruct (decide (1 ≤ g ≤ Z.of_nat (length (Game.playingFields st))))
      as [Hin|Hout].
    + destruct (generationHandler_run inB g st HI Hin)
        as (i & cs & st2 & _ & _ & Hrun2 & HI2 & _). congruence.
    + rewrite generationHandler_throws in Hrun by lia.
      injection Hrun as _ <-. destruct st as [s fos hist cur pl].
      by apply (Inv_setCurrent s fos hist cur None pl pl).
Qed.

Lemma newGame_Inv (out : Game.Completion unit) (st : Game.State) :
  Game.newGame = Some (out, st) → Game.Inv st.
Proof.
  unfold Game.newGame. intros Hrun.
  destruct (initPlayingField_run Game.blank) as (st2 & Hrun2 & HI2 & _).
  { split; [constructor|]. by intros fo Hfo%elem_of_nil. }
  congruence.
Qed.

Lemma Reachable_Inv (st : Game.State) : Game.Reachable st → Game.Inv st.
Proof.
  induction 1 as [out st Hnew|st st' _ IH Hstep].
  - by apply (newGame_Inv out).
  - by apply (Step_Inv st).
Qed.

(** * Further properties of the store and of the game *)

Lemma blinkerObject_holds :
  Heap.holds blinkerStore blinkerObject [0; 1; 2]%nat (cells blinkerRow).
Proof. split; [done|]. by repeat constructor. Qed.

Lemma getClone_snapshot_witness :
  Heap.holds blinkerStore blinkerObject [0; 1; 2]%nat (cells blinkerRow)
  ∧ onlyAlive (mkPlayingField (cells blinkerRow))
  ∧ ∃ s1 g,
      Heap.getClone blinkerObject blinkerStore = Some (g, s1)
      ∧ (∃ s2 l',
           Heap.toggleCell blinkerObject (mkCoords 1 0) s1 = Some ((), s2)
           ∧ Heap.holds s2 blinkerObject l'
               (cells (toggleCell (mkPlayingField (cells blinkerRow))
                         (mkCoords 1 0)))
           ∧ Heap.holds s2 g [0; 1; 2]%nat (cells blinkerRow))
      ∧ (∃ s2 l',
           Heap.toggleCell g (mkCoords 1 0) s1 = Some ((), s2)
           ∧ Heap.holds s2 g l'
               (cells (toggleCell (mkPlayingField (cells blinkerRow))
                         (mkCoords 1 0)))
           ∧ Heap.holds s2 blinkerObject [0; 1; 2]%nat (cells blinkerRow)).
Proof.
  assert (onlyAlive (mkPlayingField (cells blinkerRow))) as Ha
    by (apply (bool_decide_unpack _); vm_compute; exact I).
  split; [exact blinkerObject_holds|]. split; [exact Ha|].
  exact (getClone_snapshot blinkerStore blinkerObject _ _ (mkCoords 1 0)
           blinkerObject_holds Ha).
Defined.

(** [X12] What [spawnNew] allocates. The returned field is a new array
    of new cell objects and [this.cells] is reassigned to another new
    array: the returned field shares no array and no cell object with
    the source or with any other field of the store. A field on another
    array than the source stores after the call what it stored before; a
    field on the array of the source has received the dead placeholders
    that the expansion pushes. *)
Theorem spawnNew_allocates (s : Heap.Store) (this other : Heap.PlayingField)
    (l lo : list Heap.ref) (cs co : list Cell) :
  Heap.holds s this l cs → Heap.holds s other lo co →
  ∃ s' f this' lf lt,
    Heap.spawnNew this s = Some ((f, this'), s')
    ∧ Heap.holds s' f lf (cells (spawnNew (mkPlayingField cs)).1)
    ∧ Heap.holds s' this' lt (cells (spawnNew (mkPlayingField cs)).2)
    ∧ (∀ r, r ∈ lf → (r ∉ l) ∧ (r ∉ lo))
    ∧ Heap.cells f ≠ Heap.cells this'
    ∧ (Heap.cells f ∉ [Heap.cells this; Heap.cells other])
    ∧ (Heap.cells this' ∉ [Heap.cells this; Heap.cells other])
    ∧ (Heap.cells other ≠ Heap.cells this → Heap.holds s' other lo co)
    ∧ (Heap.cells other = Heap.cells this →
       ∃ le, Heap.holds s' other le
               (cells (expandCellsWithNeighbors (mkPlayingField cs)))).
Proof.
  intros Hh Ho.
  destruct (spawnNew_store_fresh s this l cs Hh)
    as (s' & f & this' & lf & lt & Hrun & Hf & Ht & Harr & Hobj
        & Hfresh & Hlt & Hnew & le & Hle).
  exists s', f, this', lf, lt.
  pose proof (lookup_lt_Some _ _ _ (proj1 Hh)) as Hb1.
  pose proof (lookup_lt_Some _ _ _ (proj1 Ho)) as Hb2.
  assert (∀ (k : list Heap.ref) (ck : list Cell) r,
            Heap.points s k ck → r ∈ k →
            (r < length (Heap.objects s))%nat) as Hvalid.
  { intros k ck r Hp [j Hj]%list_elem_of_lookup.
    destruct (Forall2_lookup_l _ _ _ _ _ Hp Hj) as (cell & _ & Hcell).
    by eapply lookup_lt_Some. }
  split_and!; [done..| | | | | |].
  - intros r Hr. apply Hnew in Hr. split; intros Hin.
    + apply (Hvalid l cs r (proj2 Hh)) in Hin. lia.
    + apply (Hvalid lo co r (proj2 Ho)) in Hin. lia.
  - lia.
  - rewrite !not_elem_of_cons. split_and!; [lia|lia|apply not_elem_of_nil].
  - rewrite !not_elem_of_cons. split_and!; [lia|lia|apply not_elem_of_nil].
  - intros Hne. by apply (holds_frame s s' (Heap.cells this)).
  - intros Heq. exists le. destruct Hle as [Hl1 Hl2]. split; [|done].
    by rewrite Heq.
Qed.

Lemma spawnNew_allocates_witness :
  let s := Heap.mkStore [[0; 1; 2]%nat; []] (cells blinkerRow) in
  Heap.holds s blinkerObject [0; 1; 2]%nat (cells blinkerRow)
  ∧ Heap.holds s (Heap.mkPlayingField 1%nat) [] []
  ∧ ∃ s' f this' lf lt,
      Heap.spawnNew blinkerObject s = Some ((f, this'), s')
      ∧ Heap.holds s' f lf
          (cells (spawnNew (mkPlayingField (cells blinkerRow))).1)
      ∧ Heap.holds s' this' lt
          (cells (spawnNew (mkPlayingField (cells blinkerRow))).2)
      ∧ (∀ r, r ∈ lf → (r ∉ [0; 1; 2]%nat) ∧ (r ∉ @nil nat))
      ∧ Heap.cells f ≠ Heap.cells this'
      ∧ (Heap.cells f
         ∉ [Heap.cells blinkerObject; Heap.cells (Heap.mkPlayingField 1%nat)])
      ∧ (Heap.cells this'
         ∉ [Heap.cells blinkerObject;
            Heap.cells (Heap.mkPlayingField 1%nat)])
      ∧ (Heap.cells (Heap.mkPlayingField 1%nat) ≠ Heap.cells blinkerObject →
         Heap.holds s' (Heap.mkPlayingField 1%nat) [] [])
      ∧ (Heap.cells (Heap.mkPlayingField 1%nat) = Heap.cells blinkerObject →
         ∃ le, Heap.holds s' (Heap.mkPlayingField 1%nat) le
                 (cells (expandCellsWithNeighbors
                           (mkPlayingField (cells blinkerRow))))).
Proof.
  intros s.
  assert (Heap.holds s blinkerObject [0; 1; 2]%nat (cells blinkerRow)) as H1
    by (split; [done|by repeat constructor]).
  assert (Heap.holds s (Heap.mkPlayingField 1%nat) [] []) as H2
    by (split; [done|constructor]).
  split; [exact H1|]. split; [exact H2|].
  exact (spawnNew_allocates s blinkerObject (Heap.mkPlayingField 1%nat)
           _ _ _ _ H1 H2).
Defined.

Lemma started_new : Game.newGame = Some (Game.Normal (), Game.started).
Proof. reflexivity. Qed.

Lemma started_Reachable : Game.Reachable Game.started.
Proof. apply (Game.Reachable_new (Game.Normal ())), started_new. Qed.

Lemma clicks_Reachable (cs : list Coords) (st st' : Game.State) :
  Game.Reachable st → clicks cs st = Some st' → Game.Reachable st'.
Proof.
  revert st. induction cs as [|c cs IH]; intros st Hr Hrun; simpl in Hrun.
  - by simplify_eq.
  - destruct (Game.populationWatcher (λ _, true) c st) as [[out st1]|] eqn:E;
      [|done].
    apply (IH st1); [|done].
    by apply (Game.Reachable_step st st1 Hr),
             (Game.Step_populationWatcher (λ _, true) c st out).
Qed.

Lemma blinkerGame_Reachable : Game.Reachable blinkerGame.
Proof.
  apply (clicks_Reachable (coords <$> cells blinkerRow) Game.started).
  - exact started_Reachable.
  - vm_compute. reflexivity.
Qed.

Lemma steppedGame_Reachable : Game.Reachable steppedGame.
Proof.
  assert (snd <$> Game.stepHandler (λ _, true) blinkerGame
          = Some steppedGame) as Hrun by (vm_compute; reflexivity).
  destruct (Game.stepHandler (λ _, true) blinkerGame) as [[out st]|] eqn:E;
    [|done].
  injection Hrun as <-.
  apply (Game.Reachable_step blinkerGame); [apply blinkerGame_Reachable|].
  exact (Game.Step_stepHandler (λ _, true) blinkerGame out st E).
Qed.

Lemma derailedGame_Reachable : Game.Reachable derailedGame.
Proof.
  assert (snd <$> Game.generationHandler (λ _, true) 5 steppedGame
          = Some derailedGame) as Hrun by (vm_compute; reflexivity).
  destruct (Game.generationHandler (λ _, true) 5 steppedGame)
    as [[out st]|] eqn:E; [|done].
  injection Hrun as <-.
  apply (Game.Reachable_step steppedGame); [apply steppedGame_Reachable|].
  exact (Game.Step_generationHandler (λ _, true) 5 steppedGame out st E).
Qed.

(** [X13] In every state that a game reaches from [new Game] through
    its handlers (clicks, play, step, start, stop, reset, kill unseen,
    the generation slider), whether they return or throw, no two
    PlayingField objects hold the same array, every PlayingField object
    stores only alive cells with pairwise-distinct coordinates, every
    entry of the history is a PlayingField object, and the current field
    is an entry of the history unless it is [undefined]. *)
Theorem game_invariant (st : Game.State) :
  Game.Reachable st → Game.Inv st.
Proof. apply Reachable_Inv. Qed.

Lemma game_invariant_witness :
  Game.Reachable derailedGame ∧ Game.Inv derailedGame.
Proof.
  split; [exact derailedGame_Reachable|].
  exact (game_invariant derailedGame derailedGame_Reachable).
Defined.

(** [X14] One generation of the game. In a reachable state, [play]
    without [step] and while not playing does nothing. With [step] or
    while playing: when the current field is [undefined], [play] throws
    and changes nothing; otherwise it appends one new field object to
    the history and makes it current. The new field stores the next
    generation of what the advanced field stored; the advanced field,
    which stays in the history, stores its alive cells; every other
    field object stores what it stored. The cells erased are the visible
    ones of [getDifferenceCells], the cells drawn are the visible cells
    of the new generation. *)
Theorem play_advances (inB : Coords → bool) (step : bool) (st : Game.State) :
  Game.Reachable st →
  (Game.playing st = false → step = false →
   Game.play inB step st = Some (Game.Normal None, st))
  ∧ (Game.playing st = true ∨ step = true →
     (Game.currentPlayingField st = None →
      Game.play inB step st = Some (Game.TypeError, st))
     ∧ ∀ cur, Game.currentPlayingField st = Some cur →
         ∃ fo l cs st',
           Game.fieldObjects st !! cur = Some fo
           ∧ Heap.holds (Game.store st) fo l cs
           ∧ Game.play inB step st
             = Some (Game.Normal
                       (Some
                          (jsFilter (λ cell : Cell, inB cell)
                             (getDifferenceCells
                                (spawnNew (mkPlayingField cs)).1
                                (spawnNew (mkPlayingField cs)).2),
                           jsFilter (λ cell : Cell, inB cell)
                             (cells (spawnNew (mkPlayingField cs)).1))),
                     st')
           ∧ Game.playingFields st'
             = Game.playingFields st ++ [length (Game.fieldObjects st)]
           ∧ Game.currentPlayingField st'
             = Some (length (Game.fieldObjects st))
           ∧ Game.playing st' = Game.playing st
           ∧ Game.viewOf st' (length (Game.fieldObjects st))
               (cells (spawnNew (mkPlayingField cs)).1)
           ∧ Game.viewOf st' cur (cells (spawnNew (mkPlayingField cs)).2)
           ∧ ∀ j cs', j ≠ cur →
                      Game.viewOf st j cs' → Game.viewOf st' j cs').
Proof.
  intros HI%Reachable_Inv. split.
  - intros Hpl ->. by apply play_idle.
  - intros Hgo. split.
    + intros Hcur. by apply play_throws.
    + intros cur Hcur.
      destruct (play_run inB step st cur HI Hcur Hgo)
        as (fo & l & cs & st' & H1 & H2 & H3 & _ & H5).
      by exists fo, l, cs, st'.
Qed.

Lemma play_advances_witness :
  Game.Reachable blinkerGame
  ∧ Game.play (λ _, true) false blinkerGame
    = Some (Game.Normal None, blinkerGame)
  ∧ ∃ fo l cs st',
      Game.fieldObjects blinkerGame !! 0%nat = Some fo
      ∧ Heap.holds (Game.store blinkerGame) fo l cs
      ∧ Game.play (λ _, true) true blinkerGame
        = Some (Game.Normal
                  (Some
                     (jsFilter (λ cell : Cell, true)
                        (getDifferenceCells
                           (spawnNew (mkPlayingField cs)).1
                           (spawnNew (mkPlayingField cs)).2),
                      jsFilter (λ cell : Cell, true)
                        (cells (spawnNew (mkPlayingField cs)).1))),
                st')
      ∧ Game.playingFields st'
        = Game.playingFields blinkerGame
          ++ [length (Game.fieldObjects blinkerGame)]
      ∧ Game.currentPlayingField st'
        = Some (length (Game.fieldObjects blinkerGame))
      ∧ Game.playing st' = Game.playing blinkerGame
      ∧ Game.viewOf st' (length (Game.fieldObjects blinkerGame))
          (cells (spawnNew (mkPlayingField cs)).1)
      ∧ Game.viewOf st' 0%nat (cells (spawnNew (mkPlayingField cs)).2)
      ∧ ∀ j cs', j ≠ 0%nat →
                 Game.viewOf blinkerGame j cs' → Game.viewOf st' j cs'.
Proof.
  split; [exact blinkerGame_Reachable|].
  pose proof (play_advances (λ _, true) false blinkerGame
                blinkerGame_Reachable) as [Hidle _].
  pose proof (play_advances (λ _, true) true blinkerGame
                blinkerGame_Reachable) as [_ Hgo].
  split; [exact (Hidle eq_refl eq_refl)|].
  exact (proj2 (Hgo (or_intror eq_refl)) 0%nat eq_refl).
Defined.

(** [X15] A click edits the history. In a reachable state with a current
    field, that field is an entry of the history, and
    [populationWatcher] toggles the cell in that very object: afterwards
    the same entry of the history stores the toggled field, the history
    and the current field are the same references, and every other field
    object stores what it stored. The cells erased are the cell switched
    off, when it is visible; the cells drawn are the visible cells of
    the field. When the current field is [undefined],
    [populationWatcher] throws and changes nothing. *)
Theorem populationWatcher_edits_history (inB : Coords → bool) (c : Coords)
    (st : Game.State) :
  Game.Reachable st →
  (Game.currentPlayingField st = None →
   Game.populationWatcher inB c st = Some (Game.TypeError, st))
  ∧ ∀ cur, Game.currentPlayingField st = Some cur →
      ∃ fo l cs st',
        Game.fieldObjects st !! cur = Some fo
        ∧ Heap.holds (Game.store st) fo l cs
        ∧ cur ∈ Game.playingFields st
        ∧ Game.populationWatcher inB c st
          = Some (Game.Normal
                    (jsFilter (λ cell : Cell, inB cell)
                       (if hasLifeAt (mkPlayingField cs) c
                        then [mkCell c true] else []),
                     jsFilter (λ cell : Cell, inB cell)
                       (cells (toggleCell (mkPlayingField cs) c))),
                  st')
        ∧ Game.playingFields st' = Game.playingFields st
        ∧ Game.currentPlayingField st' = Some cur
        ∧ Game.viewOf st' cur (cells (toggleCell (mkPlayingField cs) c))
        ∧ ∀ j cs', j ≠ cur → Game.viewOf st j cs' → Game.viewOf st' j cs'.
Proof.
  intros HI%Reachable_Inv. split.
  - apply populationWatcher_throws.
  - intros cur Hcur.
    destruct (populationWatcher_run inB c st cur HI Hcur)
      as (fo & l & cs & st' & H1 & H2 & H3 & _ & H5 & H6 & _ & H8 & H9).
    exists fo, l, cs, st'. split_and!; try done. by apply HI.
Qed.

Lemma populationWatcher_edits_history_witness :
  Game.Reachable blinkerGame
  ∧ ∃ fo l cs st',
      Game.fieldObjects blinkerGame !! 0%nat = Some fo
      ∧ Heap.holds (Game.store blinkerGame) fo l cs
      ∧ 0%nat ∈ Game.playingFields blinkerGame
      ∧ Game.populationWatcher (λ _, true) (mkCoords 1 0) blinkerGame
        = Some (Game.Normal
                  (jsFilter (λ cell : Cell, true)
                     (if hasLifeAt (mkPlayingField cs) (mkCoords 1 0)
                      then [mkCell (mkCoords 1 0) true] else []),
                   jsFilter (λ cell : Cell, true)
                     (cells (toggleCell (mkPlayingField cs)
                               (mkCoords 1 0)))),
                st')
      ∧ Game.playingFields st' = Game.playingFields blinkerGame
      ∧ Game.currentPlayingField st' = Some 0%nat
      ∧ Game.viewOf st' 0%nat
          (cells (toggleCell (mkPlayingField cs) (mkCoords 1 0)))
      ∧ ∀ j cs', j ≠ 0%nat →
                 Game.viewOf blinkerGame j cs' → Game.viewOf st' j cs'.
Proof.
  split; [exact blinkerGame_Reachable|].
  exact (proj2 (populationWatcher_edits_history (λ _, true) (mkCoords 1 0)
                  blinkerGame blinkerGame_Reachable) 0%nat eq_refl).
Defined.

(** [X16] The generation slider. In a reachable state,
    [generationHandler] with a generation between 1 and the length of
    the history makes that entry of the history the current field,
    leaves the history and every field object as they are, and draws
    the visible cells of the entry. With any other number it throws, and
    leaves the game with [currentPlayingField] undefined and nothing
    else changed. *)
Theorem generationHandler_bounds (inB : Coords → bool) (generation : Z)
    (st : Game.State) :
  Game.Reachable st →
  (1 ≤ generation ≤ Z.of_nat (length (Game.playingFields st)) →
   ∃ i cs st',
     Game.playingFields st !! Z.to_nat (generation - 1) = Some i
     ∧ Game.viewOf st i cs
     ∧ Game.generationHandler inB generation st
       = Some (Game.Normal (jsFilter (λ cell : Cell, inB cell) cs), st')
     ∧ Game.currentPlayingField st' = Some i
     ∧ Game.playingFields st' = Game.playingFields st
     ∧ ∀ j cs', Game.viewOf st j cs' → Game.viewOf st' j cs')
  ∧ (generation < 1
     ∨ Z.of_nat (length (Game.playingFields st)) < generation →
     Game.generationHandler inB generation st
     = Some (Game.TypeError,
             Game.mkState (Game.store st) (Game.fieldObjects st)
               (Game.playingFields st) None (Game.playing st))).
Proof.
  intros HI%Reachable_Inv. split.
  - intros Hin.
    destruct (generationHandler_run inB generation st HI Hin)
      as (i & cs & st' & H1 & H2 & H3 & _ & H5 & H6 & _ & _ & H8).
    by exists i, cs, st'.
  - apply generationHandler_throws.
Qed.

Lemma generationHandler_bounds_witness :
  Game.Reachable steppedGame
  ∧ (∃ i cs st',
       Game.playingFields steppedGame !! Z.to_nat (1 - 1) = Some i
       ∧ Game.viewOf steppedGame i cs
       ∧ Game.generationHandler (λ _, true) 1 steppedGame
         = Some (Game.Normal (jsFilter (λ cell : Cell, true) cs), st')
       ∧ Game.currentPlayingField st' = Some i
       ∧ Game.playingFields st' = Game.playingFields steppedGame
       ∧ ∀ j cs', Game.viewOf steppedGame j cs' → Game.viewOf st' j cs')
  ∧ Game.generationHandler (λ _, true) 3 steppedGame
    = Some (Game.TypeError,
            Game.mkState (Game.store steppedGame)
              (Game.fieldObjects steppedGame)
              (Game.playingFields steppedGame) None
              (Game.playing steppedGame)).
Proof.
  split; [exact steppedGame_Reachable|].
  pose proof (generationHandler_bounds (λ _, true) 1 steppedGame
                steppedGame_Reachable) as [Hin _].
  pose proof (generationHandler_bounds (λ _, true) 3 steppedGame
                steppedGame_Reachable) as [_ Hout].
  split.
  - apply Hin. unfold steppedGame. simpl. lia.
  - apply Hout. unfold steppedGame. simpl. lia.
Defined.

(** [X17] Kill unseen. In a reachable state with a current field,
    [killUnseenHandler] appends one new field object to the history and
    makes it current; it stores the visible cells of the former current
    field, in order. Every field object that was there, the former
    current field included, stores what it stored. When the current
    field is [undefined], [killUnseenHandler] throws and changes
    nothing. *)
Theorem killUnseenHandler_filters (inB : Coords → bool) (st : Game.State) :
  Game.Reachable st →
  (Game.currentPlayingField st = None →
   Game.killUnseenHandler inB st = Some (Game.TypeError, st))
  ∧ ∀ cur, Game.currentPlayingField st = Some cur →
      ∃ fo l cs st',
        Game.fieldObjects st !! cur = Some fo
        ∧ Heap.holds (Game.store st) fo l cs
        ∧ Game.killUnseenHandler inB st = Some (Game.Normal (), st')
        ∧ Game.playingFields st'
          = Game.playingFields st ++ [length (Game.fieldObjects st)]
        ∧ Game.currentPlayingField st'
          = Some (length (Game.fieldObjects st))
        ∧ Game.viewOf st' (length (Game.fieldObjects st))
            (jsFilter (λ cell : Cell, inB cell) cs)
        ∧ ∀ j cs', Game.viewOf st j cs' → Game.viewOf st' j cs'.
Proof.
  intros HI%Reachable_Inv. split.
  - apply killUnseenHandler_throws.
  - intros cur Hcur.
    destruct (killUnseenHandler_run inB st cur HI Hcur)
      as (fo & l & cs & st' & H1 & H2 & H3 & _ & H5 & H6 & _ & H8 & H9).
    by exists fo, l, cs, st'.
Qed.

Lemma killUnseenHandler_filters_witness :
  Game.Reachable blinkerGame
  ∧ ∃ fo l cs st',
      Game.fieldObjects blinkerGame !! 0%nat = Some fo
      ∧ Heap.holds (Game.store blinkerGame) fo l cs
      ∧ Game.killUnseenHandler (λ c, x c <? 2) blinkerGame
        = Some (Game.Normal (), st')
      ∧ Game.playingFields st'
        = Game.playingFields blinkerGame
          ++ [length (Game.fieldObjects blinkerGame)]
      ∧ Game.currentPlayingField st'
        = Some (length (Game.fieldObjects blinkerGame))
      ∧ Game.viewOf st' (length (Game.fieldObjects blinkerGame))
          (jsFilter (λ cell : Cell, x cell <? 2) cs)
      ∧ ∀ j cs', Game.viewOf blinkerGame j cs' → Game.viewOf st' j cs'.
Proof.
  split; [exact blinkerGame_Reachable|].
  exact (proj2 (killUnseenHandler_filters (λ c, x c <? 2) blinkerGame
                  blinkerGame_Reachable) 0%nat eq_refl).
Defined.

Lemma points_functional (s : Heap.Store) (l : list Heap.ref)
    (cs cs' : list Cell) :
  Heap.points s l cs → Heap.points s l cs' → cs = cs'.
Proof.
  intros Hp. revert cs'. induction Hp as [|r cell l cs Hr _ IH];
    intros cs' Hp'; inversion Hp'; subst; [done|].
  f_equal; [congruence|]. by apply IH.
Qed.

Lemma viewOf_functional (st : Game.State) (i : nat) (cs cs' : list Cell) :
  Game.viewOf st i cs → Game.viewOf st i cs' → cs = cs'.
Proof.
  intros (fo & l & Hfo & Hl & Hp) (fo' & l' & Hfo' & Hl' & Hp').
  assert (fo' = fo) as -> by congruence.
  assert (l' = l) as -> by congruence.
  by apply (points_functional (Game.store st) l).
Qed.

(** [X18] Play after a rewind. In a reachable state, with or without a
    current field, after [generationHandler] has made the entry
    [generation] of the history current, a step of [play] appends the
    next generation of that entry at the end of the history: the
    entries after [generation] are kept, and the entry itself is pruned
    to its alive cells. *)
Theorem play_after_rewind (inB : Coords → bool) (generation : Z)
    (st : Game.State) :
  Game.Reachable st →
  1 ≤ generation ≤ Z.of_nat (length (Game.playingFields st)) →
  ∃ i cs out1 st1 out2 st2,
    Game.playingFields st !! Z.to_nat (generation - 1) = Some i
    ∧ Game.viewOf st i cs
    ∧ Game.generationHandler inB generation st
      = Some (Game.Normal out1, st1)
    ∧ Game.play inB true st1 = Some (Game.Normal out2, st2)
    ∧ Game.playingFields st2
      = Game.playingFields st ++ [length (Game.fieldObjects st)]
    ∧ Game.currentPlayingField st2 = Some (length (Game.fieldObjects st))
    ∧ Game.viewOf st2 (length (Game.fieldObjects st))
        (cells (spawnNew (mkPlayingField cs)).1)
    ∧ Game.viewOf st2 i (cells (spawnNew (mkPlayingField cs)).2).
Proof.
  intros HI%Reachable_Inv Hin.
  destruct (generationHandler_run inB generation st HI Hin)
    as (i & cs & st1 & H1 & H2 & Hrun1 & HI1 & Hcur & Hhist & _ & Hfos
        & Hviews).
  destruct (play_run inB true st1 i HI1 Hcur (or_intror eq_refl))
    as (fo & l & cs1 & st2 & Hfo & Hh & Hrun2 & _ & Hh2 & Hc2 & _ & Hv1
        & Hv2 & _).
  assert (cs1 = cs) as ->.
  { apply (viewOf_functional st1 i); [|by apply Hviews]. by exists fo, l. }
  rewrite Hfos in *.
  eexists i, cs, _, st1, _, st2.
  split_and!; [done|done|exact Hrun1|exact Hrun2|..].
  - by rewrite Hh2, Hhist.
  - done.
  - done.
  - done.
Qed.

Lemma play_after_rewind_witness :
  Game.Reachable derailedGame
  ∧ 1 ≤ 1 ≤ Z.of_nat (length (Game.playingFields derailedGame))
  ∧ ∃ i cs out1 st1 out2 st2,
      Game.playingFields derailedGame !! Z.to_nat (1 - 1) = Some i
      ∧ Game.viewOf derailedGame i cs
      ∧ Game.generationHandler (λ _, true) 1 derailedGame
        = Some (Game.Normal out1, st1)
      ∧ Game.play (λ _, true) true st1 = Some (Game.Normal out2, st2)
      ∧ Game.playingFields st2
        = Game.playingFields derailedGame
          ++ [length (Game.fieldObjects derailedGame)]
      ∧ Game.currentPlayingField st2
        = Some (length (Game.fieldObjects derailedGame))
      ∧ Game.viewOf st2 (length (Game.fieldObjects derailedGame))
          (cells (spawnNew (mkPlayingField cs)).1)
      ∧ Game.viewOf st2 i (cells (spawnNew (mkPlayingField cs)).2).
Proof.
  assert (1 ≤ 1 ≤ Z.of_nat (length (Game.playingFields derailedGame)))
    as Hin by (unfold derailedGame; simpl; lia).
  split; [exact derailedGame_Reachable|]. split; [exact Hin|].
  exact (play_after_rewind (λ _, true) 1 derailedGame
           derailedGame_Reachable Hin).
Defined.

(** [X19] Reset. In a reachable state, with or without a current field,
    [resetHandler] leaves a history of one new field object, which is
    the current field and stores no cell, and the game is not
    playing. *)
Theorem resetHandler_clears (st : Game.State) :
  Game.Reachable st →
  ∃ st',
    Game.resetHandler st = Some (Game.Normal (), st')
    ∧ Game.playingFields st' = [length (Game.fieldObjects st)]
    ∧ Game.currentPlayingField st' = Some (length (Game.fieldObjects st))
    ∧ Game.playing st' = false
    ∧ Game.viewOf st' (length (Game.fieldObjects st)) [].
Proof.
  intros HI%Reachable_Inv. destruct st as [s fos hist cur pl].
  destruct (initPlayingField_run (Game.mkState s fos [] cur pl))
    as (st' & Hrun & _ & H1 & H2 & H3 & H4 & _).
  { apply Inv_tableOk in HI. apply HI. }
  exists st'. split_and!; try done.
Qed.

Lemma resetHandler_clears_witness :
  Game.Reachable derailedGame
  ∧ ∃ st',
      Game.resetHandler derailedGame = Some (Game.Normal (), st')
      ∧ Game.playingFields st' = [length (Game.fieldObjects derailedGame)]
      ∧ Game.currentPlayingField st'
        = Some (length (Game.fieldObjects derailedGame))
      ∧ Game.playing st' = false
      ∧ Game.viewOf st' (length (Game.fieldObjects derailedGame)) [].
Proof.
  split; [exact derailedGame_Reachable|].
  exact (resetHandler_clears derailedGame derailedGame_Reachable).
Defined.
